(** * Verification of [dataanalysis/brainmaptools.py]

    A shallow embedding of the co-activation pipeline of the module:
    the matrix builders ([build_jaccard], [build_n_coactives_array]),
    the graph thresholders ([applycost_to_g], [remove_edges_by_weight]),
    the significance filter ([significant_connection_threshold]) and the
    influence estimator ([build_influence_matrix],
    [build_positive_influence_matrix], [build_influence_digraph]); and of
    its utilities: the keycode utilities ([number_of_contrasts],
    [domain_filter_keycodes], [select_n_random_keycodes] and the matrix of
    one iteration of [build_average_graph_from_random_keycodes]), the
    labels and partitions ([build_region_labels_dict],
    [make_brainx_style_partition]) and the top-n ranking of
    [run_basic_metrics] and [run_weighted_metrics].

    Numeric conventions.  Counts are integers ([Z], [nat]).  A numpy
    [float64] is a value of [npfloat]: one of the IEEE special values
    (NaN, +inf, -inf) or a finite number, held as a rational; the sign of a
    zero is not kept.  The special values follow numpy: a division by zero
    yields NaN or an infinity and raises nothing.  Python exceptions are
    values of [exn].

    The influence estimator divides and subtracts small counts; its
    arithmetic on finite numbers is exact ([NpFloat]).  The product
    [n * cost] of [applycost_to_g] and the likelihoods, their ratio and the
    statistic of [significant_connection_threshold] are binary64 values:
    each operation on two doubles is rounded to the nearest double, ties to
    even, with gradual underflow and overflow to an infinity ([Binary64]).

    The libraries the module calls are modelled after their documentation:
    [networkx] graphs ([NetworkX], [InfluenceGraph]); the values that
    [scipy.stats.binom.pmf] and [math.log10] return on finite arguments of
    their domain are those of a [Library], of which the theorems assume
    nothing, while what the two functions do outside it (NaN, 0,
    ValueError) is written out ([FloatLibrary]).  The sample runs use the
    library of [Reference].  The draws of [np.random.rand] are a parameter
    of the resampling. *)

From Stdlib Require Import ZArith QArith Qround Qpower Lia.
From Stdlib Require Import Sorting.Permutation Sorting.Sorted.
From stdpp Require Import base option list gmap sets fin_sets strings.

#[local] Set Warnings "-clear-no-such-hyp".

(** ** Python runtime: exceptions and [for] loops *)

Module Py.

Inductive exn : Set :=
| IndexError
| ValueError
| KeyError
| NetworkXError
| OverflowError.

Inductive result (A : Type) : Type :=
| Ok (a : A)
| Raise (e : exn).
Arguments Ok {A} a.
Arguments Raise {A} e.

#[global] Instance result_ret : MRet result := fun A a => Ok a.
#[global] Instance result_bind : MBind result := fun A B k m =>
  match m with
  | Ok a => k a
  | Raise e => Raise e
  end.

(** [for i, x in enumerate(l): s = body s i x], counting from [i]. *)
Fixpoint for_enum {A St} (body : St → nat → A → St) (i : nat) (l : list A) (s : St) : St :=
  match l with
  | [] => s
  | x :: l' => for_enum body (S i) l' (body s i x)
  end.

(** The same loop with a body that may raise: the first exception ends it. *)
Fixpoint for_each {A St} (body : St → A → result St) (l : list A) (s : St) : result St :=
  match l with
  | [] => Ok s
  | x :: l' => s' ← body s x; for_each body l' s'
  end.

(** [l[i]] for a non-negative index. *)
Definition index {A} (l : list A) (i : nat) : result A :=
  match l !! i with
  | Some x => Ok x
  | None => Raise IndexError
  end.

(** [l[i]] for any integer index: negative indices count from the end. *)
Definition getitem {A} (l : list A) (i : Z) : result A :=
  if (0 <=? i)%Z then index l (Z.to_nat i)
  else if (- Z.of_nat (length l) <=? i)%Z then index l (Z.to_nat (Z.of_nat (length l) + i))
  else Raise IndexError.

End Py.
Export Py.

(** ** numpy arrays of rank two, as lists of rows *)

Module Np.

Abbreviation matrix A := (list (list A)).

(** [np.zeros(shape=(n, m))] *)
Definition zeros {A} (zero : A) (n m : nat) : matrix A := replicate n (replicate m zero).

(** [M[i, j]] *)
Definition mget {A} (M : matrix A) (i j : nat) : option A :=
  M !! i ≫= fun row => row !! j.

(** [M[i, j] = v] in place; the callers only write inside the array. *)
Definition mset {A} (M : matrix A) (i j : nat) (v : A) : matrix A :=
  alter (fun row => <[j := v]> row) i M.

(** [M.shape == (n, m)] *)
Definition shape {A} (n m : nat) (M : matrix A) : Prop :=
  length M = n ∧ Forall (fun row => length row = m) M.

Definition symmetric {A} (M : matrix A) : Prop :=
  ∀ i j, mget M i j = mget M j i.

End Np.
Export Np.

(** ** Matrix builder *)

Module MatrixBuilder.
Section Builders.
(** Keycodes are opaque hashable identifiers (strings or integers). *)
Context {K : Type} `{Countable K}.

(** [set(x)] *)
Definition pyset (x : list K) : gset K := list_to_set x.

(** [float(n)] for a length [n]. *)
Definition float_of_len (n : nat) : Q := inject_Z (Z.of_nat n).

(** [if union:], the truth value of a float. *)
Definition truthy (q : Q) : bool := negb (Qeq_bool q 0).

Definition build_jaccard (key_codes : list (list K)) : matrix Q :=
  let jaccard := zeros 0%Q (length key_codes) (length key_codes) in
  for_enum (fun jaccard col_idx x =>
    for_enum (fun jaccard row_idx y =>
      let intersect := float_of_len (size (pyset x ∩ pyset y)) in
      let union := float_of_len (length (elements (pyset x ∪ pyset y))) in
      if truthy union then mset jaccard col_idx row_idx (intersect / union)%Q
      else jaccard) 0 key_codes jaccard) 0 key_codes jaccard.

Definition build_n_coactives_array (key_codes : list (list K)) : matrix Z :=
  let n_coactives_array := zeros 0%Z (length key_codes) (length key_codes) in
  for_enum (fun n_coactives_array col_idx x =>
    for_enum (fun n_coactives_array row_idx y =>
      mset n_coactives_array col_idx row_idx (Z.of_nat (size (pyset x ∩ pyset y))))
      0 key_codes n_coactives_array) 0 key_codes n_coactives_array.

(** The entries as the specification words them:
    [J[i][j] = |A_i ∩ A_j| / |A_i ∪ A_j|], and [0] when the union is empty;
    [C[i][j] = |A_i ∩ A_j|]. *)
Definition jaccard_index (x y : list K) : Q :=
  if decide (pyset x ∪ pyset y = ∅) then 0%Q
  else (float_of_len (size (pyset x ∩ pyset y)) / float_of_len (size (pyset x ∪ pyset y)))%Q.

Definition coactivations (x y : list K) : Z := Z.of_nat (size (pyset x ∩ pyset y)).

End Builders.
End MatrixBuilder.

(** ** networkx graphs

    An undirected [nx.Graph] is kept as its node list and the list of its
    edges in the order [edges_iter] yields them, each undirected edge once,
    with its attribute.  A weighted graph carries the ['weight'] attribute on
    every edge ([Graph V Q]); [nx.complete_graph] has bare edges. *)

Module NetworkX.

Record Graph (V W : Type) : Type := mkGraph {
  nodes : list V;
  edges : list (V * V * W)
}.
Arguments mkGraph {V W} nodes edges.
Arguments nodes {V W} g.
Arguments edges {V W} g.

(** [itertools.combinations(range(n), 2)] *)
Definition combinations2 (n : nat) : list (nat * nat) :=
  flat_map (fun i => map (fun j => (i, j)) (seq (S i) (n - S i))) (seq 0 n).

Definition complete_graph (n : nat) : Graph nat unit :=
  mkGraph (seq 0 n) (map (fun e => (e, tt)) (combinations2 n)).

Section Ops.
Context {V W : Type} `{EqDecision V}.
Implicit Type G : Graph V W.

Definition number_of_nodes G : nat := length (nodes G).
Definition number_of_edges G : nat := length (edges G).

Definition edges_iter G : list (V * V) := map fst (edges G).

(** Whether the edge record [e] joins [x] and [y], in either direction. *)
Definition joins (x y : V) (e : V * V * W) : bool :=
  bool_decide (e.1.1 = x ∧ e.1.2 = y) || bool_decide (e.1.1 = y ∧ e.1.2 = x).

Definition has_node G (x : V) : bool := bool_decide (x ∈ nodes G).

(** [G[x][y]], the attribute of the edge between [x] and [y]. *)
Definition edge_attr G (x y : V) : result W :=
  match filter (fun e => joins x y e = true) (edges G) with
  | e :: _ => Ok e.2
  | [] => Raise KeyError
  end.

(** [G.remove_edge(x, y)] raises when there is no such edge. *)
Definition remove_edge G (x y : V) : result (Graph V W) :=
  match filter (fun e => joins x y e = true) (edges G) with
  | _ :: _ => Ok (mkGraph (nodes G) (filter (fun e => joins x y e = false) (edges G)))
  | [] => Raise NetworkXError
  end.

(** [G.remove_edges_from(ebunch)] skips the edges that are not there. *)
Definition remove_edges_from G (ebunch : list (V * V)) : Graph V W :=
  foldl (fun G e => mkGraph (nodes G) (filter (fun e' => joins e.1 e.2 e' = false) (edges G)))
        G ebunch.

(** [G.remove_node(x)] drops the node with its incident edges, and raises
    when the node is not in the graph. *)
Definition remove_node G (x : V) : result (Graph V W) :=
  if has_node G x then
    Ok (mkGraph (filter (fun v => v ≠ x) (nodes G))
                (filter (fun e => e.1.1 ≠ x ∧ e.1.2 ≠ x) (edges G)))
  else Raise NetworkXError.

(** The degree of a node; a self-loop counts twice. *)
Definition degree G (x : V) : nat :=
  length (filter (fun e => e.1.1 = x) (edges G)) +
  length (filter (fun e => e.1.2 = x) (edges G)).

Definition degree_iter G : list (V * nat) := map (fun x => (x, degree G x)) (nodes G).

(** The invariant of an [nx.Graph]: every node once, every edge between
    nodes of the graph, and at most one edge between two nodes. *)
Definition well_formed G : Prop :=
  NoDup (nodes G) ∧
  (∀ e, e ∈ edges G → e.1.1 ∈ nodes G ∧ e.1.2 ∈ nodes G) ∧
  (∀ i j e e', edges G !! i = Some e → edges G !! j = Some e' →
               joins e.1.1 e.1.2 e' = true → i = j).

End Ops.
End NetworkX.
Export NetworkX.


(** ** numpy floats with their special values *)

Module NpFloat.

Inductive npfloat (A : Type) : Type :=
| NaN
| PInf
| NInf
| Fin (x : A).
Arguments NaN {A}.
Arguments PInf {A}.
Arguments NInf {A}.
Arguments Fin {A} x.

Definition of_Z (z : Z) : npfloat Q := Fin (inject_Z z).

Definition Qsign (q : Q) : Z := Z.sgn (Qnum q).

Definition inf_of_sign (s : Z) : npfloat Q :=
  match s with
  | Z0 => NaN
  | Zpos _ => PInf
  | Zneg _ => NInf
  end.

Definition sign_of (x : npfloat Q) : Z :=
  match x with
  | NaN => 0%Z
  | PInf => 1%Z
  | NInf => (-1)%Z
  | Fin q => Qsign q
  end.

(** [x / y]: a zero divisor gives NaN or an infinity, never an exception. *)
Definition fdiv (x y : npfloat Q) : npfloat Q :=
  match x, y with
  | NaN, _ | _, NaN => NaN
  | Fin a, Fin b => if Qeq_bool b 0 then inf_of_sign (Qsign a) else Fin (a / b)%Q
  | Fin _, _ => Fin 0%Q
  | _, Fin b => inf_of_sign (sign_of x * (if Qeq_bool b 0 then 1 else Qsign b))%Z
  | _, _ => NaN
  end.

(** [x * y] *)
Definition fmul (x y : npfloat Q) : npfloat Q :=
  match x, y with
  | NaN, _ | _, NaN => NaN
  | Fin a, Fin b => Fin (a * b)%Q
  | _, _ => inf_of_sign (sign_of x * sign_of y)%Z
  end.

(** [x - y] *)
Definition fsub (x y : npfloat Q) : npfloat Q :=
  match x, y with
  | NaN, _ | _, NaN => NaN
  | Fin a, Fin b => Fin (a - b)%Q
  | PInf, PInf | NInf, NInf => NaN
  | PInf, _ | _, NInf => PInf
  | NInf, _ | _, PInf => NInf
  end.

(** [x > 0]; a comparison with NaN is false. *)
Definition fpos (x : npfloat Q) : bool :=
  match x with
  | NaN | NInf => false
  | PInf => true
  | Fin q => negb (Qle_bool q 0)
  end.

End NpFloat.
Export NpFloat.

(** ** Rounding to binary64 *)

Module Binary64.

(** The exponent of a positive rational: the [e] with [2^e <= q < 2^(e+1)]. *)
Definition exponent (q : Q) : Z :=
  let e := (Z.log2 (Qnum q) - Z.log2 (Zpos (Qden q)))%Z in
  if Qle_bool (2 ^ e) q then e else (e - 1)%Z.

(** Rounding to the nearest integer, a tie to the even one. *)
Definition round_half_even (q : Q) : Z :=
  let f := Qfloor q in
  match (q - inject_Z f ?= 1 # 2)%Q with
  | Lt => f
  | Gt => (f + 1)%Z
  | Eq => if Z.even f then f else (f + 1)%Z
  end.

(** A positive rational to the nearest binary64 number: 53 bits from the
    exponent down, no step below the subnormal [2^-1074], and infinity from
    [2^1024] on. *)
Definition round_pos (q : Q) : npfloat Q :=
  let e := Z.max (exponent q) (-1022) in
  let ulp := (2 ^ (e - 52))%Q in
  let m := round_half_even (q / ulp) in
  let r := (inject_Z m * ulp)%Q in
  if Qle_bool (2 ^ 1024) r then PInf else Fin (Qred r).

(** Round to nearest, ties to even: the rounding of IEEE 754 arithmetic. *)
Definition round64 (q : Q) : npfloat Q :=
  let q := Qred q in
  match Qnum q with
  | Z0 => Fin 0%Q
  | Zpos _ => round_pos q
  | Zneg _ =>
      match round_pos (- q) with
      | Fin r => Fin (- r)%Q
      | _ => NInf
      end
  end.

(** Whether a rational is a binary64 number. *)
Definition representable (q : Q) : bool :=
  match round64 q with
  | Fin r => Qeq_bool r q
  | _ => false
  end.

(** The result of an operation on [a] and [b] whose exact value is [q]: on
    binary64 numbers, which is what the code holds, [q] rounded.  The types of
    the model also admit counts beyond [2^53] and rationals between the
    binary64 numbers; an operation on those is left exact. *)
Definition rounded (a b q : Q) : npfloat Q :=
  if representable a && representable b then round64 q else Fin q.

(** [x * y] on floats *)
Definition fmul64 (x y : npfloat Q) : npfloat Q :=
  match x, y with
  | Fin a, Fin b => rounded a b (a * b)
  | _, _ => fmul x y
  end.

(** [x / y] on floats; a zero divisor as in [fdiv]. *)
Definition fdiv64 (x y : npfloat Q) : npfloat Q :=
  match x, y with
  | Fin a, Fin b => if Qeq_bool b 0 then fdiv x y else rounded a b (a / b)
  | _, _ => fdiv x y
  end.

(** [x > t] for a finite [t]; a comparison with NaN is false. *)
Definition fgt (x : npfloat Q) (t : Q) : bool :=
  match x with
  | NaN | NInf => false
  | PInf => true
  | Fin r => negb (Qle_bool r t)
  end.

End Binary64.
Export Binary64.

(** ** Graph thresholder *)

Module Thresholder.

(** Comparison of two floats, [a < b]. *)
Definition flt (a b : Q) : bool := negb (Qle_bool b a).

(** [sorted(weights, reverse=1)] *)
Fixpoint insert_desc (w : Q) (l : list Q) : list Q :=
  match l with
  | [] => [w]
  | v :: l' => if flt v w then w :: l else v :: insert_desc w l'
  end.

Definition sorted_desc (weights : list Q) : list Q := foldr insert_desc [] weights.

(** [int(f)] for a finite float: truncation towards zero. *)
Definition int_of_float (f : Q) : Z := Z.quot (Qnum f) (Zpos (Qden f)).

(** [int(x)]: an infinity raises [OverflowError], NaN [ValueError]. *)
Definition py_int (x : npfloat Q) : result Z :=
  match x with
  | Fin q => Ok (int_of_float q)
  | NaN => Raise ValueError
  | PInf | NInf => Raise OverflowError
  end.

Section Thresholding.
Context {V : Type} `{EqDecision V}.
Implicit Type G : Graph V Q.

(** [[G[x][y]['weight'] for x, y in G.edges_iter()]] *)
Definition edge_weights G : result (list Q) :=
  for_each (fun acc e => w ← edge_attr G e.1 e.2; Ok (acc ++ [w])) (edges_iter G) [].

(** [[(x, y) for x, y in G.edges_iter() if G[x][y]['weight'] < thresh]] *)
Definition edges_below G (thresh : Q) : result (list (V * V)) :=
  for_each (fun acc e => w ← edge_attr G e.1 e.2;
                         Ok (if flt w thresh then acc ++ [e] else acc))
           (edges_iter G) [].

Definition applycost_to_g G (cost : Q) : result (Graph V Q) :=
  let Complete_G := complete_graph (number_of_nodes G) in
  n_edges_keep ← py_int (fmul64 (of_Z (Z.of_nat (number_of_edges Complete_G))) (Fin cost));
  weights ← edge_weights G;
  let sorted_weights := sorted_desc weights in
  thresh ← getitem sorted_weights (n_edges_keep + 1);
  remove_edgelist ← edges_below G thresh;
  let G_cost := G in
  Ok (remove_edges_from G_cost remove_edgelist).

Definition remove_edges_by_weight G (max_weight : Q) : result (Graph V Q) :=
  let G_removed := G in
  G_removed ← for_each (fun G_removed e =>
                 w ← edge_attr G_removed e.1 e.2;
                 if flt w max_weight then remove_edge G_removed e.1 e.2
                 else Ok G_removed) (edges_iter G) G_removed;
  G_removed ← for_each (fun G_removed xy =>
                 if (xy.2 <? 2)%nat then remove_node G_removed xy.1
                 else Ok G_removed) (degree_iter G) G_removed;
  Ok G_removed.

End Thresholding.
End Thresholder.

(** ** The float functions of scipy and the C library

    Their results are binary64 numbers near the exact values, with an error
    that depends on the implementation.  The model takes them as they come:
    as the two functions of a [Library], of which nothing is assumed. *)

Module FloatLibrary.

Class Library := {
  (** [scipy.stats.binom.pmf(k, n, p)] for [0 <= k <= n] and [0 <= p <= 1] *)
  pmf : Z → Z → Q → Q;
  (** [math.log10(x)] for a finite [x > 0] *)
  log10_pos : Q → Q
}.

Section Functions.
Context {lib : Library}.

(** [scipy.stats.binom.pmf(k, n, p)] for integral [k] and [n]: NaN when the
    parameters are not those of a distribution, [0] off the support. *)
Definition binom_pmf (k n : Z) (p : npfloat Q) : npfloat Q :=
  match p with
  | Fin p =>
      if (0 <=? n)%Z && Qle_bool 0 p && Qle_bool p 1 then
        if (0 <=? k)%Z && (k <=? n)%Z then Fin (pmf k n p)
        else Fin 0%Q
      else NaN
  | _ => NaN
  end.

(** [math.log10(x)]: raises [ValueError] outside its domain. *)
Definition log10 (x : npfloat Q) : result (npfloat Q) :=
  match x with
  | NaN => Ok NaN
  | PInf => Ok PInf
  | NInf => Raise ValueError
  | Fin q => if Qle_bool q 0 then Raise ValueError else Ok (Fin (log10_pos q))
  end.

End Functions.
End FloatLibrary.
Export FloatLibrary.

(** ** Significance filter *)

Module Significance.
Section Filter.
Context {lib : Library}.

(** [M[x][y]] *)
Definition item (M : matrix Z) (x y : nat) : result Z :=
  row ← index M x; index row y.

Definition significant_connection_threshold
    (in_array : matrix Z) (total_contrasts : Z) (threshold : Q) : result (matrix Z) :=
  let thresh_array := in_array in
  let n := length thresh_array in
  for_each (fun thresh_array x =>
    for_each (fun thresh_array y =>
      if decide (x ≠ y) then
        xx ← item thresh_array x x;
        xy ← item thresh_array x y;
        yy ← item thresh_array y y;
        let p := fdiv64 (of_Z xx) (of_Z total_contrasts) in
        let null := fmul64 (binom_pmf xy yy p)
                           (binom_pmf (xx - xy) (total_contrasts - yy) p) in
        let p_one := fdiv64 (of_Z xy) (of_Z yy) in
        let p_zero := fdiv64 (of_Z (xx - xy)) (of_Z (total_contrasts - yy)) in
        let alternate := fmul64 (binom_pmf xy yy p_one)
                                (binom_pmf (xx - xy) (total_contrasts - yy) p_zero) in
        l ← log10 (fdiv64 null alternate);
        let p_val := fmul64 (of_Z (-2)) l in
        if fgt p_val threshold then Ok (mset thresh_array x y 0%Z)
        else Ok thresh_array
      else Ok thresh_array) (seq 0 n) thresh_array) (seq 0 n) thresh_array.

(** The test of one pair [(x, y)], as the loop body runs it on the array
    [M]: whether the entry is to be set to zero. *)
Definition verdict (M : matrix Z) (total_contrasts : Z) (threshold : Q) (x y : nat)
    : result bool :=
  xx ← item M x x;
  xy ← item M x y;
  yy ← item M y y;
  let p := fdiv64 (of_Z xx) (of_Z total_contrasts) in
  let null := fmul64 (binom_pmf xy yy p)
                     (binom_pmf (xx - xy) (total_contrasts - yy) p) in
  let p_one := fdiv64 (of_Z xy) (of_Z yy) in
  let p_zero := fdiv64 (of_Z (xx - xy)) (of_Z (total_contrasts - yy)) in
  let alternate := fmul64 (binom_pmf xy yy p_one)
                          (binom_pmf (xx - xy) (total_contrasts - yy) p_zero) in
  l ← log10 (fdiv64 null alternate);
  Ok (fgt (fmul64 (of_Z (-2)) l) threshold).

(** The loop body at the pair [c], with the test factored out. *)
Definition visit (total_contrasts : Z) (threshold : Q) (M : matrix Z) (c : nat * nat)
    : result (matrix Z) :=
  if decide (c.1 ≠ c.2) then
    zero ← verdict M total_contrasts threshold c.1 c.2;
    Ok (if zero : bool then mset M c.1 c.2 0%Z else M)
  else Ok M.

(** The pairs [(x, y)] in the order the two loops visit them. *)
Definition cells (n : nat) : list (nat * nat) :=
  x ← seq 0 n; y ← seq 0 n; [(x, y)].

(** The quantities of the specification, read off the input matrix [C]:
    the floats the code computes from its entries. *)
Section Spec.
Variables (C : matrix Z) (N : Z) (i j : nat).

Definition entry (a b : nat) : Z := default 0%Z (mget C a b).

Definition null_likelihood : npfloat Q :=
  let p := fdiv64 (of_Z (entry i i)) (of_Z N) in
  fmul64 (binom_pmf (entry i j) (entry j j) p)
         (binom_pmf (entry i i - entry i j) (N - entry j j) p).

Definition alternative_likelihood : npfloat Q :=
  let p1 := fdiv64 (of_Z (entry i j)) (of_Z (entry j j)) in
  let p0 := fdiv64 (of_Z (entry i i - entry i j)) (of_Z (N - entry j j)) in
  fmul64 (binom_pmf (entry i j) (entry j j) p1)
         (binom_pmf (entry i i - entry i j) (N - entry j j) p0).


(** [null / alternative] *)
Definition likelihood_ratio : npfloat Q :=
  fdiv64 null_likelihood alternative_likelihood.

(** [stat = -2 * log10(null / alternative)] *)
Definition stat : result (npfloat Q) :=
  l ← log10 likelihood_ratio; Ok (fmul64 (of_Z (-2)) l).


(** The ratio is in the domain of [math.log10]: NaN, [+inf] or a positive
    number. *)
Definition in_domain : Prop :=
  match likelihood_ratio with
  | NaN | PInf => True
  | NInf => False
  | Fin q => (0 < q)%Q
  end.
End Spec.

End Filter.
End Significance.

(** ** Influence estimator *)

Module Influence.

(** [M.diagonal()] *)
Definition diagonal (M : matrix Z) : list Z :=
  omap (fun i => mget M i i) (seq 0 (length M)).

(** [M / d[:, np.newaxis]]: row [i] is divided by [d[i]]. *)
Definition divide_by_row (M : matrix Z) (d : list Z) : matrix (npfloat Q) :=
  zip_with (fun row di => map (fun v => fdiv (of_Z v) (of_Z di)) row) M d.

(** [M / d]: column [j] is divided by [d[j]]. *)
Definition divide_by_column (M : matrix Z) (d : list Z) : matrix (npfloat Q) :=
  map (fun row => zip_with (fun v dj => fdiv (of_Z v) (of_Z dj)) row d) M.

(** [a - b], entry by entry. *)
Definition subtract (a b : matrix (npfloat Q)) : matrix (npfloat Q) :=
  zip_with (zip_with fsub) a b.

Definition build_influence_matrix (n_coactives_array : matrix Z) : matrix (npfloat Q) :=
  let n_coactive_mat := n_coactives_array in
  let diagonal := diagonal n_coactive_mat in
  let a := divide_by_row n_coactive_mat diagonal in
  let b := divide_by_column n_coactive_mat diagonal in
  let influence_mat := subtract a b in
  influence_mat.

(** [m * (m > 0)]: the mask is [1.0] where the entry is positive, else [0.0]. *)
Definition times_positive_mask (m : matrix (npfloat Q)) : matrix (npfloat Q) :=
  map (map (fun v => fmul v (if fpos v then Fin 1%Q else Fin 0%Q))) m.

Definition build_positive_influence_matrix (n_coactives_array : matrix Z)
    : matrix (npfloat Q) :=
  let influence_mat := build_influence_matrix n_coactives_array in
  let influence_di_mat := times_positive_mask influence_mat in
  influence_di_mat.

(** What the error policy of the specification calls a degenerate entry. *)
Definition is_nan_or_inf {A} (x : npfloat A) : Prop :=
  match x with
  | Fin _ => False
  | _ => True
  end.

End Influence.

(** ** Sample inputs *)

Module Examples.

(** The complete graph on three regions with the weights 3, 2 and 1. *)
Definition triangle : Graph nat Q :=
  mkGraph [0; 1; 2] [(0, 1, 3%Q); (0, 2, 2%Q); (1, 2, 1%Q)].

(** A triangle with one strong and two weak edges. *)
Definition lopsided_triangle : Graph nat Q :=
  mkGraph [0; 1; 2] [(0, 1, 5%Q); (1, 2, 1%Q); (0, 2, 1%Q)].

(** Its edges of weight at least 3. *)
Definition lopsided_pruned : Graph nat Q :=
  mkGraph [0; 1; 2] [(0, 1, 5%Q)].

(** The binary64 numbers nearest to 1/3 and to 2/3. *)
Definition third : Q := 6004799503160661 # 18014398509481984.
Definition two_thirds : Q := 6004799503160661 # 9007199254740992.

(** Three regions: A = {1,2,3}, B = {2,3,4} and C = {5}. *)
Definition three_regions : list (list Z) := [[1; 2; 3]; [2; 3; 4]; [5]]%Z.

(** A region that lists study 1 twice. *)
Definition repeated_study : list (list Z) := [[1; 1; 2]; [2]]%Z.

(** Two regions over the studies 1 and 2: region 0 is active in study 1,
    region 1 in both. *)
Definition nested_regions : list (list Z) := [[1]; [1; 2]]%Z.

(** Their co-activation matrix. *)
Definition nested_coactives : matrix Z := [[1; 1]; [1; 2]]%Z.

(** A region without any activation next to one with two. *)
Definition silent_region : matrix Z := [[0; 0]; [0; 2]]%Z.

(** Two regions with two studies each, one of them shared, out of a universe
    of four studies. *)
Definition overlapping_coactives : matrix Z := [[2; 1]; [1; 2]]%Z.

(** Two regions that are active in the same two studies. *)
Definition twin_regions : matrix Z := [[2; 2]; [2; 2]]%Z.

(** Two regions that are active in the same 538 studies. *)
Definition crowded_regions : matrix Z := [[538; 538]; [538; 538]]%Z.

End Examples.

(** ** Keycode utilities: counting, filtering and resampling *)

Module Keycodes.
Section Codes.
Context {K : Type} `{Countable K}.

(** [set(x)], as in the matrix builders. *)
Definition keyset (x : list K) : gset K := list_to_set x.

Definition number_of_contrasts (key_codes : list (list K)) : nat :=
  let contrast_list := foldl (fun contrast_list x => contrast_list ++ x) [] key_codes in
  let ncontrasts := size (keyset contrast_list) in
  ncontrasts.

(** [studies_filtered_by_domain[domain]] raises [KeyError] for a domain that
    is not in the dictionary. *)
Definition domain_filter_keycodes (key_codes : list (list K))
    (studies_filtered_by_domain : gmap string (list K)) (domain : string)
    : result (list (gset K)) :=
  match studies_filtered_by_domain !! domain with
  | Some domainlist =>
      let domain_filtered_codes := map (fun x => keyset x ∩ keyset domainlist) key_codes in
      Ok domain_filtered_codes
  | None => Raise KeyError
  end.

(** [l[0:stop]] *)
Definition slice_to {A} (l : list A) (stop : Z) : list A :=
  if (0 <=? stop)%Z then take (Z.to_nat stop) l
  else take (Z.to_nat (Z.of_nat (length l) + stop)) l.

(** The order of Python tuples [(rand, key)]: by the first component, then
    by the second, where [key_lt] orders the keys. *)
Definition tuple_lt (key_lt : K → K → bool) (a b : Q * K) : bool :=
  negb (Qle_bool b.1 a.1) || (Qeq_bool a.1 b.1 && key_lt a.2 b.2).

(** [sorted(tuples, reverse=1)] *)
Fixpoint insert_tuple_desc (key_lt : K → K → bool) (t : Q * K) (l : list (Q * K))
    : list (Q * K) :=
  match l with
  | [] => [t]
  | u :: l' => if tuple_lt key_lt u t then t :: l else u :: insert_tuple_desc key_lt t l'
  end.

Definition sorted_tuples_desc (key_lt : K → K → bool) (l : list (Q * K)) : list (Q * K) :=
  foldr (insert_tuple_desc key_lt) [] l.

(** [rand n] stands for the draws of [np.random.rand(n)], and [key_lt] for
    the order of the keycodes. *)
Definition select_n_random_keycodes (rand : nat → list Q) (key_lt : K → K → bool)
    (keycodes : list (list K)) (nstudies : Z) : result (list (gset K)) :=
  let unique_keycodes := foldl (fun unique_keycodes x => unique_keycodes ++ x) [] keycodes in
  let unique_keycodes := keyset unique_keycodes in
  let rands := rand (size unique_keycodes) in
  let random_keys_tuple := zip rands (elements unique_keycodes) in
  let selected_tuple := slice_to (sorted_tuples_desc key_lt random_keys_tuple) nstudies in
  selected_keys ← match selected_tuple with
                  | [] => Raise IndexError
                  | _ :: _ => Ok (map snd selected_tuple)
                  end;
  let selected_keycodes := map (fun x => keyset selected_keys ∩ keyset x) keycodes in
  Ok selected_keycodes.

End Codes.

(** The matrix of one iteration of [build_average_graph_from_random_keycodes]:
    [build_jaccard] is handed the co-activation array, whose rows it reads
    as lists of numbers. *)
Definition iteration_jaccard {K : Type} `{Countable K} (select_n_keys : list (gset K))
    : matrix Q :=
  MatrixBuilder.build_jaccard
    (MatrixBuilder.build_n_coactives_array (map elements select_n_keys)).

End Keycodes.

(** ** Labels and partitions *)

Module Utility.

(** [x[:stop]] on a string. *)
Definition str_slice_to (x : string) (stop : Z) : string :=
  if (0 <=? stop)%Z then String.substring 0 (Z.to_nat stop) x
  else String.substring 0 (Z.to_nat (Z.of_nat (String.length x) + stop)) x.

(** [{idx: x[:-trim] for idx, x in enumerate(regionlist)}] *)
Definition build_region_labels_dict (regionlist : list string) (trim : Z) : gmap nat string :=
  let relabel_dict :=
    for_enum (fun relabel_dict idx x => <[idx := str_slice_to x (- trim)]> relabel_dict)
             0 regionlist ∅ in
  relabel_dict.

Section Partition.
Context {K Cm : Type} `{Countable K} `{Countable Cm}.

(** [list(d.keys())] and [list(d.values())] *)
Definition dict_keys (d : gmap K Cm) : list K := (map_to_list d).*1.
Definition dict_values (d : gmap K Cm) : list Cm := (map_to_list d).*2.

Definition make_brainx_style_partition (community_part_dict : gmap K Cm) : list (list K) :=
  let bx_part := [] in
  foldl (fun bx_part x =>
           let sub_part := filter (fun y => community_part_dict !! y = Some x)
                                  (dict_keys community_part_dict) in
           bx_part ++ [sub_part])
        bx_part
        (elements (list_to_set (dict_values community_part_dict) : gset Cm)).

End Partition.
End Utility.

(** ** Ranking of metric values *)

Module Metrics.
Section Tops.
Context {K : Type}.

(** [sorted(items, key=lambda item: item[1])]: ascending and stable. *)
Fixpoint insert_by_value (item : K * Q) (l : list (K * Q)) : list (K * Q) :=
  match l with
  | [] => [item]
  | other :: l' =>
      if Thresholder.flt other.2 item.2 then other :: insert_by_value item l'
      else item :: l
  end.

Definition sorted_by_value (items : list (K * Q)) : list (K * Q) :=
  foldr insert_by_value [] items.

(** [l[start:]] *)
Definition slice_from {A} (l : list A) (start : Z) : list A :=
  if (0 <=? start)%Z then drop (Z.to_nat start) l
  else drop (Z.to_nat (Z.of_nat (length l) + start)) l.

(** The ranking of [run_basic_metrics] and [run_weighted_metrics]: the
    [top_n] items of largest value, largest first. *)
Definition top_items (items : list (K * Q)) (top_n : Z) : result (list (K * Q)) :=
  let sorted_x := sorted_by_value items in
  tops ← for_each (fun tops y => item ← index (slice_from sorted_x (- top_n)) y;
                                 Ok (tops ++ [item]))
                  (seq 0 (Z.to_nat top_n)) [];
  Ok (reverse tops).

End Tops.
End Metrics.

(** ** The influence digraph *)

Module InfluenceGraph.

(** [x != 0], the test of [np.nonzero]: NaN and the infinities pass it. *)
Definition nonzero (x : npfloat Q) : bool :=
  match x with
  | Fin q => negb (Qeq_bool q 0)
  | _ => true
  end.

(** [nx.DiGraph(A)] for a square array: the nodes [0 .. n-1] and an edge
    [(u, v)] of weight [A[u, v]] for every nonzero entry, row by row. *)
Definition digraph_of_matrix (A : matrix (npfloat Q)) : Graph nat (npfloat Q) :=
  mkGraph (seq 0 (length A))
    (concat (imap (fun u row =>
               omap (fun vw => if nonzero vw.2 then Some (u, vw.1, vw.2) else None)
                    (imap (fun v w => (v, w)) row)) A)).

Definition build_influence_digraph (n_coactives_array : matrix Z) : Graph nat (npfloat Q) :=
  let influence_mat := Influence.build_influence_matrix n_coactives_array in
  let influence_di_mat := Influence.times_positive_mask influence_mat in
  let influence_diG := digraph_of_matrix influence_di_mat in
  influence_diG.

End InfluenceGraph.

(** ** Sample inputs of the utilities *)

Module Samples.

(** The studies of one behavioural domain. *)
Definition memory_studies : gmap string (list Z) := {[ "Memory" := [1; 2; 5]%Z ]}.

(** Draws that fall from 1/2 on, in place of [np.random.rand]. *)
Definition falling_draws (n : nat) : list Q :=
  map (fun i => 1 # Pos.of_succ_nat (S i)) (seq 0 n).

(** A resample with an empty region. *)
Definition resampled : list (gset Z) := [∅; {[ 1%Z ]}].

Definition region_names : list string := ["Amygdala_left"; "Insula_right"; "V1"].

(** Three nodes in two communities. *)
Definition communities : gmap nat nat := {[ 0 := 0; 1 := 1; 2 := 0 ]}.

(** Four nodes with their centralities, two of them tied. *)
Definition centralities : list (nat * Q) := [(0, 3%Q); (1, 5%Q); (2, 5%Q); (3, 1%Q)].

End Samples.

(** ** A library to run the filter on

    The binomial mass and the decimal logarithm computed well below one unit
    in the last place and then rounded: an implementation of [Library] as
    good as any, for the sample runs. *)

Module Reference.

Fixpoint Qpow (q : Q) (n : nat) : Q :=
  match n with
  | O => 1%Q
  | S n' => (q * Qpow q n')%Q
  end.

(** The binomial coefficient: [C(n, k) = C(n, k - 1) * (n - k + 1) / k]. *)
Fixpoint choose (n : Z) (k : nat) : Z :=
  match k with
  | O => 1%Z
  | S k' => (choose n k' * (n - Z.of_nat k') / Z.of_nat k)%Z
  end.

(** The finite value of a rounding that does not overflow. *)
Definition finite (x : npfloat Q) (otherwise : Q) : Q :=
  match x with
  | Fin q => q
  | _ => otherwise
  end.

Definition binomial_mass (k n : Z) (p : Q) : Q :=
  let exact := (inject_Z (choose n (Z.to_nat k))
                * Qpow p (Z.to_nat k) * Qpow (1 - p) (Z.to_nat (n - k)))%Q in
  finite (round64 exact) exact.

(** [z + z^3/3 + z^5/5 + ...], the first [terms] terms, from the term
    [power / odd] on. *)
Fixpoint atanh_series (square power : Q) (odd : Z) (terms : nat) : Q :=
  match terms with
  | O => 0%Q
  | S terms' =>
      Qred (power / inject_Z odd + atanh_series square (Qred (power * square)) (odd + 2) terms')
  end.

(** [ln m] for [m] between 1/2 and 10: twice the inverse hyperbolic tangent
    of [(m - 1) / (m + 1)], which is below 9/11 in size. *)
Definition ln_near_one (terms : nat) (m : Q) : Q :=
  let z := Qred ((m - 1) / (m + 1)) in
  (2 * atanh_series (Qred (z * z)) z 1 terms)%Q.

Definition ln2 : Q := Eval vm_compute in ln_near_one 30 2.
Definition ln10 : Q := Eval vm_compute in Qred (3 * ln2 + ln_near_one 30 (5 # 4)).

Definition decimal_logarithm (q : Q) : Q :=
  let e := exponent q in
  let m := (q / 2 ^ e)%Q in
  let exact := ((inject_Z e * ln2 + ln_near_one 30 m) / ln10)%Q in
  finite (round64 exact) exact.

Definition library : Library :=
  {| pmf := binomial_mass; log10_pos := decimal_logarithm |}.

End Reference.

(** * Proofs *)

(** ** Loops *)

Lemma for_enum_ext {A B St} (R : A → B → Prop) (body : St → nat → A → St)
    (body' : St → nat → B → St) l l' :
  Forall2 R l l' →
  (∀ s i x x', R x x' → body s i x = body' s i x') →
  ∀ i s, for_enum body i l s = for_enum body' i l' s.
Proof.
  intros Hl Hbody. induction Hl as [|x x' l l' Hx _ IH]; intros i s; simpl.
  - reflexivity.
  - rewrite (Hbody s i x x' Hx). apply IH.
Qed.

(** A loop whose body preserves an invariant preserves it. *)
Lemma for_enum_invariant {A St} (P : St → Prop) (body : St → nat → A → St) l :
  (∀ s i x, P s → P (body s i x)) →
  ∀ i s, P s → P (for_enum body i l s).
Proof.
  intros Hbody. induction l as [|x l IH]; intros i s Hs; simpl; auto.
Qed.

Lemma for_each_app {A St} (body : St → A → result St) l1 l2 s :
  for_each body (l1 ++ l2) s = (s' ← for_each body l1 s; for_each body l2 s').
Proof.
  revert s. induction l1 as [|x l1 IH]; intros s; simpl.
  - reflexivity.
  - destruct (body s x) as [s'|e]; simpl; [apply IH | reflexivity].
Qed.

(** ** Arrays *)

Section Arrays.
Context {A : Type}.
Implicit Type M : matrix A.

Lemma mget_zeros (z : A) n m i j :
  i < n → j < m → mget (zeros z n m) i j = Some z.
Proof.
  intros Hi Hj. unfold mget, zeros.
  rewrite lookup_replicate_2 by done. simpl.
  by rewrite lookup_replicate_2.
Qed.

Lemma shape_zeros (z : A) n m : shape n m (zeros z n m).
Proof.
  split; unfold zeros.
  - apply length_replicate.
  - apply Forall_replicate, length_replicate.
Qed.

Lemma shape_mset n m M i j v : shape n m M → shape n m (mset M i j v).
Proof.
  intros [Hn Hm]. split; unfold mset.
  - by rewrite length_alter.
  - apply Forall_alter; [done|]. intros row _ Hrow. by rewrite length_insert.
Qed.

Lemma mget_mset_eq M i j v :
  is_Some (mget M i j) → mget (mset M i j v) i j = Some v.
Proof.
  unfold mget, mset. intros [u Hu].
  destruct (M !! i) as [row|] eqn:Hrow; [|done]. simpl in Hu.
  rewrite list_lookup_alter_eq, Hrow. simpl.
  apply list_lookup_insert_eq. by apply lookup_lt_Some in Hu.
Qed.

Lemma mget_mset_ne M i j v i' j' :
  (i, j) ≠ (i', j') → mget (mset M i j v) i' j' = mget M i' j'.
Proof.
  unfold mget, mset. intros Hne.
  destruct (decide (i = i')) as [->|Hi].
  - rewrite list_lookup_alter_eq. destruct (M !! i') as [row|]; [|done]. simpl.
    apply list_lookup_insert_ne. congruence.
  - by rewrite list_lookup_alter_ne.
Qed.

Lemma mget_shape n m M i j : shape n m M → i < n → j < m → is_Some (mget M i j).
Proof.
  intros [Hn Hm] Hi Hj. unfold mget.
  destruct (lookup_lt_is_Some_2 M i) as [row Hrow]; [lia|].
  rewrite Hrow. simpl. apply lookup_lt_is_Some_2.
  rewrite Forall_lookup in Hm. rewrite (Hm _ _ Hrow). done.
Qed.

Lemma mget_shape_inv n m M i j v : shape n m M → mget M i j = Some v → i < n ∧ j < m.
Proof.
  intros [Hn Hm]. unfold mget.
  destruct (M !! i) as [row|] eqn:Hrow; [|done]. simpl. intros Hv.
  split.
  - apply lookup_lt_Some in Hrow. lia.
  - rewrite Forall_lookup in Hm. rewrite <- (Hm _ _ Hrow). by apply lookup_lt_Some in Hv.
Qed.

(** [for row_idx, y in enumerate(l): if g y is Some v: M[i, row_idx] = v] *)
Lemma mget_inner_loop {B} (g : B → option A) n m i l :
  ∀ j0 M i' j', shape n m M → i < n → j0 + length l ≤ m →
    mget (for_enum (fun M j y => from_option (mset M i j) M (g y)) j0 l M) i' j' =
    if decide (i' = i ∧ j0 ≤ j' < j0 + length l)
    then match l !! (j' - j0) ≫= g with
         | Some v => Some v
         | None => mget M i' j'
         end
    else mget M i' j'.
Proof.
  induction l as [|y l IH]; intros j0 M i' j' HM Hi Hlen; simpl in *.
  - case_decide; [lia | done].
  - rewrite IH; [| destruct (g y); simpl; auto using shape_mset | done | lia].
    destruct (decide (i' = i ∧ j' = j0)) as [[-> ->]|Hne].
    + rewrite decide_False by lia. rewrite decide_True by lia.
      replace (j0 - j0) with 0 by lia. simpl.
      destruct (g y) as [v|]; simpl; [|done].
      apply mget_mset_eq. eapply mget_shape; eauto. lia.
    + assert (mget (from_option (mset M i j0) M (g y)) i' j' = mget M i' j') as Hsame.
      { destruct (g y); simpl; [|done]. apply mget_mset_ne. naive_solver. }
      destruct (decide (i' = i ∧ S j0 ≤ j' < S j0 + length l)) as [[-> Hj]|Hout].
      * rewrite decide_True by lia.
        replace (j' - j0) with (S (j' - S j0)) by lia. simpl.
        by rewrite Hsame.
      * rewrite decide_False; [done|]. intros [-> Hj]. apply Hout. split; [done|].
        destruct (decide (j' = j0)) as [->|]; [by destruct Hne | lia].
Qed.

(** The two nested loops of the matrix builders: every cell of the array is
    visited once, and holds the value written there, or stays as it was. *)
Lemma mget_nested_loop {B} (g : B → B → option A) n ks l :
  length ks = n →
  ∀ i0 M i' j', shape n n M → i0 + length l ≤ n →
    mget (for_enum (fun M i x =>
            for_enum (fun M j y => from_option (mset M i j) M (g x y)) 0 ks M) i0 l M) i' j' =
    if decide (i0 ≤ i' < i0 + length l)
    then match l !! (i' - i0), ks !! j' with
         | Some x, Some y => match g x y with Some v => Some v | None => mget M i' j' end
         | _, _ => mget M i' j'
         end
    else mget M i' j'.
Proof.
  intros Hks. induction l as [|x l IH]; intros i0 M i' j' HM Hlen; simpl in *.
  - case_decide; [lia | done].
  - rewrite IH; [| | lia].
    2:{ apply for_enum_invariant; [|done]. intros s j y Hs.
        destruct (g x y); simpl; auto using shape_mset. }
    assert (i0 < n) as Hi0 by lia.
    assert (0 + length ks ≤ n) as Hks' by lia.
    pose proof (mget_inner_loop (g x) n n i0 ks 0 M i' j' HM Hi0 Hks') as Hin.
    rewrite Nat.sub_0_r in Hin. simpl in Hin.
    destruct (decide (i' = i0)) as [->|Hne].
    + rewrite (decide_False (P := S i0 ≤ i0 < _)) by lia.
      rewrite (decide_True (P := i0 ≤ i0 < _)) by lia.
      replace (i0 - i0) with 0 by lia. simpl.
      rewrite Hin. case_decide as Hj.
      * destruct (ks !! j') as [y|] eqn:Hy; simpl; [done|].
        apply lookup_ge_None in Hy. lia.
      * destruct (ks !! j') as [y|] eqn:Hy; [|done].
        apply lookup_lt_Some in Hy. lia.
    + rewrite (decide_False (P := i' = i0 ∧ _)) in Hin by (intros [? _]; done).
      destruct (decide (S i0 ≤ i' < S i0 + length l)) as [Hi'|Hi'].
      * rewrite (decide_True (P := i0 ≤ i' < _)) by lia.
        replace (i' - i0) with (S (i' - S i0)) by lia. simpl.
        destruct (l !! (i' - S i0)) as [x'|]; [|done].
        destruct (ks !! j') as [y|]; [|done].
        by destruct (g x' y).
      * rewrite (decide_False (P := i0 ≤ i' < _)) by lia. done.
Qed.

Lemma shape_nested_loop {B} (g : B → B → option A) n ks l i0 M :
  shape n n M →
  shape n n (for_enum (fun M i x =>
            for_enum (fun M j y => from_option (mset M i j) M (g x y)) 0 ks M) i0 l M).
Proof.
  intros HM. apply for_enum_invariant; [|done]. intros s i x Hs.
  apply for_enum_invariant; [|done]. intros s' j y Hs'.
  destruct (g x y); simpl; auto using shape_mset.
Qed.

End Arrays.

(** ** Matrix builder *)

Section MatrixBuilderProofs.
Import MatrixBuilder.
Context {K : Type} `{Countable K}.
Implicit Type key_codes : list (list K).

Lemma float_of_len_zero n : truthy (float_of_len n) = false ↔ n = 0.
Proof.
  unfold truthy, float_of_len. rewrite negb_false_iff, Qeq_bool_iff.
  unfold Qeq, inject_Z. simpl. lia.
Qed.

Lemma build_jaccard_loop key_codes :
  build_jaccard key_codes =
  for_enum (fun M i x =>
    for_enum (fun M j y =>
      from_option (mset M i j) M
        (if decide (pyset x ∪ pyset y = ∅) then None else Some (jaccard_index x y)))
      0 key_codes M) 0 key_codes (zeros 0%Q (length key_codes) (length key_codes)).
Proof.
  unfold build_jaccard.
  apply (for_enum_ext eq); [apply Forall2_same_length_lookup_2; naive_solver|].
  intros M i x ? <-.
  apply (for_enum_ext eq); [apply Forall2_same_length_lookup_2; naive_solver|].
  intros M' j y ? <-.
  change (length (elements (pyset x ∪ pyset y))) with (size (pyset x ∪ pyset y)).
  destruct (truthy _) eqn:Ht.
  - rewrite decide_False.
    + simpl. unfold jaccard_index. by rewrite decide_False by
        (intros HE; rewrite HE, size_empty in Ht; by rewrite (proj2 (float_of_len_zero 0)) in Ht).
    + intros HE. rewrite HE, size_empty in Ht.
      by rewrite (proj2 (float_of_len_zero 0)) in Ht.
  - apply float_of_len_zero, size_empty_inv in Ht.
    rewrite decide_True; [done|]. by apply leibniz_equiv.
Qed.

(** Every cell of the Jaccard array holds the index of its two regions. *)
Lemma build_jaccard_cell key_codes i j :
  mget (build_jaccard key_codes) i j =
  match key_codes !! i, key_codes !! j with
  | Some x, Some y => Some (jaccard_index x y)
  | _, _ => None
  end.
Proof.
  rewrite build_jaccard_loop.
  set (n := length key_codes).
  rewrite (mget_nested_loop _ n key_codes key_codes eq_refl 0) by (apply shape_zeros || (simpl; lia)).
  simpl. rewrite Nat.sub_0_r.
  destruct (key_codes !! i) as [x|] eqn:Hx.
  - pose proof (lookup_lt_Some _ _ _ Hx) as Hi. rewrite decide_True by (fold n; lia).
    destruct (key_codes !! j) as [y|] eqn:Hy.
    + case_decide as HE; [|done].
      rewrite mget_zeros by (done || by apply lookup_lt_Some in Hy).
      unfold jaccard_index. by rewrite decide_True.
    + apply lookup_ge_None in Hy. unfold mget, zeros.
      rewrite lookup_replicate_2 by done. simpl.
      apply lookup_ge_None. by rewrite length_replicate.
  - apply lookup_ge_None in Hx. rewrite decide_False by (fold n; lia).
    unfold mget, zeros. rewrite (proj2 (lookup_ge_None _ _)); [done|].
    by rewrite length_replicate.
Qed.

Lemma build_n_coactives_array_cell key_codes i j :
  mget (build_n_coactives_array key_codes) i j =
  match key_codes !! i, key_codes !! j with
  | Some x, Some y => Some (coactivations x y)
  | _, _ => None
  end.
Proof.
  unfold build_n_coactives_array.
  set (n := length key_codes).
  pose proof (mget_nested_loop (fun x y => Some (coactivations x y)) n key_codes key_codes
                eq_refl 0 (zeros 0%Z n n) i j (shape_zeros _ _ _)) as Hloop.
  simpl in Hloop. etrans; [apply Hloop; lia|]. clear Hloop. rewrite Nat.sub_0_r.
  destruct (key_codes !! i) as [x|] eqn:Hx.
  - pose proof (lookup_lt_Some _ _ _ Hx) as Hi. rewrite decide_True by (fold n; lia).
    destruct (key_codes !! j) as [y|] eqn:Hy; [done|].
    apply lookup_ge_None in Hy. unfold mget, zeros.
    rewrite lookup_replicate_2 by done. simpl.
    apply lookup_ge_None. by rewrite length_replicate.
  - apply lookup_ge_None in Hx. rewrite decide_False by (fold n; lia).
    unfold mget, zeros. rewrite (proj2 (lookup_ge_None _ _)); [done|].
    by rewrite length_replicate.
Qed.

Lemma shape_build_jaccard key_codes :
  shape (length key_codes) (length key_codes) (build_jaccard key_codes).
Proof.
  rewrite build_jaccard_loop. apply shape_nested_loop, shape_zeros.
Qed.

Lemma shape_build_n_coactives_array key_codes :
  shape (length key_codes) (length key_codes) (build_n_coactives_array key_codes).
Proof.
  apply (shape_nested_loop (fun x y => Some (coactivations x y))), shape_zeros.
Qed.

Lemma float_of_len_ratio (a b : nat) :
  a ≤ b → 0 < b → (0 <= float_of_len a / float_of_len b <= 1)%Q.
Proof.
  intros Hab Hb. unfold float_of_len.
  assert (0 < inject_Z (Z.of_nat b))%Q as Hpos.
  { change 0%Q with (inject_Z 0). rewrite <- Zlt_Qlt. lia. }
  split.
  - apply Qle_shift_div_l; [done|]. rewrite Qmult_0_l.
    change 0%Q with (inject_Z 0). rewrite <- Zle_Qle. lia.
  - apply Qle_shift_div_r; [done|]. rewrite Qmult_1_l.
    rewrite <- Zle_Qle. lia.
Qed.

Lemma jaccard_index_range (x y : list K) : (0 <= jaccard_index x y <= 1)%Q.
Proof.
  unfold jaccard_index. case_decide as HE; [done|].
  apply float_of_len_ratio.
  - apply subseteq_size. set_solver.
  - destruct (decide (size (pyset x ∪ pyset y) = 0)) as [Hz|]; [|lia].
    apply size_empty_inv in Hz. destruct HE. by apply leibniz_equiv.
Qed.

Lemma jaccard_index_diag (x : list K) :
  (pyset x ≠ ∅ → jaccard_index x x == 1)%Q ∧ (pyset x = ∅ → jaccard_index x x = 0%Q).
Proof.
  unfold jaccard_index. split.
  - intros Hx. rewrite decide_False by set_solver.
    replace (pyset x ∩ pyset x) with (pyset x) by set_solver.
    replace (pyset x ∪ pyset x) with (pyset x) by set_solver.
    apply Qmult_inv_r. unfold float_of_len, Qeq, inject_Z. simpl.
    destruct (decide (size (pyset x) = 0)) as [Hz|]; [|lia].
    apply size_empty_inv in Hz. destruct Hx. by apply leibniz_equiv.
  - intros ->. by rewrite decide_True by set_solver.
Qed.

(** The builders read a region's list only through [set(x)]. *)
Lemma builders_same_sets key_codes key_codes' :
  Forall2 (fun x x' => pyset x = pyset x') key_codes key_codes' →
  build_n_coactives_array key_codes = build_n_coactives_array key_codes' ∧
  build_jaccard key_codes = build_jaccard key_codes'.
Proof.
  intros Hsets. pose proof (Forall2_length _ _ _ Hsets) as Hlen.
  unfold build_n_coactives_array, build_jaccard. rewrite Hlen. split.
  - apply (for_enum_ext _ _ _ _ _ Hsets). intros M i x x' Hx.
    apply (for_enum_ext _ _ _ _ _ Hsets). intros M' j y y' Hy.
    by rewrite Hx, Hy.
  - apply (for_enum_ext _ _ _ _ _ Hsets). intros M i x x' Hx.
    apply (for_enum_ext _ _ _ _ _ Hsets). intros M' j y y' Hy.
    by rewrite Hx, Hy.
Qed.

Lemma pyset_remove_dups (x : list K) : pyset (remove_dups x) = pyset x.
Proof.
  unfold pyset. apply set_eq. intros k.
  by rewrite !elem_of_list_to_set, elem_of_remove_dups.
Qed.

Lemma size_pyset (x : list K) : size (pyset x) = length (remove_dups x).
Proof.
  rewrite <- pyset_remove_dups. unfold pyset.
  apply size_list_to_set, NoDup_remove_dups.
Qed.

(** C9: every entry of the matrix returned by [build_jaccard] lies in
    [[0,1]]; the diagonal entry [J[i][i]] is [1] when set [i] is non-empty
    and [0] when it is empty, and no input raises an error. *)
Theorem build_jaccard_unit_interval key_codes :
  let J := build_jaccard key_codes in
  shape (length key_codes) (length key_codes) J ∧
  (∀ i j v, mget J i j = Some v → (0 <= v <= 1)%Q) ∧
  (∀ i x, key_codes !! i = Some x →
     ∃ v, mget J i i = Some v ∧
          (pyset x ≠ ∅ → (v == 1)%Q) ∧ (pyset x = ∅ → v = 0%Q)).
Proof.
  intros J. split; [apply shape_build_jaccard|]. split.
  - intros i j v. unfold J. rewrite build_jaccard_cell.
    destruct (key_codes !! i) as [x|]; [|done].
    destruct (key_codes !! j) as [y|]; [|done].
    intros [= <-]. apply jaccard_index_range.
  - intros i x Hx. exists (jaccard_index x x). unfold J.
    rewrite build_jaccard_cell, Hx. split; [done|]. apply jaccard_index_diag.
Qed.

(** C10: [build_n_coactives_array] and [build_jaccard] are insensitive to
    duplicate identifiers within a region's list: replacing any region's
    list (or all of them) by its deduplicated version yields the identical
    matrix, and the co-activation diagonal entry [C[i][i]] is the number of
    distinct identifiers of region [i], not the length of its list. *)
Theorem builders_ignore_duplicates key_codes i :
  build_n_coactives_array (alter remove_dups i key_codes) = build_n_coactives_array key_codes ∧
  build_jaccard (alter remove_dups i key_codes) = build_jaccard key_codes ∧
  build_n_coactives_array (remove_dups <$> key_codes) = build_n_coactives_array key_codes ∧
  build_jaccard (remove_dups <$> key_codes) = build_jaccard key_codes ∧
  (∀ x, key_codes !! i = Some x →
     mget (build_n_coactives_array key_codes) i i = Some (Z.of_nat (length (remove_dups x)))).
Proof.
  assert (Forall2 (fun x x' => pyset x = pyset x') (alter remove_dups i key_codes) key_codes)
    as Halter.
  { apply Forall2_same_length_lookup_2; [by rewrite length_alter|].
    intros k x x' Hx Hx'. destruct (decide (i = k)) as [->|Hne].
    - rewrite list_lookup_alter_eq, Hx' in Hx. simpl in Hx. injection Hx as <-.
      apply pyset_remove_dups.
    - rewrite list_lookup_alter_ne in Hx by done. congruence. }
  assert (Forall2 (fun x x' => pyset x = pyset x') (remove_dups <$> key_codes) key_codes)
    as Hfmap.
  { apply Forall2_fmap_l, Forall_Forall2_diag, Forall_forall.
    intros x _. apply pyset_remove_dups. }
  destruct (builders_same_sets _ _ Halter) as [HC HJ].
  destruct (builders_same_sets _ _ Hfmap) as [HC' HJ'].
  repeat split; try done.
  intros x Hx. rewrite build_n_coactives_array_cell, Hx.
  unfold coactivations. replace (pyset x ∩ pyset x) with (pyset x) by set_solver.
  by rewrite size_pyset.
Qed.

End MatrixBuilderProofs.

Section MatrixBuilderExamples.
Import MatrixBuilder Examples.

Example build_n_coactives_array_three_regions :
  build_n_coactives_array three_regions = [[3; 2; 0]; [2; 3; 0]; [0; 0; 1]]%Z.
Proof. by vm_compute. Qed.

Example build_jaccard_three_regions :
  map (map Qred) (build_jaccard three_regions)
  = [[1; 1 # 2; 0]; [1 # 2; 1; 0]; [0; 0; 1]]%Q.
Proof. by vm_compute. Qed.

Example build_n_coactives_array_nested_regions :
  build_n_coactives_array nested_regions = nested_coactives.
Proof. by vm_compute. Qed.

Lemma build_jaccard_unit_interval_witness :
  three_regions !! 0 = Some [1; 2; 3]%Z ∧
  ∃ v, mget (build_jaccard three_regions) 0 0 = Some v ∧
       (pyset [1; 2; 3]%Z ≠ ∅ → (v == 1)%Q) ∧ (pyset [1; 2; 3]%Z = ∅ → v = 0%Q).
Proof.
  split; [reflexivity|].
  exact (proj2 (proj2 (build_jaccard_unit_interval three_regions)) 0 [1; 2; 3]%Z eq_refl).
Defined.

Lemma builders_ignore_duplicates_witness :
  repeated_study !! 0 = Some [1; 1; 2]%Z ∧
  mget (build_n_coactives_array repeated_study) 0 0
  = Some (Z.of_nat (length (remove_dups [1; 1; 2]%Z))).
Proof.
  split; [reflexivity|].
  exact (proj2 (proj2 (proj2 (proj2 (builders_ignore_duplicates repeated_study 0))))
           [1; 1; 2]%Z eq_refl).
Defined.

End MatrixBuilderExamples.

(** ** Rounding *)

Section Rounding.
Import Thresholder.

Lemma round64_Qeq (p q : Q) : (p == q)%Q → round64 p = round64 q.
Proof. intros Heq. unfold round64. by rewrite (Qred_complete p q Heq). Qed.

Lemma round64_zero (q : Q) : (q == 0)%Q → round64 q = Fin 0%Q.
Proof. intros Heq. by rewrite (round64_Qeq q 0 Heq). Qed.

Lemma int_of_float_Qeq (p q : Q) : (p == q)%Q → int_of_float p = int_of_float q.
Proof.
  destruct p as [a b], q as [c d]. unfold Qeq, int_of_float. simpl. intros Heq.
  rewrite <- (Z.quot_mul_cancel_r a (Z.pos b) (Z.pos d)) by lia.
  rewrite Heq, (Z.mul_comm (Z.pos b)). apply Z.quot_mul_cancel_r; lia.
Qed.

Lemma round_half_even_nonneg (q : Q) : (0 <= q)%Q → (0 ≤ round_half_even q)%Z.
Proof.
  intros Hq. unfold round_half_even.
  assert (0 ≤ Qfloor q)%Z as Hf by (change 0%Z with (Qfloor 0); by apply Qfloor_resp_le).
  destruct (q - inject_Z (Qfloor q) ?= 1 # 2)%Q; [destruct (Z.even _)| |]; lia.
Qed.

Lemma round_pos_nonneg (q r : Q) : (0 <= q)%Q → round_pos q = Fin r → (0 <= r)%Q.
Proof.
  intros Hq. unfold round_pos.
  set (ulp := (2 ^ (Z.max (exponent q) (-1022) - 52))%Q).
  assert (0 < ulp)%Q as Hulp by (by apply Qpower_0_lt).
  destruct (Qle_bool _ _); [done|]. intros [= <-]. rewrite Qred_correct.
  apply Qmult_le_0_compat; [|by apply Qlt_le_weak].
  change 0%Q with (inject_Z 0). rewrite <- Zle_Qle. apply round_half_even_nonneg.
  apply Qle_shift_div_l; [done|]. by rewrite Qmult_0_l.
Qed.

(** Rounding keeps the sign. *)
Lemma round64_nonneg (q r : Q) : (0 <= q)%Q → round64 q = Fin r → (0 <= r)%Q.
Proof.
  intros Hq. unfold round64.
  assert (0 <= Qred q)%Q as Hred by by rewrite Qred_correct.
  destruct (Qred q) as [num den]. simpl. destruct num as [|num|num].
  - by intros [= <-].
  - by apply round_pos_nonneg.
  - unfold Qle in Hred. simpl in Hred. lia.
Qed.

Lemma rounded_nonneg (a b q r : Q) : (0 <= q)%Q → rounded a b q = Fin r → (0 <= r)%Q.
Proof.
  intros Hq. unfold rounded. destruct (_ && _).
  - by apply round64_nonneg.
  - by intros [= <-].
Qed.

(** A multiplication by 1 or by 0 is exact. *)
Lemma py_int_times_one (c : Z) : py_int (fmul64 (of_Z c) (Fin 1%Q)) = Ok c.
Proof.
  assert (int_of_float (inject_Z c * 1) = c) as Hexact.
  { unfold int_of_float. simpl. rewrite Z.mul_1_r. apply Z.quot_1_r. }
  unfold fmul64, of_Z, rounded.
  destruct (representable (inject_Z c) && representable 1) eqn:Hrep;
    [|cbn [py_int]; by rewrite Hexact].
  apply andb_true_iff in Hrep as [Hc _]. unfold representable in Hc.
  destruct (round64 (inject_Z c)) as [| | |r] eqn:Hround; try done.
  apply Qeq_bool_iff in Hc.
  rewrite (round64_Qeq (inject_Z c * 1) (inject_Z c)) by apply Qmult_1_r.
  rewrite Hround. cbn [py_int]. f_equal. rewrite (int_of_float_Qeq r (inject_Z c)) by done.
  unfold int_of_float. simpl. apply Z.quot_1_r.
Qed.

Lemma py_int_times_zero (c : Z) : py_int (fmul64 (of_Z c) (Fin 0%Q)) = Ok 0%Z.
Proof.
  assert (int_of_float (inject_Z c * 0) = 0%Z) as Hexact.
  { unfold int_of_float. simpl. rewrite Z.mul_0_r. apply Z.quot_0_l. lia. }
  unfold fmul64, of_Z, rounded. destruct (_ && _); [|cbn [py_int]; by rewrite Hexact].
  by rewrite round64_zero by apply Qmult_0_r.
Qed.

End Rounding.

(** ** Graph thresholder *)

Section SortedWeights.
Import Thresholder.

Lemma flt_spec (a b : Q) : flt a b = true ↔ (a < b)%Q.
Proof.
  unfold flt. rewrite negb_true_iff. split.
  - intros Hf. apply Qnot_le_lt. intros Hle. apply Qle_bool_iff in Hle. congruence.
  - intros Hlt. destruct (Qle_bool b a) eqn:Hle; [|done].
    apply Qle_bool_iff in Hle. by apply Qlt_not_le in Hlt.
Qed.

Lemma flt_false (a b : Q) : flt a b = false ↔ (b <= a)%Q.
Proof. unfold flt. by rewrite negb_false_iff, Qle_bool_iff. Qed.

Lemma insert_desc_perm w l : insert_desc w l ≡ₚ w :: l.
Proof.
  induction l as [|v l IH]; simpl; [done|].
  destruct (flt v w); [done|]. rewrite IH. apply Permutation_swap.
Qed.

Lemma sorted_desc_perm weights : sorted_desc weights ≡ₚ weights.
Proof.
  induction weights as [|w l IH]; simpl; [done|].
  rewrite insert_desc_perm. by constructor.
Qed.

Lemma length_sorted_desc weights : length (sorted_desc weights) = length weights.
Proof. apply Permutation_length, sorted_desc_perm. Qed.

Lemma insert_desc_sorted w l :
  StronglySorted (fun a b => (b <= a)%Q) l →
  StronglySorted (fun a b => (b <= a)%Q) (insert_desc w l).
Proof.
  induction 1 as [|v l Hl IH Hv]; simpl.
  - repeat constructor.
  - destruct (flt v w) eqn:Hvw.
    + apply flt_spec in Hvw. constructor; [by constructor|].
      constructor; [by apply Qlt_le_weak|].
      eapply Forall_impl; [exact Hv|]. intros u Hu. simpl in Hu.
      eapply Qle_trans; [exact Hu|]. by apply Qlt_le_weak.
    + apply flt_false in Hvw. constructor; [done|].
      rewrite insert_desc_perm. by constructor.
Qed.

(** [sorted(weights, reverse=1)] is the weights in descending order. *)
Lemma sorted_desc_sorted weights :
  StronglySorted (fun a b => (b <= a)%Q) (sorted_desc weights).
Proof.
  induction weights as [|w l IH]; simpl; [constructor|].
  by apply insert_desc_sorted.
Qed.

Lemma int_of_float_floor (f : Q) : (0 <= f)%Q → int_of_float f = Qfloor f.
Proof.
  destruct f as [num den]. unfold Qle, int_of_float, Qfloor. simpl. intros Hnum.
  apply Z.quot_div_nonneg; lia.
Qed.

Lemma length_combinations2 n : 2 * length (combinations2 n) = n * (n - 1).
Proof.
  unfold combinations2.
  enough (∀ m a, a + m = n →
    2 * length (flat_map (fun i => map (fun j => (i, j)) (seq (S i) (n - S i))) (seq a m))
    = m * (m - 1)) as Hgen by (apply (Hgen n 0); lia).
  induction m as [|m IH]; intros a Ham; simpl; [done|].
  rewrite length_app, length_map, length_seq.
  specialize (IH (S a)). nia.
Qed.

(** [nx.complete_graph(n)] has [C(n,2) = n(n-1)/2] edges. *)
Lemma number_of_edges_complete_graph n :
  number_of_edges (complete_graph n) = n * (n - 1) / 2.
Proof.
  unfold number_of_edges, complete_graph. cbn [edges]. rewrite length_map.
  pose proof (length_combinations2 n) as Hlen.
  apply (Nat.div_unique_exact _ 2); lia.
Qed.

End SortedWeights.

Lemma for_each_fmap {A B St} (h : A → B) (body : St → B → result St) l s :
  for_each body (h <$> l) s = for_each (fun s x => body s (h x)) l s.
Proof.
  revert s. induction l as [|x l IH]; intros s; simpl; [done|].
  destruct (body s (h x)); simpl; [apply IH | done].
Qed.

(** A list comprehension with a filter: [[h x w for x in l if c w]], where
    [w] is read by [f x]. *)
Lemma for_each_comprehension {A B C} (f : A → result B) (g : A → B) (c : B → bool)
    (h : A → B → C) l acc :
  (∀ x, x ∈ l → f x = Ok (g x)) →
  for_each (fun acc x => w ← f x; Ok (if c w then acc ++ [h x w] else acc)) l acc =
  Ok (acc ++ ((fun x => h x (g x)) <$> filter (fun x => c (g x) = true) l)).
Proof.
  revert acc. induction l as [|x l IH]; intros acc Hf.
  - simpl. by rewrite app_nil_r.
  - cbn [for_each]. rewrite (Hf x) by left. cbn [mbind result_bind].
    rewrite IH by (intros; apply Hf; by right).
    rewrite filter_cons. destruct (c (g x)).
    + rewrite decide_True by done. by rewrite fmap_cons, <- app_assoc.
    + by rewrite decide_False by done.
Qed.

Lemma filter_iff_elem_of {A} (P1 P2 : A → Prop)
    `{!∀ x, Decision (P1 x), !∀ x, Decision (P2 x)} (l : list A) :
  (∀ x, x ∈ l → P1 x ↔ P2 x) → filter P1 l = filter P2 l.
Proof.
  induction l as [|a l IH]; intros Hiff; [done|].
  rewrite !filter_cons, IH by (intros; apply Hiff; by right).
  apply decide_ext, Hiff. by left.
Qed.

Lemma filter_all {A} (P : A → Prop) `{!∀ x, Decision (P x)} (l : list A) :
  (∀ x, x ∈ l → P x) → filter P l = l.
Proof.
  induction l as [|x l IH]; intros HP; [done|].
  rewrite filter_cons_True by (apply HP; left). f_equal. apply IH. intros; apply HP; by right.
Qed.

Section ThresholderProofs.
Import Thresholder.
Context {V : Type} `{EqDecision V}.
Implicit Type G : Graph V Q.

Lemma joins_self {W} (e : V * V * W) : joins e.1.1 e.1.2 e = true.
Proof. unfold joins. by rewrite bool_decide_eq_true_2. Qed.

(** In a well-formed graph the record found for an edge is that edge. *)
Lemma edge_attr_own G e :
  well_formed G → e ∈ edges G → edge_attr G e.1.1 e.1.2 = Ok e.2.
Proof.
  intros (_ & _ & Huniq) He. unfold edge_attr.
  destruct (filter _ (edges G)) as [|e' l] eqn:Hf.
  - exfalso. eapply filter_nil_not_elem_of; [exact Hf | apply joins_self | exact He].
  - assert (e' ∈ filter (fun e0 => joins e.1.1 e.1.2 e0 = true) (edges G)) as He'
      by (rewrite Hf; left).
    apply list_elem_of_filter in He' as [Hj He'].
    apply list_elem_of_lookup in He as [i Hi].
    apply list_elem_of_lookup in He' as [j Hj'].
    pose proof (Huniq i j e e' Hi Hj' Hj) as ->. congruence.
Qed.

Lemma edge_weights_ok G :
  well_formed G → edge_weights G = Ok ((edges G).*2).
Proof.
  intros HG. unfold edge_weights, edges_iter. rewrite for_each_fmap.
  pose proof (for_each_comprehension (fun e : V * V * Q => edge_attr G e.1.1 e.1.2)
                snd (fun _ => true) (fun _ w => w) (edges G) []) as Hc.
  simpl in Hc. rewrite Hc by (intros; by apply edge_attr_own).
  f_equal. f_equal. clear. induction (edges G) as [|e l IH]; [done|].
  by rewrite filter_cons_True, IH.
Qed.

Lemma edges_below_ok G thresh :
  well_formed G →
  edges_below G thresh = Ok ((filter (fun e => flt e.2 thresh = true) (edges G)).*1).
Proof.
  intros HG. unfold edges_below, edges_iter. rewrite for_each_fmap.
  pose proof (for_each_comprehension (fun e : V * V * Q => edge_attr G e.1.1 e.1.2)
                snd (fun w => flt w thresh) (fun e _ => e.1) (edges G) []) as Hc.
  simpl in Hc. by rewrite Hc by (intros; by apply edge_attr_own).
Qed.

Lemma remove_edges_from_spec G ebunch :
  nodes (remove_edges_from G ebunch) = nodes G ∧
  edges (remove_edges_from G ebunch) =
    filter (fun e' => Forall (fun e => joins e.1 e.2 e' = false) ebunch) (edges G).
Proof.
  unfold remove_edges_from. revert G.
  induction ebunch as [|e eb IH]; intros G; simpl.
  - split; [done|]. symmetry. clear. induction (edges G) as [|e l IH]; [done|].
    by rewrite filter_cons_True, IH.
  - destruct (IH (mkGraph (nodes G)
                   (filter (fun e' => joins e.1 e.2 e' = false) (edges G)))) as [Hn He].
    split; [exact Hn|]. rewrite He. simpl. rewrite list_filter_filter.
    apply list_filter_iff. intros e'. rewrite Forall_cons. tauto.
Qed.

(** Removing the edges below the threshold leaves the others as they are. *)
Lemma remove_edges_below G thresh :
  well_formed G →
  remove_edges_from G ((filter (fun e => flt e.2 thresh = true) (edges G)).*1) =
  mkGraph (nodes G) (filter (fun e => flt e.2 thresh = false) (edges G)).
Proof.
  intros (_ & _ & Huniq).
  destruct (remove_edges_from_spec G
              ((filter (fun e => flt e.2 thresh = true) (edges G)).*1)) as [Hn He].
  destruct (remove_edges_from G _) as [ns es]. simpl in *. subst ns. f_equal.
  rewrite He. apply filter_iff_elem_of. intros e' He'. rewrite Forall_fmap, Forall_forall.
  split.
  - intros Hall. destruct (flt e'.2 thresh) eqn:Hw; [|done].
    assert (e' ∈ filter (fun e => flt e.2 thresh = true) (edges G)) as Hin
      by by apply list_elem_of_filter.
    specialize (Hall e' Hin). simpl in Hall. by rewrite joins_self in Hall.
  - intros Hw e Hin. apply list_elem_of_filter in Hin as [Hlow Hin]. simpl.
    destruct (joins e.1.1 e.1.2 e') eqn:Hj; [|done].
    apply list_elem_of_lookup in Hin as [i Hi].
    apply list_elem_of_lookup in He' as [j Hj'].
    pose proof (Huniq i j e e' Hi Hj' Hj) as ->. congruence.
Qed.

(** On a well-formed graph the steps of [applycost_to_g] that can raise are
    the conversion of the product and the selection of the threshold. *)
Lemma applycost_to_g_unfold G cost :
  well_formed G →
  applycost_to_g G cost =
  (let N := number_of_nodes G in
   n_edges_keep ← py_int (fmul64 (of_Z (Z.of_nat (N * (N - 1) / 2))) (Fin cost));
   thresh ← getitem (sorted_desc (edges G).*2) (n_edges_keep + 1);
   Ok (mkGraph (nodes G) (filter (fun e => flt e.2 thresh = false) (edges G)))).
Proof.
  intros HG. unfold applycost_to_g.
  rewrite number_of_edges_complete_graph. cbv zeta.
  destruct (py_int _) as [n_edges_keep|err]; cbn [mbind result_bind]; [|done].
  rewrite edge_weights_ok by done. cbn [mbind result_bind].
  destruct (getitem _ _) as [thresh|err]; cbn [mbind result_bind]; [|done].
  rewrite edges_below_ok by done. cbn [mbind result_bind]. by rewrite remove_edges_below.
Qed.

Lemma getitem_in_bounds {A} (l : list A) (i : Z) :
  (0 ≤ i < Z.of_nat (length l))%Z →
  ∃ x, l !! Z.to_nat i = Some x ∧ getitem l i = Ok x.
Proof.
  intros Hi. unfold getitem, index.
  destruct (Z.leb_spec 0 i); [|lia].
  destruct (lookup_lt_is_Some_2 l (Z.to_nat i)) as [x Hx]; [lia|].
  exists x. by rewrite Hx.
Qed.

Lemma getitem_out_of_bounds {A} (l : list A) (i : Z) :
  (Z.of_nat (length l) ≤ i)%Z → getitem l i = Raise IndexError.
Proof.
  intros Hi. unfold getitem, index.
  destruct (Z.leb_spec 0 i); [|lia].
  by rewrite (proj2 (lookup_ge_None l (Z.to_nat i))) by lia.
Qed.

(** C6: for a cost in [[0,1]] whose selection index is in bounds,
    [applycost_to_g] computes [n_edges_keep = floor(cost * C(N,2))], the
    product being the binary64 product of the code, takes as threshold [t]
    the element at index [n_edges_keep + 1] of the edge weights sorted in
    descending order, removes exactly the edges whose weight is strictly
    below [t], and leaves the surviving edges with their weights (and the
    nodes) as they were. *)
Theorem applycost_to_g_threshold G cost product :
  well_formed G →
  (0 <= cost <= 1)%Q →
  let N := number_of_nodes G in
  fmul64 (of_Z (Z.of_nat (N * (N - 1) / 2))) (Fin cost) = Fin product →
  let n_edges_keep := Qfloor product in
  let sorted_weights := sorted_desc (edges G).*2 in
  (n_edges_keep + 1 < Z.of_nat (number_of_edges G))%Z →
  sorted_weights ≡ₚ (edges G).*2 ∧
  StronglySorted (fun a b => (b <= a)%Q) sorted_weights ∧
  ∃ t G_cost,
    sorted_weights !! Z.to_nat (n_edges_keep + 1) = Some t ∧
    applycost_to_g G cost = Ok G_cost ∧
    nodes G_cost = nodes G ∧
    edges G_cost = filter (fun e => flt e.2 t = false) (edges G) ∧
    (∀ e, e ∈ edges G_cost ↔ e ∈ edges G ∧ ¬ (e.2 < t)%Q).
Proof.
  intros HG [Hcost _] N Hproduct n_edges_keep sorted_weights Hidx.
  split; [apply sorted_desc_perm|]. split; [apply sorted_desc_sorted|].
  assert (0 <= product)%Q as Hnonneg.
  { apply (rounded_nonneg (inject_Z (Z.of_nat (N * (N - 1) / 2))) cost
             (inject_Z (Z.of_nat (N * (N - 1) / 2)) * cost)); [|exact Hproduct].
    apply Qmult_le_0_compat; [|done].
    change 0%Q with (inject_Z 0). rewrite <- Zle_Qle. lia. }
  assert (int_of_float product = n_edges_keep) as Hkeep by by apply int_of_float_floor.
  assert (0 ≤ n_edges_keep)%Z as Hk0.
  { unfold n_edges_keep. change 0%Z with (Qfloor 0). by apply Qfloor_resp_le. }
  destruct (getitem_in_bounds sorted_weights (n_edges_keep + 1)) as (t & Ht & Hget).
  { unfold sorted_weights. rewrite length_sorted_desc, length_fmap.
    unfold number_of_edges in Hidx. lia. }
  exists t, (mkGraph (nodes G) (filter (fun e => flt e.2 t = false) (edges G))).
  split; [done|]. split.
  - rewrite applycost_to_g_unfold by done. cbv zeta. fold N. rewrite Hproduct.
    cbn [py_int mbind result_bind]. rewrite Hkeep. fold sorted_weights. by rewrite Hget.
  - split; [done|]. split; [done|]. simpl. intros e.
    rewrite list_elem_of_filter, flt_false. split.
    + intros [Hle He]. split; [done|]. by apply Qle_not_lt.
    + intros [He Hnlt]. split; [|done]. by apply Qnot_lt_le.
Qed.

(** C7 (amended): when the requested edge-keep count exceeds the number of
    available edge weights, the threshold selection is out of range and
    [applycost_to_g] fails with an [IndexError]; no graph is returned and
    nothing is recovered. *)
Theorem applycost_to_g_index_error G cost n_edges_keep :
  well_formed G →
  let N := number_of_nodes G in
  py_int (fmul64 (of_Z (Z.of_nat (N * (N - 1) / 2))) (Fin cost)) = Ok n_edges_keep →
  (Z.of_nat (number_of_edges G) < n_edges_keep)%Z →
  applycost_to_g G cost = Raise IndexError.
Proof.
  intros HG N Hproduct Hkeep.
  rewrite applycost_to_g_unfold by done. cbv zeta. fold N. rewrite Hproduct.
  cbn [mbind result_bind]. rewrite getitem_out_of_bounds; [done|].
  rewrite length_sorted_desc, length_fmap. unfold number_of_edges in Hkeep. lia.
Qed.

(** Two edge records of a well-formed graph that join the same nodes are
    one record. *)
Lemma joins_unique G e e' :
  well_formed G → e ∈ edges G → e' ∈ edges G → joins e.1.1 e.1.2 e' = true → e' = e.
Proof.
  intros (_ & _ & Huniq) He He' Hj.
  apply list_elem_of_lookup in He as [i Hi].
  apply list_elem_of_lookup in He' as [j Hj'].
  pose proof (Huniq i j e e' Hi Hj' Hj) as ->. congruence.
Qed.

Lemma NoDup_edges G : well_formed G → NoDup (edges G).
Proof.
  intros (_ & _ & Huniq). apply NoDup_alt. intros i j e Hi Hj.
  apply (Huniq i j e e Hi Hj), joins_self.
Qed.

(** Removing the edge [e] from a part of the graph's edges that holds it
    once removes that record and nothing else. *)
Lemma filter_not_joins G e l1 l2 :
  well_formed G → e ∈ edges G → (∀ e', e' ∈ l1 ++ l2 → e' ∈ edges G ∧ e' ≠ e) →
  filter (fun e' => joins e.1.1 e.1.2 e' = false) (l1 ++ e :: l2) = l1 ++ l2.
Proof.
  intros HG He Hl. rewrite filter_app, filter_cons_False by (by rewrite joins_self).
  rewrite <- filter_app. apply filter_all. intros e' He'.
  destruct (Hl e' He') as [Hin Hne].
  destruct (joins e.1.1 e.1.2 e') eqn:Hj; [|done].
  destruct Hne. by apply (joins_unique G).
Qed.

Lemma edge_attr_in_part G e l1 l2 :
  well_formed G → e ∈ edges G → (∀ e', e' ∈ l1 ++ l2 → e' ∈ edges G) →
  edge_attr (mkGraph (nodes G) (l1 ++ e :: l2)) e.1.1 e.1.2 = Ok e.2.
Proof.
  intros HG He Hl. unfold edge_attr. cbn [edges].
  destruct (filter _ (l1 ++ e :: l2)) as [|e' l] eqn:Hf.
  - exfalso. eapply filter_nil_not_elem_of; [exact Hf | apply joins_self |].
    apply elem_of_app. right. left.
  - assert (e' ∈ filter (fun e0 => joins e.1.1 e.1.2 e0 = true) (l1 ++ e :: l2)) as He'
      by (rewrite Hf; left).
    apply list_elem_of_filter in He' as [Hj He'].
    assert (e' ∈ edges G) as Hin.
    { apply elem_of_app in He' as [?|He']; [apply Hl, elem_of_app; by left|].
      apply elem_of_cons in He' as [->|?]; [done|]. apply Hl, elem_of_app; by right. }
    by rewrite (joins_unique G e e').
Qed.

(** The first loop of [remove_edges_by_weight]: the edges below the floor
    go, the others stay as they are. *)
Lemma prune_edges_loop G max_weight l1 l2 :
  well_formed G → edges G = l1 ++ l2 →
  for_each (fun G_removed e =>
              w ← edge_attr G_removed e.1 e.2;
              if flt w max_weight then remove_edge G_removed e.1 e.2
              else Ok G_removed) l2.*1
           (mkGraph (nodes G) (filter (fun e => flt e.2 max_weight = false) l1 ++ l2))
  = Ok (mkGraph (nodes G) (filter (fun e => flt e.2 max_weight = false) (edges G))).
Proof.
  intros HG. revert l1. induction l2 as [|e l2 IH]; intros l1 Hedges.
  - simpl. by rewrite Hedges, !app_nil_r.
  - pose proof (NoDup_edges G HG) as Hnodup. rewrite Hedges in Hnodup.
    apply NoDup_app in Hnodup as (Hl1 & Hdisj & Hl2). apply NoDup_cons in Hl2 as [He2 Hl2].
    assert (e ∈ edges G) as He by (rewrite Hedges, elem_of_app; right; left).
    assert (∀ e', e' ∈ filter (fun e => flt e.2 max_weight = false) l1 ++ l2 →
                  e' ∈ edges G ∧ e' ≠ e) as Hpart.
    { intros e' He'. rewrite Hedges. apply elem_of_app in He' as [He'|He'].
      - apply list_elem_of_filter in He' as [_ He']. split; [apply elem_of_app; by left|].
        intros ->. apply (Hdisj e He'). left.
      - split; [apply elem_of_app; right; by right|]. by intros ->. }
    rewrite fmap_cons. cbn [for_each].
    rewrite (edge_attr_in_part G e) by (done || apply Hpart). cbn [mbind result_bind].
    specialize (IH (l1 ++ [e])). rewrite <- app_assoc in IH. specialize (IH Hedges).
    rewrite filter_app, filter_cons, filter_nil in IH.
    destruct (flt e.2 max_weight) eqn:Hw.
    + unfold remove_edge. cbn [nodes edges].
      destruct (filter (fun e0 => joins e.1.1 e.1.2 e0 = true) _) as [|e0 l0] eqn:Hf.
      { exfalso. eapply filter_nil_not_elem_of; [exact Hf | apply joins_self |].
        apply elem_of_app. right. left. }
      cbn [mbind result_bind]. rewrite (filter_not_joins G) by done.
      rewrite decide_False in IH by done. by rewrite app_nil_r in IH.
    + cbn [mbind result_bind]. rewrite decide_True in IH by done.
      by rewrite <- app_assoc in IH.
Qed.

(** The second loop: it walks the degrees of the graph [G] it was given, and
    drops from the pruned graph every node whose degree in [G] is below 2,
    with the edges at that node. *)
Lemma prune_nodes_loop G (E : list (V * V * Q)) l1 l2 :
  NoDup (nodes G) → nodes G = l1 ++ l2 →
  for_each (fun G_removed xy =>
              if (xy.2 <? 2)%nat then remove_node G_removed xy.1
              else Ok G_removed) ((fun x => (x, degree G x)) <$> l2)
           (mkGraph (filter (fun x => 2 ≤ degree G x) l1 ++ l2)
              (filter (fun e => Forall (fun x => 2 ≤ degree G x ∨ (e.1.1 ≠ x ∧ e.1.2 ≠ x)) l1) E))
  = Ok (mkGraph (filter (fun x => 2 ≤ degree G x) (nodes G))
          (filter (fun e => Forall (fun x => 2 ≤ degree G x ∨ (e.1.1 ≠ x ∧ e.1.2 ≠ x))
                               (nodes G)) E)).
Proof.
  intros Hnodup. revert l1. induction l2 as [|x l2 IH]; intros l1 Hnodes.
  - simpl. by rewrite Hnodes, !app_nil_r.
  - rewrite Hnodes in Hnodup.
    apply NoDup_app in Hnodup as (Hl1 & Hdisj & Hl2). apply NoDup_cons in Hl2 as [Hx Hl2].
    rewrite fmap_cons. cbn [for_each fst snd].
    specialize (IH (l1 ++ [x])). rewrite <- app_assoc in IH. specialize (IH Hnodes).
    rewrite filter_app, filter_cons, filter_nil in IH.
    destruct (Nat.ltb_spec (degree G x) 2) as [Hlow|Hhigh].
    + unfold remove_node, has_node. cbn [nodes edges].
      rewrite bool_decide_eq_true_2 by (apply elem_of_app; right; left).
      cbn [mbind result_bind].
      rewrite decide_False, app_nil_r in IH by lia. rewrite <- IH. f_equal. f_equal.
      * rewrite filter_app, filter_cons_False by (by intros []).
        rewrite <- filter_app. apply filter_all. intros y Hy ->.
        apply elem_of_app in Hy as [Hy|Hy]; [|done].
        apply list_elem_of_filter in Hy as [_ Hy]. apply (Hdisj x Hy). left.
      * rewrite list_filter_filter. apply list_filter_iff. intros e.
        rewrite Forall_app, Forall_singleton. split.
        -- intros [Hne Hall]. split; [done | by right].
        -- intros [Hall [?|Hne]]; [lia | done].
    + cbn [mbind result_bind]. rewrite decide_True in IH by lia.
      rewrite <- app_assoc in IH. rewrite <- IH. f_equal. f_equal.
      apply list_filter_iff. intros e. rewrite Forall_app, Forall_singleton. split.
      * intros Hall. split; [done | by left].
      * by intros [Hall _].
Qed.

(** What [remove_edges_by_weight] returns on a well-formed graph: the nodes
    whose degree in the input graph is at least 2, and the edges of weight at
    least [max_weight] between them. *)
Lemma remove_edges_by_weight_spec G max_weight :
  well_formed G →
  remove_edges_by_weight G max_weight =
  Ok (mkGraph (filter (fun x => 2 ≤ degree G x) (nodes G))
        (filter (fun e => Forall (fun x => 2 ≤ degree G x ∨ (e.1.1 ≠ x ∧ e.1.2 ≠ x))
                             (nodes G))
                (filter (fun e => flt e.2 max_weight = false) (edges G)))).
Proof.
  intros HG. unfold remove_edges_by_weight, edges_iter, degree_iter.
  pose proof (prune_edges_loop G max_weight [] (edges G) HG eq_refl) as Hedges.
  simpl in Hedges. destruct G as [ns es]. cbn [nodes edges] in *. cbv zeta.
  change (map fst es) with (fst <$> es).
  change (map (fun x => (x, degree (mkGraph ns es) x)) ns)
    with ((fun x => (x, degree (mkGraph ns es) x)) <$> ns).
  rewrite Hedges. cbn [mbind result_bind].
  pose proof (prune_nodes_loop (mkGraph ns es)
                (filter (fun e => flt e.2 max_weight = false) es) [] ns
                (proj1 HG) eq_refl) as Hnodes.
  cbn [nodes edges] in Hnodes. rewrite filter_nil, app_nil_l in Hnodes.
  rewrite (filter_all (fun e => Forall _ [])) in Hnodes by (intros; constructor).
  by rewrite Hnodes.
Qed.

(** A graph without self-loops on [n] nodes has at most [n(n-1)/2] edges. *)
Lemma simple_edges_bound (ns : list V) (es : list (V * V * Q)) :
  NoDup ns → NoDup es →
  (∀ e, e ∈ es → e.1.1 ∈ ns ∧ e.1.2 ∈ ns ∧ e.1.1 ≠ e.1.2) →
  (∀ e e', e ∈ es → e' ∈ es → joins e.1.1 e.1.2 e' = true → e' = e) →
  2 * length es ≤ length ns * (length ns - 1).
Proof.
  revert es. induction ns as [|x ns IH]; intros es Hns Hes Hends Huniq.
  { destruct es as [|e es]; [done|]. destruct (Hends e) as [Hin _]; [left|].
    by apply elem_of_nil in Hin. }
  apply NoDup_cons in Hns as [Hx Hns].
  set (at_x := fun e : V * V * Q => e.1.1 = x ∨ e.1.2 = x).
  pose proof (filter_app_complement at_x es) as Hsplit.
  apply Permutation_length in Hsplit. rewrite length_app in Hsplit.
  (* the edges away from [x] are edges between the other nodes *)
  assert (2 * length (filter (fun e => ¬ at_x e) es) ≤ length ns * (length ns - 1)) as Hrest.
  { apply IH; [done | by apply NoDup_filter | |].
    - intros e He. apply list_elem_of_filter in He as [Hne He].
      destruct (Hends e He) as (H1 & H2 & H12). unfold at_x in Hne.
      apply elem_of_cons in H1 as [?|?]; [tauto|].
      apply elem_of_cons in H2 as [?|?]; [tauto|]. done.
    - intros e e' He He'. apply list_elem_of_filter in He as [_ He].
      apply list_elem_of_filter in He' as [_ He']. by apply Huniq. }
  (* the edges at [x] lead to different nodes among the others *)
  assert (length (filter at_x es) ≤ length ns) as Hat.
  { set (other := fun e : V * V * Q => if decide (e.1.1 = x) then e.1.2 else e.1.1).
    rewrite <- (length_fmap other). apply submseteq_length, NoDup_submseteq.
    - apply NoDup_fmap_2_strong; [|by apply NoDup_filter].
      intros e e' He He' Hother.
      apply list_elem_of_filter in He as [Hex He].
      apply list_elem_of_filter in He' as [Hex' He'].
      symmetry. apply Huniq; [done..|]. unfold joins, other, at_x in *.
      apply orb_true_iff. rewrite !bool_decide_eq_true.
      destruct (decide (e.1.1 = x)) as [E|E], (decide (e'.1.1 = x)) as [E'|E'].
      * left. split; congruence.
      * right. destruct Hex' as [?|?]; [done|]. split; congruence.
      * right. destruct Hex as [?|?]; [done|]. split; congruence.
      * left. destruct Hex as [?|?]; [done|]. destruct Hex' as [?|?]; [done|].
        split; congruence.
    - intros y Hy. apply list_elem_of_fmap in Hy as (e & -> & He).
      apply list_elem_of_filter in He as [Hex He].
      destruct (Hends e He) as (H1 & H2 & H12). unfold other, at_x in *.
      case_decide as Hc.
      + apply elem_of_cons in H2 as [?|?]; [congruence | done].
      + apply elem_of_cons in H1 as [?|?]; [congruence | done]. }
  cbn [length]. rewrite Nat.sub_succ, Nat.sub_0_r. nia.
Qed.

(** With cost 1 the selection index is [C(N,2) + 1], past the end of the
    weights of any graph without self-loops. *)
Lemma applycost_to_g_full_cost G :
  well_formed G → (∀ e, e ∈ edges G → e.1.1 ≠ e.1.2) →
  applycost_to_g G 1 = Raise IndexError.
Proof.
  intros HG Hloops. rewrite applycost_to_g_unfold by done. cbv zeta.
  set (c := number_of_nodes G * (number_of_nodes G - 1) / 2).
  rewrite py_int_times_one. cbn [mbind result_bind].
  rewrite getitem_out_of_bounds; [done|].
  rewrite length_sorted_desc, length_fmap.
  pose proof (simple_edges_bound (nodes G) (edges G)) as Hbound.
  assert (length (edges G) ≤ c); [|lia].
  apply Nat.div_le_lower_bound; [done|]. apply Hbound.
  - apply HG.
  - by apply NoDup_edges.
  - intros e He. destruct (proj1 (proj2 HG) e He). auto.
  - intros e e' He He'. by apply (joins_unique G).
Qed.

End ThresholderProofs.

(** ** The thresholder on sample graphs *)

Section ThresholderExamples.
Import Thresholder Examples.

Ltac well_formed_by_cases :=
  split; [repeat constructor; set_solver|];
  split; [intros e He; repeat (apply elem_of_cons in He as [->|He]); set_solver|];
  intros i j e e' Hi Hj Hjoin;
  destruct i as [|[|[|i]]]; destruct j as [|[|[|j]]];
  simpl in Hi, Hj; simplify_eq; try reflexivity; vm_compute in Hjoin; discriminate.

Lemma triangle_well_formed : well_formed triangle.
Proof. well_formed_by_cases. Qed.

Lemma lopsided_triangle_well_formed : well_formed lopsided_triangle.
Proof. well_formed_by_cases. Qed.

Lemma lopsided_pruned_well_formed : well_formed lopsided_pruned.
Proof. well_formed_by_cases. Qed.

(** At the binary64 number nearest to 1/3 the product [3 * cost] rounds to
    1, where the exact product is below 1: the threshold of the triangle is
    the weight at index 2 and all three edges stay. *)
Lemma applycost_to_g_threshold_witness :
  well_formed triangle ∧ (0 <= third <= 1)%Q ∧
  fmul64 (of_Z (Z.of_nat (3 * (3 - 1) / 2))) (Fin third) = Fin 1%Q ∧
  (Qfloor 1 + 1 < Z.of_nat (number_of_edges triangle))%Z ∧
  ∃ t G_cost,
    sorted_desc (edges triangle).*2 !! 2 = Some t ∧
    applycost_to_g triangle third = Ok G_cost ∧
    nodes G_cost = nodes triangle ∧
    edges G_cost = filter (fun e => flt e.2 t = false) (edges triangle) ∧
    (∀ e, e ∈ edges G_cost ↔ e ∈ edges triangle ∧ ¬ (e.2 < t)%Q).
Proof.
  assert (0 <= third <= 1)%Q as Hcost by (split; discriminate).
  assert (fmul64 (of_Z (Z.of_nat (3 * (3 - 1) / 2))) (Fin third) = Fin 1%Q) as Hproduct
    by (vm_compute; reflexivity).
  assert (Qfloor 1 + 1 < Z.of_nat (number_of_edges triangle))%Z as Hidx
    by (vm_compute; reflexivity).
  split; [exact triangle_well_formed|]. split; [exact Hcost|]. split; [exact Hproduct|].
  split; [exact Hidx|].
  exact (proj2 (proj2 (applycost_to_g_threshold triangle third 1 triangle_well_formed Hcost
                         Hproduct Hidx))).
Defined.

Example applycost_to_g_third :
  Qfloor (3 * third) = 0%Z ∧ applycost_to_g triangle third = Ok triangle.
Proof. split; by vm_compute. Qed.

Lemma applycost_to_g_index_error_witness :
  well_formed lopsided_pruned ∧
  py_int (fmul64 (of_Z (Z.of_nat (3 * (3 - 1) / 2))) (Fin 1%Q)) = Ok 3%Z ∧
  (Z.of_nat (number_of_edges lopsided_pruned) < 3)%Z ∧
  applycost_to_g lopsided_pruned 1 = Raise IndexError.
Proof.
  assert (py_int (fmul64 (of_Z (Z.of_nat (3 * (3 - 1) / 2))) (Fin 1%Q)) = Ok 3%Z) as Hproduct
    by (vm_compute; reflexivity).
  assert (Z.of_nat (number_of_edges lopsided_pruned) < 3)%Z as Hkeep
    by (vm_compute; reflexivity).
  split; [exact lopsided_pruned_well_formed|]. split; [exact Hproduct|]. split; [exact Hkeep|].
  exact (applycost_to_g_index_error lopsided_pruned 1 3 lopsided_pruned_well_formed
           Hproduct Hkeep).
Defined.

(** C7, as stated, fails on the graph with three nodes and the single edge
    0-1 at cost 1: the requested count 3 exceeds the one available weight,
    and the call raises instead of returning the graph with its edge. *)
Lemma applycost_to_g_no_local_recovery :
  py_int (fmul64 (of_Z (Z.of_nat (3 * (3 - 1) / 2))) (Fin 1%Q)) = Ok 3%Z ∧
  (Z.of_nat (number_of_edges lopsided_pruned) < 3)%Z ∧
  ¬ ∃ G_cost, applycost_to_g lopsided_pruned 1 = Ok G_cost ∧
              edges G_cost = edges lopsided_pruned.
Proof.
  split; [by vm_compute|]. split; [by vm_compute|].
  intros (G_cost & Hret & _). vm_compute in Hret. discriminate.
Qed.

(** With cost 0 the threshold is the second largest weight, so the two
    heaviest edges always survive. *)
Lemma applycost_to_g_zero_keeps_two {V} `{EqDecision V} (G G_cost : Graph V Q) :
  well_formed G → applycost_to_g G 0 = Ok G_cost → 2 ≤ number_of_edges G_cost.
Proof.
  intros HG. rewrite applycost_to_g_unfold by done. cbv zeta.
  rewrite py_int_times_zero. cbn [mbind result_bind].
  unfold getitem, index. simpl.
  pose proof (sorted_desc_perm (edges G).*2) as Hperm.
  pose proof (sorted_desc_sorted (edges G).*2) as Hsorted.
  destruct (sorted_desc (edges G).*2) as [|s0 [|t rest]]; simpl; try done.
  intros [= <-]. unfold number_of_edges. simpl.
  assert (length (filter (fun w => flt w t = false) (edges G).*2)
          = length (filter (fun e : V * V * Q => flt e.2 t = false) (edges G))) as <-.
  { clear. induction (edges G) as [|e l IH]; [done|].
    rewrite fmap_cons, !filter_cons. simpl. destruct (decide (flt e.2 t = false)); simpl; lia. }
  rewrite <- Hperm.
  apply StronglySorted_inv in Hsorted as [_ Hs0]. apply Forall_cons in Hs0 as [Hs0 _].
  rewrite filter_cons_True by by apply flt_false.
  rewrite filter_cons_True by (apply flt_false, Qle_refl).
  simpl. lia.
Qed.

(** C3 (code bug): on the triangle with weights 3, 2, 1 a cost of 1 raises
    [IndexError] instead of returning the three edges, and a cost of 0
    returns the two heaviest edges instead of none.  Neither is particular to
    the triangle: cost 1 raises on every graph without self-loops, and with
    cost 0 no graph ever comes back without edges. *)
Theorem applycost_to_g_extreme_costs :
  applycost_to_g triangle 1 = Raise IndexError ∧
  applycost_to_g triangle 0 = Ok (mkGraph [0; 1; 2] [(0, 1, 3%Q); (0, 2, 2%Q)]) ∧
  (∀ G : Graph nat Q,
     well_formed G → (∀ e, e ∈ edges G → e.1.1 ≠ e.1.2) →
     applycost_to_g G 1 = Raise IndexError) ∧
  (∀ G G_cost : Graph nat Q,
     well_formed G → applycost_to_g G 0 = Ok G_cost → edges G_cost ≠ []).
Proof.
  split; [by vm_compute|]. split; [by vm_compute|]. split.
  - intros G HG Hloops. by apply applycost_to_g_full_cost.
  - intros G G_cost HG Hret Hnil.
    pose proof (applycost_to_g_zero_keeps_two G G_cost HG Hret) as Htwo.
    unfold number_of_edges in Htwo. rewrite Hnil in Htwo. simpl in Htwo. lia.
Qed.

Lemma applycost_to_g_extreme_costs_witness :
  well_formed triangle ∧ (∀ e, e ∈ edges triangle → e.1.1 ≠ e.1.2) ∧
  applycost_to_g triangle 1 = Raise IndexError ∧
  applycost_to_g triangle 0 = Ok (mkGraph [0; 1; 2] [(0, 1, 3%Q); (0, 2, 2%Q)]) ∧
  edges (mkGraph [0; 1; 2] [(0, 1, 3%Q); (0, 2, 2%Q)]) ≠ [].
Proof.
  assert (∀ e, e ∈ edges triangle → e.1.1 ≠ e.1.2) as Hloops.
  { intros e He. repeat (apply elem_of_cons in He as [->|He]); try discriminate.
    by apply elem_of_nil in He. }
  destruct applycost_to_g_extreme_costs as (_ & Hzero & Hfull & Hkeeps).
  split; [exact triangle_well_formed|]. split; [exact Hloops|].
  split; [exact (Hfull triangle triangle_well_formed Hloops)|].
  split; [exact Hzero|].
  exact (Hkeeps triangle _ triangle_well_formed Hzero).
Defined.

(** C4 (code bug): the nodes that [remove_edges_by_weight] keeps are those
    whose degree in the graph it was given is at least 2, whatever the
    pruning leaves of their edges.  Pruning the lopsided triangle at weight 3
    leaves the single edge 0-1, so every node has degree below 2 afterwards,
    and the function still returns all three nodes. *)
Theorem remove_edges_by_weight_reads_old_degrees :
  (∀ (G : Graph nat Q) max_weight, well_formed G →
     ∃ G_removed, remove_edges_by_weight G max_weight = Ok G_removed ∧
       ∀ x, x ∈ nodes G_removed ↔ x ∈ nodes G ∧ 2 ≤ degree G x) ∧
  remove_edges_by_weight lopsided_triangle 3 = Ok lopsided_pruned ∧
  edges lopsided_pruned = filter (fun e => flt e.2 3 = false) (edges lopsided_triangle) ∧
  Forall (fun x => degree lopsided_pruned x < 2) (nodes lopsided_pruned) ∧
  Forall (fun x => degree lopsided_triangle x = 2) (nodes lopsided_triangle).
Proof.
  split.
  - intros G max_weight HG. eexists. split; [by apply remove_edges_by_weight_spec|].
    intros x. cbn [nodes]. rewrite list_elem_of_filter. tauto.
  - split; [by vm_compute|]. split; [by vm_compute|].
    split; repeat constructor.
Qed.

Lemma remove_edges_by_weight_reads_old_degrees_witness :
  well_formed lopsided_triangle ∧
  ∃ G_removed, remove_edges_by_weight lopsided_triangle 3 = Ok G_removed ∧
    ∀ x, x ∈ nodes G_removed ↔ x ∈ nodes lopsided_triangle ∧ 2 ≤ degree lopsided_triangle x.
Proof.
  split; [exact lopsided_triangle_well_formed|].
  exact (proj1 remove_edges_by_weight_reads_old_degrees lopsided_triangle 3%Q
           lopsided_triangle_well_formed).
Defined.

End ThresholderExamples.

(** ** Influence estimator *)

Section InfluenceProofs.
Import Influence Examples.
Implicit Type C : list (list Z).

Lemma diagonal_lookup n C i :
  shape n n C → i < n → diagonal C !! i = mget C i i.
Proof.
  intros HC Hi. unfold diagonal.
  assert (omap (fun i => mget C i i) (seq 0 (length C))
          = (fun i => default 0%Z (mget C i i)) <$> seq 0 (length C)) as ->.
  { assert (∀ k, k ∈ seq 0 (length C) → is_Some (mget C k k)) as Hall.
    { intros k Hk. apply elem_of_seq in Hk. destruct HC as [Hn Hrows].
      apply (mget_shape n n); [done | lia | lia]. }
    induction (seq 0 (length C)) as [|k l IH]; [done|]. simpl.
    destruct (Hall k) as [v Hv]; [left|]. rewrite Hv. simpl.
    f_equal. apply IH. intros; apply Hall. by right. }
  rewrite list_lookup_fmap, lookup_seq_lt by (destruct HC; lia). simpl.
  destruct (mget_shape n n C i i HC Hi Hi) as [v ->]. done.
Qed.

(** The entry [(i, j)] of the influence matrix, as the code computes it:
    the row-normalised entry minus the column-normalised entry. *)
Lemma build_influence_matrix_entry n C i j cij cii cjj :
  shape n n C →
  mget C i j = Some cij → mget C i i = Some cii → mget C j j = Some cjj →
  mget (build_influence_matrix C) i j =
  Some (fsub (fdiv (of_Z cij) (of_Z cii)) (fdiv (of_Z cij) (of_Z cjj))).
Proof.
  intros HC Hij Hii Hjj.
  destruct (mget_shape_inv n n C i j cij HC Hij) as [Hi Hj].
  pose proof (diagonal_lookup n C i HC Hi) as Hdi.
  pose proof (diagonal_lookup n C j HC Hj) as Hdj.
  rewrite Hii in Hdi. rewrite Hjj in Hdj.
  unfold build_influence_matrix, subtract, divide_by_row, divide_by_column, mget in *.
  destruct (C !! i) as [row|] eqn:Hrow; [|done]. simpl in Hij.
  rewrite !lookup_zip_with, list_lookup_fmap, Hrow, Hdi. simpl.
  rewrite !lookup_zip_with, list_lookup_fmap, Hij, Hdj. done.
Qed.

Lemma fdiv_of_Z (a b : Z) :
  b ≠ 0%Z → fdiv (of_Z a) (of_Z b) = Fin (inject_Z a / inject_Z b)%Q.
Proof.
  intros Hb. unfold fdiv, of_Z.
  destruct (Qeq_bool (inject_Z b) 0) eqn:Hz; [|done].
  apply Qeq_bool_iff in Hz. unfold Qeq in Hz. simpl in Hz. lia.
Qed.

Lemma fdiv_by_zero (a : Z) : is_nan_or_inf (fdiv (of_Z a) (of_Z 0)).
Proof. unfold fdiv, of_Z, Qsign. simpl. by destruct a. Qed.

Lemma fsub_nan_or_inf_l x y : is_nan_or_inf x → is_nan_or_inf (fsub x y).
Proof. by destruct x, y. Qed.

Lemma fsub_nan_or_inf_r x y : is_nan_or_inf y → is_nan_or_inf (fsub x y).
Proof. by destruct x, y. Qed.

Lemma times_positive_mask_entry m i j :
  mget (times_positive_mask m) i j =
  (fun v => fmul v (if fpos v then Fin 1%Q else Fin 0%Q)) <$> mget m i j.
Proof.
  unfold times_positive_mask, mget. rewrite list_lookup_fmap.
  destruct (m !! i) as [row|]; [|done]. simpl. by rewrite list_lookup_fmap.
Qed.

Lemma positive_mask_nan_or_inf v :
  is_nan_or_inf v → is_nan_or_inf (fmul v (if fpos v then Fin 1%Q else Fin 0%Q)).
Proof. by destruct v. Qed.

(** C2 (amended): for every N x N co-activation matrix with a nonzero
    diagonal, [build_influence_matrix] returns the matrix with
    [I[i][j] = C[i][j]/C[i][i] - C[i][j]/C[j][j]]: the co-activation
    normalised by the row's own count minus by the column's own count. *)
Theorem build_influence_matrix_formula n C i j cij cii cjj :
  shape n n C →
  (∀ k ckk, mget C k k = Some ckk → ckk ≠ 0%Z) →
  mget C i j = Some cij → mget C i i = Some cii → mget C j j = Some cjj →
  mget (build_influence_matrix C) i j =
  Some (Fin (inject_Z cij / inject_Z cii - inject_Z cij / inject_Z cjj)%Q).
Proof.
  intros HC Hdiag Hij Hii Hjj.
  rewrite (build_influence_matrix_entry n C i j cij cii cjj) by done.
  rewrite !fdiv_of_Z by eauto. done.
Qed.

Lemma build_influence_matrix_formula_witness :
  shape 2 2 nested_coactives ∧
  (∀ k ckk, mget nested_coactives k k = Some ckk → ckk ≠ 0%Z) ∧
  mget (build_influence_matrix nested_coactives) 0 1 =
  Some (Fin (inject_Z 1 / inject_Z 1 - inject_Z 1 / inject_Z 2)%Q).
Proof.
  assert (shape 2 2 nested_coactives) as Hshape by (split; [done | by repeat constructor]).
  assert (∀ k ckk, mget nested_coactives k k = Some ckk → ckk ≠ 0%Z) as Hdiag.
  { intros [|[|k]] ckk Hk; vm_compute in Hk; simplify_eq; done. }
  split; [exact Hshape|]. split; [exact Hdiag|].
  exact (build_influence_matrix_formula 2 nested_coactives 0 1 1 1 2 Hshape Hdiag
           eq_refl eq_refl eq_refl).
Defined.

(** C2, as stated, fails on the nested regions: the entry [(0, 1)] is
    [1/1 - 1/2], not [C[0][1]/C[1][1] - C[0][1]/C[0][0] = 1/2 - 1/1]. *)
Lemma build_influence_matrix_sign_counterexample :
  ∃ q, mget (build_influence_matrix nested_coactives) 0 1 = Some (Fin q) ∧
       ¬ (q == inject_Z 1 / inject_Z 2 - inject_Z 1 / inject_Z 1)%Q.
Proof.
  eexists. split; [reflexivity|]. by vm_compute.
Qed.

(** C5 (amended): for a co-activation matrix with a zero diagonal entry
    [C[i][i]], no error is raised: [build_influence_matrix] and
    [build_positive_influence_matrix] return matrices in which every entry
    of row [i] and of column [i] is NaN or infinite. *)
Theorem build_influence_matrix_zero_diagonal n C i :
  shape n n C → mget C i i = Some 0%Z →
  ∀ j, j < n →
    (∃ v, mget (build_influence_matrix C) i j = Some v ∧ is_nan_or_inf v) ∧
    (∃ v, mget (build_influence_matrix C) j i = Some v ∧ is_nan_or_inf v) ∧
    (∃ v, mget (build_positive_influence_matrix C) i j = Some v ∧ is_nan_or_inf v) ∧
    (∃ v, mget (build_positive_influence_matrix C) j i = Some v ∧ is_nan_or_inf v).
Proof.
  intros HC Hii j Hj.
  destruct (mget_shape_inv n n C i i _ HC Hii) as [Hi _].
  destruct (mget_shape n n C i j HC Hi Hj) as [cij Hij].
  destruct (mget_shape n n C j i HC Hj Hi) as [cji Hji].
  destruct (mget_shape n n C j j HC Hj Hj) as [cjj Hjj].
  pose proof (build_influence_matrix_entry n C i j cij 0 cjj HC Hij Hii Hjj) as Hrow.
  pose proof (build_influence_matrix_entry n C j i cji cjj 0 HC Hji Hjj Hii) as Hcol.
  assert (is_nan_or_inf (fsub (fdiv (of_Z cij) (of_Z 0)) (fdiv (of_Z cij) (of_Z cjj))))
    as Hnr by apply fsub_nan_or_inf_l, fdiv_by_zero.
  assert (is_nan_or_inf (fsub (fdiv (of_Z cji) (of_Z cjj)) (fdiv (of_Z cji) (of_Z 0))))
    as Hnc by apply fsub_nan_or_inf_r, fdiv_by_zero.
  unfold build_positive_influence_matrix. rewrite !times_positive_mask_entry, Hrow, Hcol.
  simpl. repeat split; eexists; (split; [reflexivity|]);
    done || by apply positive_mask_nan_or_inf.
Qed.

Lemma build_influence_matrix_zero_diagonal_witness :
  shape 2 2 silent_region ∧ mget silent_region 0 0 = Some 0%Z ∧ 1 < 2 ∧
  (∃ v, mget (build_influence_matrix silent_region) 0 1 = Some v ∧ is_nan_or_inf v) ∧
  (∃ v, mget (build_influence_matrix silent_region) 1 0 = Some v ∧ is_nan_or_inf v) ∧
  (∃ v, mget (build_positive_influence_matrix silent_region) 0 1 = Some v ∧ is_nan_or_inf v) ∧
  (∃ v, mget (build_positive_influence_matrix silent_region) 1 0 = Some v ∧ is_nan_or_inf v).
Proof.
  assert (shape 2 2 silent_region) as Hshape by (split; [done | by repeat constructor]).
  assert (1 < 2) as Hlt by lia.
  split; [exact Hshape|]. split; [reflexivity|]. split; [exact Hlt|].
  exact (build_influence_matrix_zero_diagonal 2 silent_region 0 Hshape eq_refl 1 Hlt).
Defined.

(** C5, as stated, fails on a region without activations: the estimator
    returns a matrix, and that matrix holds NaN entries. *)
Lemma build_influence_matrix_returns_nan :
  build_influence_matrix silent_region = [[NaN; NaN]; [NaN; Fin (0 # 4)]] ∧
  build_positive_influence_matrix silent_region = [[NaN; NaN]; [NaN; Fin (0 # 4)]].
Proof. split; reflexivity. Qed.

End InfluenceProofs.

(** ** Significance filter *)

Lemma for_each_ext {A St} (body body' : St → A → result St) l :
  (∀ s x, body s x = body' s x) → ∀ s, for_each body l s = for_each body' l s.
Proof.
  intros Hbody. induction l as [|x l IH]; intros s; simpl; [done|].
  rewrite Hbody. destruct (body' s x); simpl; [apply IH | done].
Qed.

(** Two nested loops visit the pairs of their ranges in row order. *)
Lemma nested_for_each_cells {A B St} (body : St → A → B → result St) xs ys :
  ∀ s, for_each (fun s x => for_each (fun s y => body s x y) ys s) xs s =
       for_each (fun s c => body s c.1 c.2) (x ← xs; y ← ys; [(x, y)]) s.
Proof.
  induction xs as [|x xs IH]; intros s; [done|].
  cbn [for_each mbind list_bind]. rewrite for_each_app.
  assert (∀ s, for_each (fun s y => body s x y) ys s
               = for_each (fun s c => body s c.1 c.2) (ys ≫= fun y => [(x, y)]) s) as ->.
  { clear. induction ys as [|y ys IH]; intros s; [done|].
    cbn [for_each mbind list_bind app fst snd].
    destruct (body s x y); cbn [mbind result_bind]; [apply IH | done]. }
  destruct (for_each _ _ s); cbn [mbind result_bind]; [apply IH | done].
Qed.

Section SignificanceLoop.
Import Significance.
Context {lib : Library}.
Variables (C : list (list Z)) (N : Z) (alpha : Q) (n : nat).
Hypothesis shape_C : shape n n C.

Lemma item_mget (M : list (list Z)) x y :
  item M x y = match mget M x y with Some v => Ok v | None => Raise IndexError end.
Proof.
  unfold item, index, mget. destruct (M !! x) as [row|]; simpl; [|done].
  by destruct (row !! y).
Qed.

(** The test of a pair reads three entries of the array only. *)
Lemma verdict_ext (M M' : list (list Z)) x y :
  mget M x x = mget M' x x → mget M x y = mget M' x y → mget M y y = mget M' y y →
  verdict M N alpha x y = verdict M' N alpha x y.
Proof.
  intros Hxx Hxy Hyy. unfold verdict. by rewrite !item_mget, Hxx, Hxy, Hyy.
Qed.

Lemma significant_connection_threshold_cells (M : list (list Z)) :
  significant_connection_threshold M N alpha = for_each (visit N alpha) (cells (length M)) M.
Proof.
  unfold significant_connection_threshold, cells.
  etrans; [apply nested_for_each_cells|].
  apply for_each_ext. intros M1 [x y]. unfold visit, verdict. cbn [fst snd].
  destruct (decide (x ≠ y)); [|done].
  destruct (item M1 x x) as [xx|]; [|done]. cbn [mbind result_bind].
  destruct (item M1 x y) as [xy|]; [|done]. cbn [mbind result_bind].
  destruct (item M1 y y) as [yy|]; [|done]. cbn [mbind result_bind].
  destruct (log10 _) as [l|]; [|done]. cbn [mbind result_bind].
  by destruct (fgt _ _).
Qed.

Lemma visit_ne (M : list (list Z)) c :
  c.1 ≠ c.2 →
  visit N alpha M c =
  (zero ← verdict M N alpha c.1 c.2; Ok (if zero : bool then mset M c.1 c.2 0%Z else M)).
Proof. intros Hne. unfold visit. by rewrite decide_True. Qed.

Lemma visit_eq (M : list (list Z)) c : ¬ c.1 ≠ c.2 → visit N alpha M c = Ok M.
Proof. intros Heq. unfold visit. by rewrite decide_False. Qed.

(** The invariant of the loops: the diagonal and the pairs still to be
    visited hold the entries of the input, so every test is the test of
    the input matrix; a visited pair holds zero or its input entry. *)
Lemma for_each_visit todo :
  NoDup todo → (∀ c, c ∈ todo → c.1 < n ∧ c.2 < n) →
  ∀ M : list (list Z), shape n n M →
    (∀ i, mget M i i = mget C i i) →
    (∀ c, c ∈ todo → mget M c.1 c.2 = mget C c.1 c.2) →
    match for_each (visit N alpha) todo M with
    | Ok M' =>
        shape n n M' ∧ (∀ i, mget M' i i = mget C i i) ∧
        (∀ c, c ∈ todo → c.1 ≠ c.2 →
           ∃ zero : bool, verdict C N alpha c.1 c.2 = Ok zero ∧
             mget M' c.1 c.2 = if zero then Some 0%Z else mget C c.1 c.2) ∧
        (∀ x y, (x, y) ∉ todo → mget M' x y = mget M x y)
    | Raise e => ∃ c, c ∈ todo ∧ c.1 ≠ c.2 ∧ verdict C N alpha c.1 c.2 = Raise e
    end.
Proof.
  induction todo as [|c todo IH]; intros Hnodup Hbounds M HM Hdiag Htodo.
  { simpl. split; [done|]. split; [done|]. split; [|done].
    intros c Hc. by apply elem_of_nil in Hc. }
  apply NoDup_cons in Hnodup as [Hc Hnodup].
  assert (∀ c', c' ∈ todo → c'.1 < n ∧ c'.2 < n) as Hbounds'
    by (intros; apply Hbounds; by right).
  destruct (Hbounds c) as [Hc1 Hc2]; [by left|].
  cbn [for_each].
  (* the state after the visit of [c], for a given outcome of the test *)
  assert (∀ M1 : list (list Z), shape n n M1 →
            (∀ i, mget M1 i i = mget C i i) →
            (∀ x y, (x, y) ≠ c → mget M1 x y = mget M x y) →
            ∀ zero : bool,
            (c.1 ≠ c.2 → verdict C N alpha c.1 c.2 = Ok zero ∧
               mget M1 c.1 c.2 = if zero then Some 0%Z else mget C c.1 c.2) →
            match for_each (visit N alpha) todo M1 with
            | Ok M' =>
                shape n n M' ∧ (∀ i, mget M' i i = mget C i i) ∧
                (∀ c', c' ∈ c :: todo → c'.1 ≠ c'.2 →
                   ∃ zero : bool, verdict C N alpha c'.1 c'.2 = Ok zero ∧
                     mget M' c'.1 c'.2 = if zero then Some 0%Z else mget C c'.1 c'.2) ∧
                (∀ x y, (x, y) ∉ c :: todo → mget M' x y = mget M x y)
            | Raise e => ∃ c', c' ∈ c :: todo ∧ c'.1 ≠ c'.2 ∧
                               verdict C N alpha c'.1 c'.2 = Raise e
            end) as Hrest.
  { intros M1 HM1 Hdiag1 Hsame zero Hzero.
    specialize (IH Hnodup Hbounds' M1 HM1 Hdiag1).
    destruct (for_each (visit N alpha) todo M1) as [M'|e].
    - destruct IH as (HM' & Hdiag' & Hvisited & Hother).
      { intros c' Hc'. destruct c' as [x y]. rewrite Hsame by (by intros <-).
        apply Htodo. by right. }
      split; [done|]. split; [done|]. split.
      + intros c' Hc' Hne. apply elem_of_cons in Hc' as [->|Hc']; [|by apply Hvisited].
        destruct (Hzero Hne) as [Hv Hcell]. exists zero. split; [done|].
        destruct c as [x y]. by rewrite Hother.
      + intros x y Hxy. apply not_elem_of_cons in Hxy as [Hne Hxy].
        rewrite Hother by done. by apply Hsame.
    - destruct IH as (c' & Hc' & Hne & Hv).
      { intros c' Hc'. destruct c' as [x y]. rewrite Hsame by (by intros <-).
        apply Htodo. by right. }
      exists c'. split; [by right | done]. }
  destruct (decide (c.1 ≠ c.2)) as [Hne|Heq].
  - rewrite visit_ne by done.
    rewrite (verdict_ext M C) by (rewrite ?Hdiag; try done; apply Htodo; by left).
    destruct (verdict C N alpha c.1 c.2) as [zero|e] eqn:Hv; cbn [mbind result_bind].
    + apply (Hrest _) with (zero := zero).
      * destruct zero; auto using shape_mset.
      * intros i. destruct zero; [|done]. rewrite mget_mset_ne by congruence. done.
      * intros x y Hxy. destruct zero; [|done]. destruct c. by rewrite mget_mset_ne.
      * intros _. split; [done|]. destruct zero.
        -- apply mget_mset_eq. by apply (mget_shape n n).
        -- apply Htodo. by left.
    + exists c. split; [by left | done].
  - rewrite visit_eq by done. cbn [mbind result_bind].
    apply (Hrest M HM Hdiag (fun _ _ _ => eq_refl) false). intros Hne. by destruct Heq.
Qed.

Lemma NoDup_cells m : NoDup (cells m).
Proof.
  unfold cells. apply NoDup_bind.
  - intros x1 x2 c _ _ Hc1 Hc2.
    apply list_elem_of_bind in Hc1 as (y1 & Hy1 & _).
    apply list_elem_of_bind in Hc2 as (y2 & Hy2 & _).
    apply list_elem_of_singleton in Hy1, Hy2. congruence.
  - intros x _. apply NoDup_bind.
    + intros y1 y2 c _ _ Hc1 Hc2. apply list_elem_of_singleton in Hc1, Hc2. congruence.
    + intros y _. apply NoDup_singleton.
    + apply NoDup_seq.
  - apply NoDup_seq.
Qed.

Lemma elem_of_cells m x y : (x, y) ∈ cells m ↔ x < m ∧ y < m.
Proof.
  unfold cells. rewrite list_elem_of_bind. split.
  - intros (x' & Hy & Hx). apply list_elem_of_bind in Hy as (y' & Hy & Hy').
    apply list_elem_of_singleton in Hy. injection Hy as -> ->.
    apply elem_of_seq in Hx, Hy'. lia.
  - intros [Hx Hy]. exists x. split; [|apply elem_of_seq; lia].
    apply list_elem_of_bind. exists y. split; [by apply list_elem_of_singleton|].
    apply elem_of_seq. lia.
Qed.

(** What [significant_connection_threshold] does to the input [C]: it
    returns unless a test raises, and then the diagonal is that of [C] and
    an off-diagonal entry is zero when its test on [C] says so, and the
    entry of [C] otherwise. *)
Lemma significant_connection_threshold_spec :
  match significant_connection_threshold C N alpha with
  | Ok M =>
      shape n n M ∧ (∀ i, mget M i i = mget C i i) ∧
      (∀ x y, x < n → y < n → x ≠ y →
         ∃ zero : bool, verdict C N alpha x y = Ok zero ∧
           mget M x y = if zero then Some 0%Z else mget C x y)
  | Raise e => ∃ x y, x < n ∧ y < n ∧ x ≠ y ∧ verdict C N alpha x y = Raise e
  end.
Proof.
  rewrite significant_connection_threshold_cells.
  assert (length C = n) as -> by apply shape_C.
  pose proof (for_each_visit (cells n) (NoDup_cells n)) as Hloop.
  specialize (Hloop (fun c Hc => proj1 (elem_of_cells n c.1 c.2)
                       (eq_rect _ (fun c' => c' ∈ cells n) Hc _ (surjective_pairing c)))).
  specialize (Hloop C shape_C (fun _ => eq_refl) (fun _ _ => eq_refl)).
  destruct (for_each (visit N alpha) (cells n) C) as [M|e].
  - destruct Hloop as (HM & Hdiag & Hvisited & _). split; [done|]. split; [done|].
    intros x y Hx Hy Hne. apply (Hvisited (x, y)); [by apply elem_of_cells | done].
  - destruct Hloop as ([x y] & Hc & Hne & Hv). apply elem_of_cells in Hc.
    exists x, y. naive_solver.
Qed.

Lemma item_entry x y : x < n → y < n → item C x y = Ok (entry C x y).
Proof.
  intros Hx Hy. rewrite item_mget. unfold entry.
  by destruct (mget_shape n n C x y shape_C Hx Hy) as [v ->].
Qed.

(** On the input matrix the test of a pair is the test of the
    specification: the statistic against the threshold. *)
Lemma verdict_in_bounds x y :
  x < n → y < n →
  verdict C N alpha x y = (s ← stat C N x y; Ok (fgt s alpha)).
Proof.
  intros Hx Hy. unfold verdict, stat, likelihood_ratio, null_likelihood,
    alternative_likelihood. rewrite !item_entry by done. cbn [mbind result_bind].
  by destruct (log10 _).
Qed.

End SignificanceLoop.

Section SignificanceProofs.
Import Significance Examples.
Context {lib : Library}.

Lemma mget_outside {A} n m (M : list (list A)) i j :
  shape n m M → ¬ (i < n ∧ j < m) → mget M i j = None.
Proof.
  intros HM Hout. destruct (mget M i j) as [v|] eqn:Hv; [|done].
  destruct Hout. by apply (mget_shape_inv n m M i j v).
Qed.

(** The statistic exists exactly when the ratio is in the domain of the
    logarithm; otherwise [math.log10] raises. *)
Lemma stat_in_domain (C : list (list Z)) N i j :
  (in_domain C N i j ↔ ∃ s, stat C N i j = Ok s) ∧
  (∀ e, stat C N i j = Raise e → e = ValueError).
Proof.
  unfold in_domain, stat, log10.
  destruct (likelihood_ratio C N i j) as [| | |q]; cbn [mbind result_bind].
  - split; [|done]. split; [by eexists | done].
  - split; [|done]. split; [by eexists | done].
  - split; [|congruence]. split; [done | by intros [s ?]].
  - destruct (Qle_bool q 0) eqn:Hle; cbn [mbind result_bind].
    + apply Qle_bool_iff in Hle. split; [|congruence]. split; [|by intros [s ?]].
      intros Hpos. by apply Qle_not_lt in Hle.
    + split; [|done]. split; [by eexists|]. intros _. apply Qnot_le_lt. intros Hle'.
      apply Qle_bool_iff in Hle'. congruence.
Qed.

Lemma round64_not_nan (q : Q) : round64 q ≠ NaN.
Proof.
  unfold round64, round_pos. destruct (Qnum (Qred q)); [done| |].
  - by destruct (Qle_bool _ _).
  - cbv zeta. by destruct (Qle_bool _ _).
Qed.

Lemma rounded_not_nan (a b q : Q) : rounded a b q ≠ NaN.
Proof. unfold rounded. destruct (_ && _); [apply round64_not_nan | done]. Qed.






End SignificanceProofs.

Section SignificanceExamples.
Import Significance Examples Reference.

Lemma nested_coactives_symmetric : symmetric nested_coactives.
Proof. intros i j. by destruct i as [|[|i]], j as [|[|j]]. Qed.



(** The twin regions with four studies on the reference library: both
    likelihoods are regular, the statistic is [-2 * log10(1/16)], about 2.4,
    and at the threshold 1 both entries go. *)
Example significant_connection_threshold_twin_regions :
  null_likelihood (lib := library) twin_regions 4 0 1 = Fin (1 # 16) ∧
  alternative_likelihood (lib := library) twin_regions 4 0 1 = Fin 1%Q ∧
  stat (lib := library) twin_regions 4 0 1 = Ok (Fin (5422874305198591 # 2251799813685248)) ∧
  significant_connection_threshold (lib := library) twin_regions 4 1
  = Ok [[2; 0]; [0; 2]]%Z ∧
  significant_connection_threshold (lib := library) twin_regions 4 3 = Ok twin_regions.
Proof. repeat split; by vm_compute. Qed.

(** The crowded regions with 1076 studies: the two factors of the null
    likelihood are [2^-538] each and their product is below the smallest
    binary64 number, so the ratio is 0 and [math.log10] raises, at any
    threshold. *)
Example significant_connection_threshold_underflow :
  binom_pmf (lib := library) 538 538 (Fin (1 # 2)) = Fin (1 # 2 ^ 538)%Q ∧
  null_likelihood (lib := library) crowded_regions 1076 0 1 = Fin 0%Q ∧
  alternative_likelihood (lib := library) crowded_regions 1076 0 1 = Fin 1%Q ∧
  stat (lib := library) crowded_regions 1076 0 1 = Raise ValueError ∧
  ∀ alpha, significant_connection_threshold (lib := library) crowded_regions 1076 alpha
           = Raise ValueError.
Proof.
  split; [vm_compute; reflexivity|]. split; [vm_compute; reflexivity|].
  split; [vm_compute; reflexivity|]. split; [vm_compute; reflexivity|].
  intros alpha. vm_compute. reflexivity.
Qed.





End SignificanceExamples.

(** * Further properties of the code *)

(** ** Lists *)

Lemma foldl_extend {A} (l : list (list A)) (acc : list A) :
  foldl (fun acc x => acc ++ x) acc l = acc ++ concat l.
Proof.
  revert acc. induction l as [|x l IH]; intros acc; simpl.
  - by rewrite app_nil_r.
  - by rewrite IH, app_assoc.
Qed.

Lemma foldl_snoc {A B} (f : A → B) (l : list A) (acc : list B) :
  foldl (fun acc x => acc ++ [f x]) acc l = acc ++ map f l.
Proof.
  revert acc. induction l as [|x l IH]; intros acc; simpl.
  - by rewrite app_nil_r.
  - by rewrite IH, <- app_assoc.
Qed.

Lemma strongly_sorted_app {A} (R : A → A → Prop) (l1 l2 : list A) :
  StronglySorted R (l1 ++ l2)
  ↔ StronglySorted R l1 ∧ StronglySorted R l2 ∧ ∀ x1 x2, x1 ∈ l1 → x2 ∈ l2 → R x1 x2.
Proof.
  induction l1 as [|x l1 IH]; simpl.
  - split; [|naive_solver]. intros Hl2. split; [constructor|]. split; [done|].
    intros x1 x2 Hx1. by apply elem_of_nil in Hx1.
  - split.
    + intros Hs. apply StronglySorted_inv in Hs as [Hs Hx].
      apply IH in Hs as (Hl1 & Hl2 & Hcross). rewrite Forall_app in Hx. destruct Hx as [Hx1 Hx2].
      split; [by constructor|]. split; [done|].
      intros x1 x2 [->|Hx1']%elem_of_cons Hin2; [|by apply Hcross].
      rewrite Forall_forall in Hx2. by apply Hx2.
    + intros (Hs & Hl2 & Hcross). apply StronglySorted_inv in Hs as [Hl1 Hx].
      constructor.
      * apply IH. split; [done|]. split; [done|]. intros x1 x2 Hx1. apply Hcross. by right.
      * rewrite Forall_app. split; [done|]. apply Forall_forall. intros x2 Hx2.
        apply Hcross; [left | done].
Qed.

Lemma strongly_sorted_reverse {A} (R : A → A → Prop) (l : list A) :
  StronglySorted R l → StronglySorted (fun a b => R b a) (reverse l).
Proof.
  induction 1 as [|x l Hl IH Hx]; [constructor|].
  rewrite reverse_cons. apply strongly_sorted_app. split; [done|].
  split; [repeat constructor|].
  intros x1 x2 Hx1 ->%list_elem_of_singleton. rewrite Forall_forall in Hx.
  exact (Hx x1 (proj1 (elem_of_reverse _ _) Hx1)).
Qed.

Lemma length_filter_snd {A B} (f : B → bool) (b : bool) (l : list (A * B)) :
  length (filter (fun w => f w = b) l.*2) = length (filter (fun e => f e.2 = b) l).
Proof.
  induction l as [|e l IH]; [done|]. rewrite fmap_cons, !filter_cons.
  destruct (decide (f e.2 = b)); simpl; by rewrite IH.
Qed.

(** ** Matrix builder: symmetry, bounds and extreme values *)

Section MatrixBuilderInvariants.
Import MatrixBuilder Examples.
Context {K : Type} `{Countable K}.
Implicit Type key_codes : list (list K).

Lemma coactivations_comm (x y : list K) : coactivations x y = coactivations y x.
Proof. unfold coactivations. f_equal. f_equal. set_solver. Qed.

Lemma coactivations_le_diag (x y : list K) :
  (0 ≤ coactivations x y ≤ coactivations x x)%Z.
Proof.
  unfold coactivations. split; [lia|]. apply inj_le, subseteq_size. set_solver.
Qed.

(** The co-activation array is square and symmetric, and no entry exceeds the
    diagonal entry of its row or of its column. *)
Theorem build_n_coactives_array_symmetric_bounded key_codes :
  let C := build_n_coactives_array key_codes in
  shape (length key_codes) (length key_codes) C ∧
  symmetric C ∧
  (∀ i j cij cii cjj,
     mget C i j = Some cij → mget C i i = Some cii → mget C j j = Some cjj →
     (0 ≤ cij ≤ cii)%Z ∧ (cij ≤ cjj)%Z).
Proof.
  intros C. split; [apply shape_build_n_coactives_array|]. split.
  - intros i j. unfold C. rewrite !build_n_coactives_array_cell.
    destruct (key_codes !! i) as [x|], (key_codes !! j) as [y|]; try done.
    by rewrite coactivations_comm.
  - intros i j cij cii cjj. unfold C. rewrite !build_n_coactives_array_cell.
    destruct (key_codes !! i) as [x|]; [|done].
    destruct (key_codes !! j) as [y|]; [|done].
    intros [= <-] [= <-] [= <-].
    pose proof (coactivations_le_diag x y). pose proof (coactivations_le_diag y x).
    rewrite (coactivations_comm y x) in *. lia.
Qed.

Lemma jaccard_index_comm (x y : list K) : jaccard_index x y = jaccard_index y x.
Proof.
  unfold jaccard_index.
  replace (pyset y ∪ pyset x) with (pyset x ∪ pyset y) by set_solver.
  replace (pyset y ∩ pyset x) with (pyset x ∩ pyset y) by set_solver. done.
Qed.

Lemma float_of_len_ratio_eq (a b : nat) (q : nat) :
  0 < b → (float_of_len a / float_of_len b == float_of_len q)%Q ↔ a = q * b.
Proof.
  intros Hb. unfold float_of_len.
  assert (¬ (inject_Z (Z.of_nat b) == 0)%Q) as Hnz.
  { unfold Qeq, inject_Z. simpl. lia. }
  split.
  - intros Heq. apply (Qmult_inj_r _ _ (inject_Z (Z.of_nat b))) in Heq; [|done].
    rewrite Qmult_comm, Qmult_div_r in Heq by done.
    rewrite <- inject_Z_mult in Heq. unfold Qeq, inject_Z in Heq. simpl in Heq. lia.
  - intros ->. rewrite Nat2Z.inj_mul, inject_Z_mult. apply Qdiv_mult_l. done.
Qed.

Lemma jaccard_index_one (x y : list K) :
  (jaccard_index x y == 1)%Q ↔ pyset x = pyset y ∧ pyset x ≠ ∅.
Proof.
  unfold jaccard_index. case_decide as HE.
  - split; [by intros ?|]. intros [_ Hne]. destruct Hne. set_solver.
  - assert (0 < size (pyset x ∪ pyset y)) as Hpos.
    { destruct (decide (size (pyset x ∪ pyset y) = 0)) as [Hz|]; [|lia].
      apply size_empty_inv in Hz. destruct HE. by apply leibniz_equiv. }
    change 1%Q with (float_of_len 1). rewrite float_of_len_ratio_eq by done.
    rewrite Nat.mul_1_l. split.
    + intros Hsize.
      assert (pyset x ∩ pyset y = pyset x ∪ pyset y) as Heq.
      { apply leibniz_equiv, set_subseteq_size_equiv; [set_solver | lia]. }
      split; [set_solver | set_solver].
    + intros [Heq _]. rewrite Heq. f_equal. set_solver.
Qed.

Lemma jaccard_index_zero (x y : list K) :
  (jaccard_index x y == 0)%Q ↔ pyset x ∩ pyset y = ∅.
Proof.
  unfold jaccard_index. case_decide as HE.
  - split; [|done]. intros _. set_solver.
  - assert (0 < size (pyset x ∪ pyset y)) as Hpos.
    { destruct (decide (size (pyset x ∪ pyset y) = 0)) as [Hz|]; [|lia].
      apply size_empty_inv in Hz. destruct HE. by apply leibniz_equiv. }
    change 0%Q with (float_of_len 0). rewrite float_of_len_ratio_eq by done.
    rewrite Nat.mul_0_l. split.
    + intros Hz. apply leibniz_equiv, size_empty_inv. done.
    + intros ->. apply size_empty.
Qed.

(** The Jaccard array is symmetric; an entry is 1 exactly when the two
    regions have the same non-empty set of identifiers, and 0 exactly when
    they share none. *)
Theorem build_jaccard_symmetric_extremes key_codes :
  let J := build_jaccard key_codes in
  symmetric J ∧
  (∀ i j x y v, key_codes !! i = Some x → key_codes !! j = Some y →
     mget J i j = Some v →
     ((v == 1)%Q ↔ pyset x = pyset y ∧ pyset x ≠ ∅) ∧
     ((v == 0)%Q ↔ pyset x ∩ pyset y = ∅)).
Proof.
  intros J. split.
  - intros i j. unfold J. rewrite !build_jaccard_cell.
    destruct (key_codes !! i) as [x|], (key_codes !! j) as [y|]; try done.
    by rewrite jaccard_index_comm.
  - intros i j x y v Hx Hy. unfold J. rewrite build_jaccard_cell, Hx, Hy.
    intros [= <-]. split; [apply jaccard_index_one | apply jaccard_index_zero].
Qed.

Lemma size_union_intersection (X Y : gset K) :
  size (X ∪ Y) + size (X ∩ Y) = size X + size Y.
Proof.
  rewrite (size_union_alt X Y).
  assert (size Y = size (Y ∖ X) + size (X ∩ Y)) as ->; [|lia].
  rewrite <- size_union by set_solver. f_equal. apply set_eq. intros k.
  destruct (decide (k ∈ X)); set_solver.
Qed.

(** The Jaccard array is the co-activation array normalised: the entry
    [J[i][j]] is [C[i][j] / (C[i][i] + C[j][j] - C[i][j])], and 0 where that
    denominator is 0. *)
Theorem build_jaccard_of_counts key_codes i j cij cii cjj v :
  mget (build_n_coactives_array key_codes) i j = Some cij →
  mget (build_n_coactives_array key_codes) i i = Some cii →
  mget (build_n_coactives_array key_codes) j j = Some cjj →
  mget (build_jaccard key_codes) i j = Some v →
  ((cii + cjj - cij = 0)%Z → v = 0%Q) ∧
  ((cii + cjj - cij ≠ 0)%Z → (v == inject_Z cij / inject_Z (cii + cjj - cij))%Q).
Proof.
  rewrite !build_n_coactives_array_cell, build_jaccard_cell.
  destruct (key_codes !! i) as [x|]; [|done].
  destruct (key_codes !! j) as [y|]; [|done].
  intros [= <-] [= <-] [= <-] [= <-]. unfold coactivations, jaccard_index.
  replace (pyset x ∩ pyset x) with (pyset x) by set_solver.
  replace (pyset y ∩ pyset y) with (pyset y) by set_solver.
  pose proof (size_union_intersection (pyset x) (pyset y)) as Hsizes.
  assert ((Z.of_nat (size (pyset x)) + Z.of_nat (size (pyset y))
           - Z.of_nat (size (pyset x ∩ pyset y)))%Z
          = Z.of_nat (size (pyset x ∪ pyset y))) as -> by lia.
  case_decide as Hempty.
  - split; [done|]. rewrite Hempty, size_empty. done.
  - split; [|done]. intros Hzero. destruct Hempty.
    apply leibniz_equiv, size_empty_inv. lia.
Qed.

End MatrixBuilderInvariants.

Section MatrixBuilderInvariantsExamples.
Import MatrixBuilder Examples.

Lemma build_n_coactives_array_symmetric_bounded_witness :
  mget (build_n_coactives_array three_regions) 0 1 = Some 2%Z ∧
  mget (build_n_coactives_array three_regions) 0 0 = Some 3%Z ∧
  mget (build_n_coactives_array three_regions) 1 1 = Some 3%Z ∧
  (0 ≤ 2 ≤ 3)%Z ∧ (2 ≤ 3)%Z.
Proof.
  assert (mget (build_n_coactives_array three_regions) 0 1 = Some 2%Z) as H01
    by (vm_compute; reflexivity).
  assert (mget (build_n_coactives_array three_regions) 0 0 = Some 3%Z) as H00
    by (vm_compute; reflexivity).
  assert (mget (build_n_coactives_array three_regions) 1 1 = Some 3%Z) as H11
    by (vm_compute; reflexivity).
  split; [exact H01|]. split; [exact H00|]. split; [exact H11|].
  exact (proj2 (proj2 (build_n_coactives_array_symmetric_bounded three_regions))
           0 1 2%Z 3%Z 3%Z H01 H00 H11).
Defined.

Lemma build_jaccard_symmetric_extremes_witness :
  three_regions !! 0 = Some [1; 2; 3]%Z ∧ three_regions !! 2 = Some [5]%Z ∧
  ∃ v, mget (build_jaccard three_regions) 0 2 = Some v ∧
       ((v == 0)%Q ↔ pyset [1; 2; 3]%Z ∩ pyset [5]%Z = ∅).
Proof.
  split; [reflexivity|]. split; [reflexivity|].
  assert (∃ v, mget (build_jaccard three_regions) 0 2 = Some v) as [v Hv]
    by (eexists; vm_compute; reflexivity).
  exists v. split; [exact Hv|].
  exact (proj2 (proj2 (build_jaccard_symmetric_extremes three_regions)
                  0 2 [1; 2; 3]%Z [5]%Z v eq_refl eq_refl Hv)).
Defined.

Lemma build_jaccard_of_counts_witness :
  mget (build_n_coactives_array three_regions) 0 1 = Some 2%Z ∧
  mget (build_n_coactives_array three_regions) 0 0 = Some 3%Z ∧
  mget (build_n_coactives_array three_regions) 1 1 = Some 3%Z ∧
  ∃ v, mget (build_jaccard three_regions) 0 1 = Some v ∧
       ((3 + 3 - 2 ≠ 0)%Z → (v == inject_Z 2 / inject_Z (3 + 3 - 2))%Q).
Proof.
  assert (mget (build_n_coactives_array three_regions) 0 1 = Some 2%Z) as H01
    by (vm_compute; reflexivity).
  assert (mget (build_n_coactives_array three_regions) 0 0 = Some 3%Z) as H00
    by (vm_compute; reflexivity).
  assert (mget (build_n_coactives_array three_regions) 1 1 = Some 3%Z) as H11
    by (vm_compute; reflexivity).
  assert (∃ v, mget (build_jaccard three_regions) 0 1 = Some v) as [v Hv]
    by (eexists; vm_compute; reflexivity).
  split; [exact H01|]. split; [exact H00|]. split; [exact H11|].
  exists v. split; [exact Hv|].
  exact (proj2 (build_jaccard_of_counts three_regions 0 1 2%Z 3%Z 3%Z v H01 H00 H11 Hv)).
Defined.

End MatrixBuilderInvariantsExamples.

(** ** Keycode utilities *)

Section KeycodesProofs.
Import MatrixBuilder Keycodes Examples.
Context {K : Type} `{Countable K}.
Implicit Type key_codes : list (list K).

(** The identifiers counted by [number_of_contrasts] are those of the
    regions. *)
Lemma elem_of_contrasts key_codes (k : K) :
  k ∈ keyset (foldl (fun acc x => acc ++ x) [] key_codes) ↔ ∃ x, x ∈ key_codes ∧ k ∈ x.
Proof.
  rewrite foldl_extend, app_nil_l. unfold keyset.
  rewrite elem_of_list_to_set, list_elem_of_In, in_concat.
  setoid_rewrite <- list_elem_of_In. naive_solver.
Qed.

Lemma keyset_subseteq_contrasts key_codes x :
  x ∈ key_codes → keyset x ⊆ keyset (foldl (fun acc x => acc ++ x) [] key_codes).
Proof.
  intros Hx k Hk. apply elem_of_contrasts. exists x. split; [done|].
  by apply elem_of_list_to_set in Hk.
Qed.

(** [number_of_contrasts] bounds the co-activation array: the identifiers of
    two regions together are at most that many, so
    [C[i][i] + C[j][j] - C[i][j] <= N]; and it is 0 exactly when every region
    is empty. *)
Theorem number_of_contrasts_bounds key_codes :
  let C := build_n_coactives_array key_codes in
  let N := Z.of_nat (number_of_contrasts key_codes) in
  (∀ i j cij cii cjj,
     mget C i j = Some cij → mget C i i = Some cii → mget C j j = Some cjj →
     (cii + cjj - cij ≤ N)%Z ∧ (cii ≤ N)%Z) ∧
  (number_of_contrasts key_codes = 0 ↔ Forall (fun x => x = []) key_codes).
Proof.
  intros C N. split.
  - intros i j cij cii cjj. unfold C. rewrite !build_n_coactives_array_cell.
    destruct (key_codes !! i) as [x|] eqn:Hx; [|done].
    destruct (key_codes !! j) as [y|] eqn:Hy; [|done].
    intros [= <-] [= <-] [= <-]. unfold coactivations, N, number_of_contrasts.
    replace (pyset x ∩ pyset x) with (pyset x) by set_solver.
    replace (pyset y ∩ pyset y) with (pyset y) by set_solver.
    pose proof (keyset_subseteq_contrasts key_codes x
                  (proj2 (list_elem_of_lookup _ _) (ex_intro _ i Hx))) as Hxs.
    pose proof (keyset_subseteq_contrasts key_codes y
                  (proj2 (list_elem_of_lookup _ _) (ex_intro _ j Hy))) as Hys.
    unfold keyset in *. fold (pyset x) (pyset y) in *.
    set (U := list_to_set (foldl _ _ _)) in *.
    assert (size (pyset x ∪ pyset y) ≤ size U) as Hunion
      by (apply subseteq_size; set_solver).
    assert (size (pyset x) ≤ size U) as Hx' by by apply subseteq_size.
    pose proof (size_union_alt (pyset x) (pyset y)) as Hsplit.
    assert (size (pyset x) = size (pyset x ∩ pyset y) + size (pyset x ∖ pyset y)) as Hxsplit.
    { rewrite <- size_union by set_solver. f_equal. apply set_eq. intros k.
      destruct (decide (k ∈ pyset y)); set_solver. }
    assert (size (pyset y ∖ pyset x) + size (pyset x ∩ pyset y) = size (pyset y)) as Hysplit.
    { rewrite <- size_union by set_solver. f_equal. apply set_eq. intros k.
      destruct (decide (k ∈ pyset x)); set_solver. }
    lia.
  - unfold number_of_contrasts. rewrite size_empty_iff, Forall_forall. split.
    + intros Hempty x Hx. destruct x as [|k x]; [done|].
      assert (k ∈ keyset (foldl (fun acc x => acc ++ x) [] key_codes)) as Hk.
      { apply elem_of_contrasts. exists (k :: x). split; [done | left]. }
      rewrite Hempty in Hk. set_solver.
    + intros Hall. apply set_equiv. intros k. rewrite elem_of_contrasts. split; [|set_solver].
      intros (x & Hx & Hk). rewrite (Hall x Hx) in Hk. by apply elem_of_nil in Hk.
Qed.

End KeycodesProofs.

Section FilterProofs.
Import MatrixBuilder Keycodes Examples.
Context {K : Type} `{Countable K}.
Implicit Type key_codes : list (list K).

Lemma pyset_elements (s : gset K) : pyset (elements s) = s.
Proof. apply list_to_set_elements_L. Qed.

(** Regions that shrink as sets have smaller co-activation counts and fewer
    contrasts. *)
Lemma build_n_coactives_array_mono key_codes key_codes' i j c c' :
  Forall2 (fun x' x => pyset x' ⊆ pyset x) key_codes' key_codes →
  mget (build_n_coactives_array key_codes) i j = Some c →
  mget (build_n_coactives_array key_codes') i j = Some c' →
  (c' ≤ c)%Z.
Proof.
  intros Hsub. rewrite !build_n_coactives_array_cell.
  destruct (key_codes !! i) as [x|] eqn:Hx; [|done].
  destruct (key_codes !! j) as [y|] eqn:Hy; [|done].
  destruct (key_codes' !! i) as [x'|] eqn:Hx'; [|done].
  destruct (key_codes' !! j) as [y'|] eqn:Hy'; [|done].
  intros [= <-] [= <-]. unfold coactivations. apply inj_le, subseteq_size.
  pose proof (Forall2_lookup_lr _ _ _ _ _ _ Hsub Hx' Hx).
  pose proof (Forall2_lookup_lr _ _ _ _ _ _ Hsub Hy' Hy).
  set_solver.
Qed.

Lemma number_of_contrasts_mono key_codes key_codes' :
  Forall2 (fun x' x => pyset x' ⊆ pyset x) key_codes' key_codes →
  number_of_contrasts key_codes' ≤ number_of_contrasts key_codes.
Proof.
  intros Hsub. unfold number_of_contrasts. apply subseteq_size. intros k.
  rewrite !elem_of_contrasts. intros (x' & Hx' & Hk).
  apply list_elem_of_lookup in Hx' as [i Hi].
  destruct (Forall2_lookup_l _ _ _ _ _ Hsub Hi) as (x & Hx & Hxx).
  exists x. split; [by eapply list_elem_of_lookup_2|].
  apply (elem_of_list_to_set (C := gset K)). apply Hxx. by apply elem_of_list_to_set.
Qed.

(** [domain_filter_keycodes] raises [KeyError] exactly for a domain that the
    dictionary lacks. Otherwise it returns one set per region, and against
    the unfiltered regions every co-activation count and the number of
    contrasts can only fall; the contrasts left are at most those of the
    domain; and filtering the result once more changes nothing. *)
Theorem domain_filter_keycodes_shrinks key_codes
    (studies_filtered_by_domain : gmap string (list K)) domain :
  (domain_filter_keycodes key_codes studies_filtered_by_domain domain = Raise KeyError
   ↔ studies_filtered_by_domain !! domain = None) ∧
  (∀ domainlist, studies_filtered_by_domain !! domain = Some domainlist →
     ∃ filtered,
       domain_filter_keycodes key_codes studies_filtered_by_domain domain = Ok filtered ∧
       length filtered = length key_codes ∧
       (∀ i j c c',
          mget (build_n_coactives_array key_codes) i j = Some c →
          mget (build_n_coactives_array (map elements filtered)) i j = Some c' →
          (c' ≤ c)%Z) ∧
       number_of_contrasts (map elements filtered) ≤ number_of_contrasts key_codes ∧
       number_of_contrasts (map elements filtered) ≤ size (keyset domainlist) ∧
       domain_filter_keycodes (map elements filtered) studies_filtered_by_domain domain
       = Ok filtered).
Proof.
  unfold domain_filter_keycodes. split.
  { destruct (studies_filtered_by_domain !! domain); naive_solver. }
  intros domainlist ->. eexists. split; [done|].
  set (filtered := map _ key_codes).
  assert (Forall2 (fun x' x => pyset x' ⊆ pyset x) (map elements filtered) key_codes) as Hsub.
  { unfold filtered. rewrite map_map. apply Forall2_fmap_l, Forall_Forall2_diag, Forall_forall.
    intros x _. unfold compose. rewrite pyset_elements. unfold keyset, pyset. set_solver. }
  split; [by unfold filtered; rewrite length_map|]. split.
  { intros i j c c'. by apply build_n_coactives_array_mono. }
  split; [by apply number_of_contrasts_mono|]. split.
  - unfold number_of_contrasts. apply subseteq_size. intros k.
    rewrite elem_of_contrasts. intros (x' & Hx' & Hk).
    unfold filtered in Hx'. rewrite map_map in Hx'.
    apply list_elem_of_fmap in Hx' as (x & -> & _).
    apply elem_of_elements in Hk. set_solver.
  - f_equal. unfold filtered. rewrite !map_map. apply map_ext. intros x.
    fold (pyset (elements (keyset x ∩ keyset domainlist))).
    rewrite pyset_elements. set_solver.
Qed.

End FilterProofs.

Section ResamplingProofs.
Import MatrixBuilder Keycodes Examples.
Context {K : Type} `{Countable K}.
Implicit Type keycodes : list (list K).

Lemma insert_tuple_desc_perm key_lt (t : Q * K) l : insert_tuple_desc key_lt t l ≡ₚ t :: l.
Proof.
  induction l as [|u l IH]; simpl; [done|].
  destruct (tuple_lt key_lt u t); [done|]. by rewrite IH, Permutation_swap.
Qed.

Lemma sorted_tuples_desc_perm key_lt (l : list (Q * K)) : sorted_tuples_desc key_lt l ≡ₚ l.
Proof.
  induction l as [|t l IH]; simpl; [done|].
  by rewrite insert_tuple_desc_perm, IH.
Qed.

Lemma slice_to_take {A} (l : list A) (stop : Z) :
  slice_to l stop
  = take (if (0 <=? stop)%Z then Z.to_nat stop else Z.to_nat (Z.of_nat (length l) + stop)) l.
Proof. unfold slice_to. by destruct (0 <=? stop)%Z. Qed.

(** The contrasts of the regions cut down to a set [S] of their contrasts
    are those of [S]. *)
Lemma contrasts_of_selection keycodes (S : gset K) :
  S ⊆ keyset (foldl (fun acc x => acc ++ x) [] keycodes) →
  keyset (foldl (fun acc x => acc ++ x) []
            (map elements (map (fun x => S ∩ keyset x) keycodes))) = S.
Proof.
  intros HS. apply set_eq. intros k. rewrite elem_of_contrasts. split.
  - intros (x' & Hx' & Hk). rewrite map_map in Hx'.
    apply list_elem_of_fmap in Hx' as (x & -> & _). apply elem_of_elements in Hk. set_solver.
  - intros Hk. destruct (proj1 (elem_of_contrasts _ _) (HS _ Hk)) as (x & Hx & Hkx).
    exists (elements (S ∩ keyset x)). split.
    + rewrite map_map. apply list_elem_of_fmap. by exists x.
    + apply elem_of_elements. unfold keyset. set_solver.
Qed.

(** With [n] draws for [n] contrasts, [select_n_random_keycodes] keeps a set
    of exactly [min(nstudies, N)] of the [N] contrasts (of [N + nstudies]
    for a negative [nstudies]) and cuts every region down to it; it raises
    [IndexError] exactly when that number is 0, so for [nstudies = 0] and
    for regions without contrasts; and from [nstudies >= N] on it returns
    the regions themselves. *)
Theorem select_n_random_keycodes_sample (rand : nat → list Q) key_lt keycodes nstudies :
  (∀ n, length (rand n) = n) →
  let N := number_of_contrasts keycodes in
  let kept := if (0 <=? nstudies)%Z then Z.to_nat nstudies `min` N
              else Z.to_nat (Z.of_nat N + nstudies) in
  (kept = 0 → select_n_random_keycodes rand key_lt keycodes nstudies = Raise IndexError) ∧
  (kept ≠ 0 →
     ∃ S : gset K,
       size S = kept ∧
       (∀ k, k ∈ S → ∃ x, x ∈ keycodes ∧ k ∈ x) ∧
       select_n_random_keycodes rand key_lt keycodes nstudies
       = Ok (map (fun x => S ∩ keyset x) keycodes) ∧
       number_of_contrasts (map elements (map (fun x => S ∩ keyset x) keycodes)) = kept ∧
       ((Z.of_nat N ≤ nstudies)%Z → map (fun x => S ∩ keyset x) keycodes = map keyset keycodes)).
Proof.
  intros Hrand N kept. unfold select_n_random_keycodes.
  set (U := keyset (foldl _ [] keycodes)).
  set (sorted := sorted_tuples_desc key_lt (zip (rand (size U)) (elements U))).
  assert (sorted.*2 ≡ₚ elements U) as Hperm.
  { unfold sorted. rewrite sorted_tuples_desc_perm. rewrite snd_zip; [done|].
    rewrite Hrand. unfold size, set_size. simpl. lia. }
  assert (length sorted = N) as Hlen.
  { rewrite <- (length_fmap snd), Hperm. done. }
  assert (NoDup sorted.*2) as Hnodup by (rewrite Hperm; apply NoDup_elements).
  rewrite slice_to_take, Hlen. fold kept.
  set (count := if (0 <=? nstudies)%Z then Z.to_nat nstudies else Z.to_nat (Z.of_nat N + nstudies)).
  assert (length (take count sorted) = kept) as Htake.
  { rewrite length_take, Hlen. unfold count, kept. destruct (0 <=? nstudies)%Z eqn:Hsign; lia. }
  split.
  - intros Hzero. rewrite Hzero in Htake. by destruct (take count sorted).
  - intros Hpos. set (S := keyset (map snd (take count sorted))).
    assert (S ⊆ U) as HSU.
    { intros k Hk. apply elem_of_list_to_set in Hk.
      change (map snd (take count sorted)) with ((take count sorted).*2) in Hk.
      rewrite fmap_take in Hk. apply elem_of_take in Hk as (i & Hi & _).
      apply list_elem_of_lookup_2 in Hi. rewrite Hperm in Hi. by apply elem_of_elements in Hi. }
    assert (size S = kept) as Hsize.
    { unfold S, keyset. rewrite size_list_to_set.
      - by rewrite length_map.
      - change (map snd (take count sorted)) with ((take count sorted).*2).
        rewrite fmap_take. eapply sublist_NoDup; [done | apply sublist_take]. }
    exists S. split; [done|]. split; [|split; [|split]].
    + intros k Hk. by apply elem_of_contrasts, HSU.
    + destruct (take count sorted) eqn:Hsel; [simpl in Htake; lia|]. done.
    + unfold number_of_contrasts. by rewrite contrasts_of_selection.
    + intros Hall. assert (S = U) as ->.
      { apply set_subseteq_size_eq; [done|]. rewrite Hsize. change (size U) with N.
        unfold kept. destruct (Z.leb_spec 0 nstudies); lia. }
      apply map_ext_in. intros x Hx. apply list_elem_of_In in Hx.
      pose proof (keyset_subseteq_contrasts keycodes x Hx). set_solver.
Qed.

(** One iteration of [build_average_graph_from_random_keycodes] hands
    [build_jaccard] the co-activation array rather than the regions, so each
    row of counts is read as a set: every diagonal entry of its matrix is 1,
    also for a region without contrasts. *)
Theorem iteration_jaccard_diagonal (select_n_keys : list (gset K)) i :
  i < length select_n_keys →
  ∃ v, mget (iteration_jaccard select_n_keys) i i = Some v ∧ (v == 1)%Q.
Proof.
  intros Hi. unfold iteration_jaccard.
  set (C := build_n_coactives_array (map elements select_n_keys)).
  assert (shape (length select_n_keys) (length select_n_keys) C) as [HlenC Hrows].
  { unfold C. rewrite <- (length_map elements). apply shape_build_n_coactives_array. }
  destruct (lookup_lt_is_Some_2 C i) as [row Hrow]; [lia|].
  exists (jaccard_index row row). rewrite build_jaccard_cell, Hrow. split; [done|].
  apply jaccard_index_diag. rewrite Forall_forall in Hrows.
  assert (length row = length select_n_keys) as Hlen
    by by apply Hrows, list_elem_of_lookup_2 with i.
  destruct row as [|c row]; [simpl in Hlen; lia|]. unfold pyset. set_solver.
Qed.

End ResamplingProofs.

Section KeycodesExamples.
Import MatrixBuilder Keycodes Examples Samples.

Lemma number_of_contrasts_bounds_witness :
  mget (build_n_coactives_array three_regions) 0 1 = Some 2%Z ∧
  mget (build_n_coactives_array three_regions) 0 0 = Some 3%Z ∧
  mget (build_n_coactives_array three_regions) 1 1 = Some 3%Z ∧
  (3 + 3 - 2 ≤ Z.of_nat (number_of_contrasts three_regions))%Z ∧
  (3 ≤ Z.of_nat (number_of_contrasts three_regions))%Z.
Proof.
  assert (mget (build_n_coactives_array three_regions) 0 1 = Some 2%Z) as H01
    by (vm_compute; reflexivity).
  assert (mget (build_n_coactives_array three_regions) 0 0 = Some 3%Z) as H00
    by (vm_compute; reflexivity).
  assert (mget (build_n_coactives_array three_regions) 1 1 = Some 3%Z) as H11
    by (vm_compute; reflexivity).
  split; [exact H01|]. split; [exact H00|]. split; [exact H11|].
  exact (proj1 (number_of_contrasts_bounds three_regions) 0 1 2%Z 3%Z 3%Z H01 H00 H11).
Defined.

Lemma domain_filter_keycodes_shrinks_witness :
  memory_studies !! "Memory" = Some [1; 2; 5]%Z ∧
  ∃ filtered,
    domain_filter_keycodes three_regions memory_studies "Memory" = Ok filtered ∧
    length filtered = length three_regions ∧
    number_of_contrasts (map elements filtered) ≤ number_of_contrasts three_regions ∧
    domain_filter_keycodes (map elements filtered) memory_studies "Memory" = Ok filtered.
Proof.
  assert (memory_studies !! "Memory" = Some [1; 2; 5]%Z) as Hdomain
    by (vm_compute; reflexivity).
  split; [exact Hdomain|].
  destruct (proj2 (domain_filter_keycodes_shrinks three_regions memory_studies "Memory")
              [1; 2; 5]%Z Hdomain)
    as (filtered & Hok & Hlen & _ & Hfewer & _ & Hagain).
  exists filtered. split; [exact Hok|]. split; [exact Hlen|]. split; [exact Hfewer|].
  exact Hagain.
Defined.

Lemma length_falling_draws n : length (falling_draws n) = n.
Proof. unfold falling_draws. by rewrite length_map, length_seq. Qed.

Lemma select_n_random_keycodes_sample_witness :
  (∀ n, length (falling_draws n) = n) ∧
  Z.to_nat 2 `min` number_of_contrasts three_regions ≠ 0 ∧
  ∃ S : gset Z,
    size S = Z.to_nat 2 `min` number_of_contrasts three_regions ∧
    select_n_random_keycodes falling_draws Z.ltb three_regions 2
    = Ok (map (fun x => S ∩ keyset x) three_regions).
Proof.
  assert (Z.to_nat 2 `min` number_of_contrasts three_regions ≠ 0) as Hkept
    by (vm_compute; discriminate).
  split; [exact length_falling_draws|]. split; [exact Hkept|].
  destruct (proj2 (select_n_random_keycodes_sample falling_draws Z.ltb three_regions 2
                     length_falling_draws) Hkept)
    as (S & Hsize & _ & Hok & _).
  exists S. split; [exact Hsize | exact Hok].
Defined.

Lemma iteration_jaccard_diagonal_witness :
  0 < length resampled ∧
  ∃ v, mget (iteration_jaccard resampled) 0 0 = Some v ∧ (v == 1)%Q.
Proof.
  assert (0 < length resampled) as Hlt by (vm_compute; lia).
  split; [exact Hlt|]. exact (iteration_jaccard_diagonal resampled 0 Hlt).
Defined.

End KeycodesExamples.

(** ** Labels and partitions *)

Section UtilityProofs.
Import Utility.

Lemma substring_prefix (n : nat) (x : string) :
  ∃ suffix, x = String.append (String.substring 0 n x) suffix ∧
            String.length (String.substring 0 n x) = n `min` String.length x ∧
            String.length suffix = String.length x - n.
Proof.
  revert n. induction x as [|c x IH]; intros [|n]; simpl.
  - by exists EmptyString.
  - by exists EmptyString.
  - by exists (String c x).
  - destruct (IH n) as (suffix & Hx & Hlen & Hsuf). exists suffix.
    split; [|split; [f_equal; exact Hlen | exact Hsuf]].
    change (String c x = String c (String.append (String.substring 0 n x) suffix)).
    by f_equal.
Qed.

Lemma build_region_labels_dict_loop (regionlist : list string) trim i0 (d : gmap nat string) idx :
  for_enum (fun relabel_dict idx x => <[idx := str_slice_to x (- trim)]> relabel_dict)
           i0 regionlist d !! idx
  = if decide (i0 ≤ idx < i0 + length regionlist)
    then (fun x => str_slice_to x (- trim)) <$> regionlist !! (idx - i0)
    else d !! idx.
Proof.
  revert i0 d. induction regionlist as [|x l IH]; intros i0 d; simpl.
  - case_decide; [lia | done].
  - rewrite IH. destruct (decide (idx = i0)) as [->|Hne].
    + rewrite decide_False by lia. rewrite decide_True by lia.
      rewrite Nat.sub_diag. simpl. by rewrite lookup_insert_eq.
    + rewrite lookup_insert_ne by done.
      destruct (decide (S i0 ≤ idx < S i0 + length l)).
      * rewrite decide_True by lia.
        replace (idx - i0) with (S (idx - S i0)) by lia. done.
      * by rewrite decide_False by lia.
Qed.

(** [build_region_labels_dict] maps exactly the positions of the region
    names, each to a prefix of its name. A positive [trim] cuts that many
    characters off the end (all of them from a shorter name); [trim = 0]
    does not keep the names but empties every label, as [x[:-0]] is
    [x[:0]]; a negative [trim] keeps the first [-trim] characters. *)
Theorem build_region_labels_dict_prefix (regionlist : list string) (trim : Z) (idx : nat) :
  let relabel_dict := build_region_labels_dict regionlist trim in
  (relabel_dict !! idx = None ↔ length regionlist ≤ idx) ∧
  (∀ x, regionlist !! idx = Some x →
     ∃ label suffix,
       relabel_dict !! idx = Some label ∧
       x = String.append label suffix ∧
       ((0 < trim)%Z → String.length suffix = Z.to_nat trim `min` String.length x) ∧
       (trim = 0%Z → label = EmptyString) ∧
       ((trim < 0)%Z → String.length label = Z.to_nat (- trim) `min` String.length x)).
Proof.
  intros relabel_dict.
  assert (relabel_dict !! idx = (fun x => str_slice_to x (- trim)) <$> regionlist !! idx)
    as Hcell.
  { unfold relabel_dict, build_region_labels_dict. rewrite build_region_labels_dict_loop.
    rewrite Nat.sub_0_r. case_decide as Hidx; [done|].
    rewrite lookup_empty. symmetry. rewrite fmap_None. apply lookup_ge_None. lia. }
  split.
  { rewrite Hcell, fmap_None. apply lookup_ge_None. }
  intros x Hx. rewrite Hcell, Hx. simpl. unfold str_slice_to.
  destruct (Z.leb_spec 0 (- trim)) as [Hsign|Hsign].
  - destruct (substring_prefix (Z.to_nat (- trim)) x) as (suffix & Hsplit & Hlen & Hsuf).
    eexists _, suffix. split; [done|]. split; [done|]. split; [lia|]. split.
    + intros ->. simpl. by destruct x.
    + done.
  - destruct (substring_prefix (Z.to_nat (Z.of_nat (String.length x) + - trim)) x)
      as (suffix & Hsplit & Hlen & Hsuf).
    eexists _, suffix. split; [done|]. split; [done|]. split; [lia|]. split; lia.
Qed.

End UtilityProofs.

Section PartitionProofs.
Import Utility.
Context {K Cm : Type} `{Countable K} `{Countable Cm}.
Implicit Type d : gmap K Cm.

Lemma make_brainx_style_partition_blocks d :
  make_brainx_style_partition d
  = map (fun x => filter (fun y => d !! y = Some x) (dict_keys d))
        (elements (list_to_set (dict_values d) : gset Cm)).
Proof. unfold make_brainx_style_partition. by rewrite foldl_snoc. Qed.

Lemma elem_of_dict_keys d y : y ∈ dict_keys d ↔ is_Some (d !! y).
Proof.
  unfold dict_keys. rewrite list_elem_of_fmap. split.
  - intros ([y' c] & -> & Hin). apply elem_of_map_to_list in Hin. by exists c.
  - intros [c Hc]. exists (y, c). split; [done|]. by apply elem_of_map_to_list.
Qed.

Lemma elem_of_dict_values d c : c ∈ dict_values d ↔ ∃ y, d !! y = Some c.
Proof.
  unfold dict_values. rewrite list_elem_of_fmap. split.
  - intros ([y c'] & -> & Hin). apply elem_of_map_to_list in Hin. by exists y.
  - intros [y Hy]. exists (y, c). split; [done|]. by apply elem_of_map_to_list.
Qed.

(** Keys sorted into the classes of distinct labels: every key with one of
    the labels appears once. *)
Lemma classes_perm (g : K → option Cm) (vals : list Cm) (keys : list K) :
  NoDup vals →
  (∀ y, y ∈ keys → ∃ x, x ∈ vals ∧ g y = Some x) →
  concat (map (fun x => filter (fun y => g y = Some x) keys) vals) ≡ₚ keys.
Proof.
  intros Hnodup. revert keys. induction Hnodup as [|x vals Hx Hnodup IH]; intros keys Hall.
  - destruct keys as [|y keys]; [done|].
    destruct (Hall y) as (x & Hx & _); [left|]. by apply elem_of_nil in Hx.
  - simpl.
    transitivity (filter (fun y => g y = Some x) keys ++ filter (fun y => ¬ g y = Some x) keys);
      [|apply filter_app_complement].
    apply Permutation_app; [done|].
    assert (map (fun x' => filter (fun y => g y = Some x') keys) vals
            = map (fun x' => filter (fun y => g y = Some x')
                               (filter (fun y => ¬ g y = Some x) keys)) vals) as ->.
    { apply map_ext_in. intros x' Hx'. apply list_elem_of_In in Hx'.
      rewrite list_filter_filter. apply list_filter_iff. intros y. split; [|naive_solver].
      intros Hy. split; [done|]. intros Hy'. congruence. }
    apply IH. intros y Hy. apply list_elem_of_filter in Hy as [Hne Hy].
    destruct (Hall y Hy) as (x' & Hx' & Hg). exists x'. split; [|done].
    apply elem_of_cons in Hx' as [->|]; done.
Qed.

(** [make_brainx_style_partition] turns a node-to-community dictionary into
    a partition of its keys: one block per distinct community and none of
    them empty, every key in exactly one block, and two keys in the same
    block exactly when they have the same community. *)
Theorem make_brainx_style_partition_partition d :
  let bx_part := make_brainx_style_partition d in
  length bx_part = size (list_to_set (dict_values d) : gset Cm) ∧
  Forall (fun sub_part => sub_part ≠ []) bx_part ∧
  concat bx_part ≡ₚ dict_keys d ∧
  NoDup (concat bx_part) ∧
  (∀ y y' c, d !! y = Some c →
     (d !! y' = Some c ↔ ∃ sub_part, sub_part ∈ bx_part ∧ y ∈ sub_part ∧ y' ∈ sub_part)).
Proof.
  intros bx_part. unfold bx_part. rewrite make_brainx_style_partition_blocks.
  set (vals := elements (list_to_set (dict_values d) : gset Cm)).
  assert (∀ c, c ∈ vals ↔ ∃ y, d !! y = Some c) as Hvals.
  { intros c. unfold vals. rewrite elem_of_elements, elem_of_list_to_set.
    apply elem_of_dict_values. }
  assert (concat (map (fun x => filter (fun y => d !! y = Some x) (dict_keys d)) vals)
          ≡ₚ dict_keys d) as Hperm.
  { apply classes_perm; [apply NoDup_elements|].
    intros y [c Hc]%elem_of_dict_keys. exists c. split; [|done]. apply Hvals. by exists y. }
  split; [by rewrite length_map|]. split; [|split; [done|split]].
  - apply Forall_forall. intros sub_part Hsub.
    apply list_elem_of_fmap in Hsub as (x & -> & Hx). apply Hvals in Hx as [y Hy].
    intros Hnil. assert (y ∈ filter (fun y => d !! y = Some x) (dict_keys d)) as Hin.
    { apply list_elem_of_filter. split; [done|]. apply elem_of_dict_keys. by exists x. }
    rewrite Hnil in Hin. by apply elem_of_nil in Hin.
  - rewrite Hperm. unfold dict_keys. apply NoDup_fst_map_to_list.
  - intros y y' c Hy. split.
    + intros Hy'. exists (filter (fun y => d !! y = Some c) (dict_keys d)). split.
      * apply list_elem_of_fmap. exists c. split; [done|]. apply Hvals. by exists y.
      * split; apply list_elem_of_filter; (split; [done|]); apply elem_of_dict_keys; by exists c.
    + intros (sub_part & Hsub & Hin & Hin').
      apply list_elem_of_fmap in Hsub as (x & -> & _).
      apply list_elem_of_filter in Hin as [Hx _]. apply list_elem_of_filter in Hin' as [Hx' _].
      congruence.
Qed.

End PartitionProofs.

Section UtilityExamples.
Import Utility Samples.

Lemma build_region_labels_dict_prefix_witness :
  region_names !! 0 = Some "Amygdala_left" ∧ (0 < 5)%Z ∧
  ∃ label suffix,
    build_region_labels_dict region_names 5 !! 0 = Some label ∧
    "Amygdala_left" = String.append label suffix ∧
    String.length suffix = Z.to_nat 5 `min` String.length "Amygdala_left".
Proof.
  assert (0 < 5)%Z as Htrim by lia.
  split; [reflexivity|]. split; [exact Htrim|].
  destruct (proj2 (build_region_labels_dict_prefix region_names 5 0) "Amygdala_left" eq_refl)
    as (label & suffix & Hlabel & Hsplit & Hcut & _).
  exists label, suffix. split; [exact Hlabel|]. split; [exact Hsplit | exact (Hcut Htrim)].
Defined.

Lemma make_brainx_style_partition_partition_witness :
  communities !! 0 = Some 0 ∧ communities !! 2 = Some 0 ∧
  ∃ sub_part, sub_part ∈ make_brainx_style_partition communities ∧
              0 ∈ sub_part ∧ 2 ∈ sub_part.
Proof.
  assert (communities !! 0 = Some 0) as H0 by (vm_compute; reflexivity).
  assert (communities !! 2 = Some 0) as H2 by (vm_compute; reflexivity).
  split; [exact H0|]. split; [exact H2|].
  exact (proj1 (proj2 (proj2 (proj2 (proj2 (make_brainx_style_partition_partition communities))))
                  0 2 0 H0) H2).
Defined.

End UtilityExamples.

(** ** Ranking of metric values *)

Section MetricsProofs.
Import Thresholder Metrics.
Context {K : Type}.
Implicit Type items : list (K * Q).

Lemma insert_by_value_perm (item : K * Q) l : insert_by_value item l ≡ₚ item :: l.
Proof.
  induction l as [|other l IH]; simpl; [done|].
  destruct (flt other.2 item.2); [|done]. by rewrite IH, Permutation_swap.
Qed.

Lemma sorted_by_value_perm items : sorted_by_value items ≡ₚ items.
Proof.
  induction items as [|item l IH]; simpl; [done|].
  by rewrite insert_by_value_perm, IH.
Qed.

Lemma insert_by_value_sorted (item : K * Q) l :
  StronglySorted (fun a b => (a.2 <= b.2)%Q) l →
  StronglySorted (fun a b => (a.2 <= b.2)%Q) (insert_by_value item l).
Proof.
  induction 1 as [|other l Hl IH Hother]; simpl.
  - repeat constructor.
  - destruct (flt other.2 item.2) eqn:Hcmp.
    + apply flt_spec in Hcmp. constructor; [done|].
      rewrite insert_by_value_perm. constructor; [by apply Qlt_le_weak | done].
    + apply flt_false in Hcmp. constructor; [by constructor|].
      constructor; [done|]. eapply Forall_impl; [exact Hother|].
      intros u Hu. simpl in Hu. by eapply Qle_trans.
Qed.

(** [sorted(items, key=lambda item: item[1])] is the items by ascending
    value. *)
Lemma sorted_by_value_sorted items :
  StronglySorted (fun a b => (a.2 <= b.2)%Q) (sorted_by_value items).
Proof.
  induction items as [|item l IH]; simpl; [constructor|].
  by apply insert_by_value_sorted.
Qed.

(** The loop [for y in range(top_n): tops.append(tail[y])] copies the first
    [top_n] items of [tail], and fails when there are fewer. *)
Lemma top_items_loop (tail : list (K * Q)) (start count : nat) (tops : list (K * Q)) :
  for_each (fun tops y => item ← index tail y; Ok (tops ++ [item])) (seq start count) tops
  = if decide (count = 0 ∨ start + count ≤ length tail)
    then Ok (tops ++ take count (drop start tail))
    else Raise IndexError.
Proof.
  revert start tops. induction count as [|count IH]; intros start tops; cbn [seq for_each].
  - destruct (decide _) as [_|Hn]; [by rewrite take_0, app_nil_r | destruct Hn; by left].
  - destruct (tail !! start) as [item|] eqn:Hitem.
    + assert (index tail start = Ok item) as -> by (unfold index; by rewrite Hitem).
      cbn [mbind result_bind]. rewrite IH.
      pose proof (lookup_lt_Some _ _ _ Hitem) as Hlt.
      rewrite (drop_S _ _ _ Hitem). simpl. rewrite <- app_assoc. simpl.
      destruct (decide (count = 0)) as [->|Hpos].
      * rewrite !decide_True by lia. done.
      * destruct (decide (S start + count ≤ length tail)).
        -- rewrite !decide_True by lia. done.
        -- rewrite !decide_False by lia. done.
    + assert (index tail start = Raise IndexError) as -> by (unfold index; by rewrite Hitem).
      cbn [mbind result_bind]. apply lookup_ge_None in Hitem.
      by rewrite decide_False by lia.
Qed.

(** The ranking of [run_basic_metrics] and [run_weighted_metrics] raises
    [IndexError] exactly when [top_n] exceeds the number of items. Otherwise
    it returns [top_n] of the items (none for [top_n <= 0]) in descending
    order of value, and no item left out has a larger value than a returned
    one. *)
Theorem top_items_ranking items (top_n : Z) :
  ((Z.of_nat (length items) < top_n)%Z → top_items items top_n = Raise IndexError) ∧
  ((top_n ≤ Z.of_nat (length items))%Z →
     ∃ tops rest,
       top_items items top_n = Ok tops ∧
       length tops = Z.to_nat top_n ∧
       tops ++ rest ≡ₚ items ∧
       StronglySorted (fun a b => (b.2 <= a.2)%Q) tops ∧
       (∀ r t, r ∈ rest → t ∈ tops → (r.2 <= t.2)%Q)).
Proof.
  unfold top_items. rewrite top_items_loop. simpl.
  set (sorted_x := sorted_by_value items).
  assert (length sorted_x = length items) as Hlen
    by apply Permutation_length, sorted_by_value_perm.
  assert (length (slice_from sorted_x (- top_n)) = length items `min` Z.to_nat top_n
          ∨ (top_n ≤ 0)%Z) as Htail.
  { unfold slice_from. destruct (Z.leb_spec 0 (- top_n)); [right; lia|].
    left. rewrite length_drop, Hlen. lia. }
  split.
  - intros Hmany. rewrite decide_False; [done|]. lia.
  - intros Hfew. rewrite decide_True by lia. rewrite drop_0.
    destruct (Z.leb_spec top_n 0) as [Hnone|Hsome].
    + exists [], items. replace (Z.to_nat top_n) with 0 by lia. rewrite take_0.
      split; [done|]. split; [done|]. split; [done|]. split; [constructor|].
      intros r t _ Ht. by apply elem_of_nil in Ht.
    + unfold slice_from. rewrite (proj2 (Z.leb_gt 0 (- top_n))) by lia.
      rewrite Hlen. set (cut := Z.to_nat (Z.of_nat (length items) + - top_n)).
      rewrite take_ge by (rewrite length_drop; lia).
      exists (reverse (drop cut sorted_x)), (take cut sorted_x).
      pose proof (sorted_by_value_sorted items) as Hsorted. fold sorted_x in Hsorted.
      rewrite <- (take_drop cut sorted_x) in Hsorted.
      apply strongly_sorted_app in Hsorted as (_ & Hdrop & Hcross).
      split; [done|]. split; [rewrite length_reverse, length_drop; lia|]. split.
      { rewrite reverse_Permutation, Permutation_app_comm, take_drop.
        apply sorted_by_value_perm. }
      split.
      { by apply (strongly_sorted_reverse (fun a b => (a.2 <= b.2)%Q)). }
      intros r t Hr Ht. exact (Hcross r t Hr (proj1 (elem_of_reverse _ _) Ht)).
Qed.

End MetricsProofs.

Section MetricsExamples.
Import Metrics Samples.

Lemma top_items_ranking_witness :
  (2 ≤ Z.of_nat (length centralities))%Z ∧
  ∃ tops rest,
    top_items centralities 2 = Ok tops ∧
    length tops = Z.to_nat 2 ∧
    tops ++ rest ≡ₚ centralities ∧
    StronglySorted (fun a b => (b.2 <= a.2)%Q) tops ∧
    (∀ r t, r ∈ rest → t ∈ tops → (r.2 <= t.2)%Q).
Proof.
  assert (2 ≤ Z.of_nat (length centralities))%Z as Hfew by (vm_compute; discriminate).
  split; [exact Hfew|]. exact (proj2 (top_items_ranking centralities 2) Hfew).
Defined.

End MetricsExamples.

(** ** Graph thresholder: what is kept *)

Section ThresholderCounts.
Import Thresholder NetworkX.
Context {V : Type} `{EqDecision V}.
Implicit Type G : Graph V Q.

(** In a list in descending order, everything up to a position is at least
    the element there, and everything behind it at most. *)
Lemma sorted_desc_around (l : list Q) (k : nat) (t : Q) :
  StronglySorted (fun a b => (b <= a)%Q) l → l !! k = Some t →
  Forall (fun w => (t <= w)%Q) (take (S k) l) ∧ Forall (fun w => (w <= t)%Q) (drop (S k) l).
Proof.
  intros Hsorted Hk. rewrite <- (take_drop_middle l k t Hk) in Hsorted.
  apply strongly_sorted_app in Hsorted as (_ & Htail & Hcross).
  apply StronglySorted_inv in Htail as [_ Hbehind].
  split; [|done]. rewrite (take_S_r _ _ _ Hk). apply Forall_app. split.
  - apply Forall_forall. intros w Hw. apply (Hcross w t Hw). left.
  - repeat constructor. apply Qle_refl.
Qed.

(** When the selection index is in bounds, [applycost_to_g] returns a graph
    on the same nodes with at least [n_edges_keep + 2] edges, two more than
    the count [n_edges_keep = int(C(N,2) * cost)] it computes from the cost
    in binary64, and with exactly that many when no two edges have the same
    weight. *)
Theorem applycost_to_g_edge_count G cost n_edges_keep :
  well_formed G →
  let N := number_of_nodes G in
  py_int (fmul64 (of_Z (Z.of_nat (N * (N - 1) / 2))) (Fin cost)) = Ok n_edges_keep →
  (0 ≤ n_edges_keep + 1 < Z.of_nat (number_of_edges G))%Z →
  ∃ G_cost,
    applycost_to_g G cost = Ok G_cost ∧
    nodes G_cost = nodes G ∧
    (n_edges_keep + 2 ≤ Z.of_nat (number_of_edges G_cost))%Z ∧
    ((∀ e e', e ∈ edges G → e' ∈ edges G → (e.2 == e'.2)%Q → e = e') →
     Z.of_nat (number_of_edges G_cost) = (n_edges_keep + 2)%Z).
Proof.
  intros HG N Hproduct Hidx.
  set (sorted_weights := sorted_desc (edges G).*2).
  destruct (getitem_in_bounds sorted_weights (n_edges_keep + 1)) as (t & Ht & Hget).
  { unfold sorted_weights. rewrite length_sorted_desc, length_fmap.
    unfold number_of_edges in Hidx. lia. }
  exists (mkGraph (nodes G) (filter (fun e => flt e.2 t = false) (edges G))).
  split.
  { rewrite applycost_to_g_unfold by done. cbv zeta. fold N. rewrite Hproduct.
    cbn [mbind result_bind]. fold sorted_weights. by rewrite Hget. }
  split; [done|]. unfold number_of_edges. cbn [edges].
  set (k := Z.to_nat (n_edges_keep + 1)) in *.
  destruct (sorted_desc_around sorted_weights k t (sorted_desc_sorted _) Ht) as [Hfront Hback].
  assert (length (filter (fun e => flt e.2 t = false) (edges G))
          = S k + length (filter (fun w => flt w t = false) (drop (S k) sorted_weights)))
    as Hcount.
  { assert (length (filter (fun e => flt e.2 t = false) (edges G))
            = length (filter (fun w => flt w t = false) (edges G).*2)) as ->
      by (symmetry; apply (length_filter_snd (fun w => flt w t) false)).
    rewrite <- (sorted_desc_perm (edges G).*2). fold sorted_weights.
    rewrite <- (take_drop (S k) sorted_weights) at 1.
    rewrite filter_app, length_app. f_equal.
    rewrite filter_all.
    - rewrite length_take. apply lookup_lt_Some in Ht. lia.
    - intros w Hw. rewrite Forall_forall in Hfront. by apply flt_false, Hfront. }
  split; [lia|]. intros Hdistinct.
  assert (filter (fun w => flt w t = false) (drop (S k) sorted_weights) = []) as Hnone.
  { destruct (filter (fun w => flt w t = false) (drop (S k) sorted_weights))
      as [|w rest] eqn:Hrest; [done|]. exfalso.
    assert (w ∈ filter (fun w => flt w t = false) (drop (S k) sorted_weights)) as Hw
      by (rewrite Hrest; left).
    apply list_elem_of_filter in Hw as [Hkeep Hw]. apply flt_false in Hkeep.
    rewrite Forall_forall in Hback. pose proof (Hback w Hw) as Hle.
    assert (w == t)%Q as Heq by by apply Qle_antisym.
    (* two weights equal to the threshold *)
    assert (2 ≤ length (filter (fun e => Qeq_bool e.2 t = true) (edges G))) as Htwo.
    { assert (length (filter (fun e => Qeq_bool e.2 t = true) (edges G))
              = length (filter (fun w => Qeq_bool w t = true) (edges G).*2)) as ->
        by (symmetry; apply (length_filter_snd (fun w => Qeq_bool w t) true)).
      rewrite <- (sorted_desc_perm (edges G).*2). fold sorted_weights.
      rewrite <- (take_drop_middle sorted_weights k t Ht).
      rewrite filter_app, filter_cons_True by (by apply Qeq_bool_iff).
      rewrite length_app. cbn [length].
      match goal with
      | |- context [S (length ?l)] =>
          assert (w ∈ l) as Hin
            by (apply list_elem_of_filter; split; [by apply Qeq_bool_iff | done]);
          destruct l; [by apply elem_of_nil in Hin|]
      end.
      simpl. lia. }
    pose proof (NoDup_filter (fun e => Qeq_bool e.2 t = true) _ (NoDup_edges G HG)) as Hnodup.
    destruct (filter (fun e => Qeq_bool e.2 t = true) (edges G)) as [|e [|e' l]] eqn:Hf;
      [simpl in Htwo; lia | simpl in Htwo; lia |].
    assert (e ∈ filter (fun e => Qeq_bool e.2 t = true) (edges G)) as He
      by (rewrite Hf; left).
    assert (e' ∈ filter (fun e => Qeq_bool e.2 t = true) (edges G)) as He'
      by (rewrite Hf; right; left).
    apply list_elem_of_filter in He as [Hwe He]. apply list_elem_of_filter in He' as [Hwe' He'].
    apply Qeq_bool_iff in Hwe, Hwe'.
    assert (e = e') as -> by (apply Hdistinct; [done..|]; by rewrite Hwe, Hwe').
    apply NoDup_cons in Hnodup as [Hnotin _]. destruct Hnotin. left. }
  rewrite Hcount, Hnone. simpl. lia.
Qed.

Lemma degree_filter (P : V * V * Q → Prop) `{!∀ e, Decision (P e)}
    (ns ns' : list V) (es : list (V * V * Q)) x :
  degree (mkGraph ns (filter P es)) x ≤ degree (mkGraph ns' es) x.
Proof.
  unfold degree. cbn [edges]. rewrite !list_filter_filter.
  assert (∀ (R : V * V * Q → Prop) `{!∀ e, Decision (R e)},
            length (filter (fun e => R e ∧ P e) es) ≤ length (filter R es)) as Hle.
  { intros R ?. induction es as [|e l IH]; [done|]. rewrite !filter_cons.
    destruct (decide (R e ∧ P e)) as [[HR _]|Hn].
    - rewrite decide_True by done. simpl. lia.
    - destruct (decide (R e)); simpl; lia. }
  pose proof (Hle (fun e => e.1.1 = x) _). pose proof (Hle (fun e => e.1.2 = x) _). lia.
Qed.

(** On a well-formed graph [remove_edges_by_weight] raises no error and
    returns a well-formed subgraph: its nodes are nodes of the input and
    its edges are edges of the input of weight at least the floor between
    nodes that are kept, so no degree goes up; a graph in which every node
    has degree at least 2 and every weight reaches the floor is returned
    as it is. *)
Theorem remove_edges_by_weight_subgraph G max_weight :
  well_formed G →
  ∃ G_removed,
    remove_edges_by_weight G max_weight = Ok G_removed ∧
    well_formed G_removed ∧
    (∀ x, x ∈ nodes G_removed → x ∈ nodes G) ∧
    (∀ e, e ∈ edges G_removed → e ∈ edges G ∧ (max_weight <= e.2)%Q) ∧
    (∀ x, degree G_removed x ≤ degree G x) ∧
    ((∀ x, x ∈ nodes G → 2 ≤ degree G x) → (∀ e, e ∈ edges G → (max_weight <= e.2)%Q) →
     G_removed = G).
Proof.
  intros HG. eexists. split; [by apply remove_edges_by_weight_spec|].
  set (keep := fun x => 2 ≤ degree G x).
  set (between := fun e : V * V * Q =>
                    Forall (fun x => 2 ≤ degree G x ∨ (e.1.1 ≠ x ∧ e.1.2 ≠ x)) (nodes G)).
  set (heavy := fun e : V * V * Q => flt e.2 max_weight = false).
  destruct HG as (Hnodup & Hends & Huniq).
  assert (∀ e, e ∈ filter between (filter heavy (edges G)) →
               e ∈ edges G ∧ (max_weight <= e.2)%Q ∧ keep e.1.1 ∧ keep e.1.2) as Hkept.
  { intros e He. apply list_elem_of_filter in He as [Hb He].
    apply list_elem_of_filter in He as [Hh He]. split; [done|].
    split; [by apply flt_false|]. unfold between in Hb. rewrite Forall_forall in Hb.
    destruct (Hends e He) as [H1 H2].
    destruct (Hb _ H1) as [?|[? _]]; [|done]. destruct (Hb _ H2) as [?|[_ ?]]; [|done]. done. }
  split; [|split; [|split; [|split]]].
  - split; [by apply NoDup_filter|]. cbn [nodes edges]. split.
    + intros e He. destruct (Hkept e He) as (Hin & _ & H1 & H2).
      destruct (Hends e Hin). split; by apply list_elem_of_filter.
    + intros i j e e' Hi Hj Hjoin.
      assert (NoDup (filter between (filter heavy (edges G)))) as Hnd.
      { do 2 apply NoDup_filter. apply NoDup_alt. intros a b c Ha Hb.
        apply (Huniq a b c c Ha Hb), joins_self. }
      assert (e' = e) as ->.
      { apply list_elem_of_lookup_2 in Hi, Hj.
        destruct (Hkept e Hi) as [Hin _]. destruct (Hkept e' Hj) as [Hin' _].
        apply list_elem_of_lookup in Hin as [a Ha]. apply list_elem_of_lookup in Hin' as [b Hb].
        pose proof (Huniq a b e e' Ha Hb Hjoin) as ->. congruence. }
      by eapply NoDup_lookup.
  - intros x Hx. cbn [nodes] in Hx. by apply list_elem_of_filter in Hx as [_ Hx].
  - intros e He. cbn [edges] in He. destruct (Hkept e He) as (? & ? & _). done.
  - intros x. etrans; [apply (degree_filter between _ (nodes G))|].
    destruct G as [ns es]. apply (degree_filter heavy).
  - intros Hdeg Hweights. destruct G as [ns es]. cbn [nodes edges] in *. f_equal.
    + by apply filter_all.
    + rewrite (filter_all heavy) by (intros e He; by apply flt_false, Hweights).
      apply filter_all. intros e He. apply Forall_forall. intros x Hx. left. by apply Hdeg.
Qed.

End ThresholderCounts.

Section ThresholderFailure.
Import Thresholder NetworkX.
Context {V : Type} `{EqDecision V}.
Implicit Type G : Graph V Q.

(** [l[i]] is an element of the list for [-len(l) <= i < len(l)] and an
    [IndexError] otherwise. *)
Lemma getitem_spec {A} (l : list A) (i : Z) :
  if decide (- Z.of_nat (length l) ≤ i < Z.of_nat (length l))%Z
  then ∃ x, x ∈ l ∧ getitem l i = Ok x
  else getitem l i = Raise IndexError.
Proof.
  unfold getitem, index. case_decide as Hi.
  - destruct (Z.leb_spec 0 i).
    + destruct (lookup_lt_is_Some_2 l (Z.to_nat i)) as [x Hx]; [lia|].
      exists x. rewrite Hx. split; [by eapply list_elem_of_lookup_2 | done].
    + destruct (Z.leb_spec (- Z.of_nat (length l)) i); [|lia].
      destruct (lookup_lt_is_Some_2 l (Z.to_nat (Z.of_nat (length l) + i))) as [x Hx]; [lia|].
      exists x. rewrite Hx. split; [by eapply list_elem_of_lookup_2 | done].
  - destruct (Z.leb_spec 0 i).
    + by rewrite (proj2 (lookup_ge_None l (Z.to_nat i))) by lia.
    + destruct (Z.leb_spec (- Z.of_nat (length l)) i); [lia | done].
Qed.

(** The ways of [applycost_to_g] on a well-formed graph with [m] edges.  A
    product [C(N,2) * cost] that overflows binary64 raises [OverflowError].
    Otherwise, with [n_edges_keep] the integer part of the product, the call
    fails when the selection index [n_edges_keep + 1] is outside
    [-m .. m-1], and then with an [IndexError]; so it returns for no cost on
    a graph without edges.  When it returns, the graph has the nodes of the
    input and some of its edges, and at least one of them: it never returns
    a graph without edges. *)
Theorem applycost_to_g_failure G cost :
  well_formed G →
  let N := number_of_nodes G in
  let product := fmul64 (of_Z (Z.of_nat (N * (N - 1) / 2))) (Fin cost) in
  let m := Z.of_nat (number_of_edges G) in
  (product = PInf ∨ product = NInf → applycost_to_g G cost = Raise OverflowError) ∧
  (∀ p, product = Fin p →
     let n_edges_keep := int_of_float p in
     ((m ≤ n_edges_keep + 1 ∨ n_edges_keep + 1 < - m)%Z →
      applycost_to_g G cost = Raise IndexError) ∧
     ((- m ≤ n_edges_keep + 1 < m)%Z →
      ∃ G_cost, applycost_to_g G cost = Ok G_cost ∧
                nodes G_cost = nodes G ∧
                (∀ e, e ∈ edges G_cost → e ∈ edges G) ∧
                edges G_cost ≠ [])) ∧
  product ≠ NaN.
Proof.
  intros HG N product m.
  rewrite applycost_to_g_unfold by done. cbv zeta. fold N. fold product.
  split; [|split].
  - by intros [Hp | Hp]; rewrite Hp.
  - intros p Hp. rewrite Hp. cbn [py_int mbind result_bind].
    set (n_edges_keep := int_of_float p).
    pose proof (getitem_spec (sorted_desc (edges G).*2) (n_edges_keep + 1)) as Hget.
    rewrite length_sorted_desc, length_fmap in Hget. fold (number_of_edges G) in Hget.
    fold m in Hget. split.
    + intros Hout. rewrite decide_False in Hget by lia. by rewrite Hget.
    + intros Hin. rewrite decide_True in Hget by lia. destruct Hget as (t & Ht & ->).
      eexists. split; [done|]. cbn [nodes edges]. split; [done|]. split.
      * intros e He. by apply list_elem_of_filter in He as [_ He].
      * rewrite sorted_desc_perm in Ht. apply list_elem_of_fmap in Ht as (e & -> & He).
        intros Hnone.
        assert (e ∈ filter (fun e' => flt e'.2 e.2 = false) (edges G)) as Hkept.
        { apply list_elem_of_filter. split; [|done]. apply flt_false, Qle_refl. }
        rewrite Hnone in Hkept. by apply elem_of_nil in Hkept.
  - unfold product, fmul64, of_Z. apply rounded_not_nan.
Qed.

End ThresholderFailure.

Section ThresholderCountsExamples.
Import Thresholder NetworkX Examples.

(** At the binary64 number nearest to 1/3 the count is 1, and all three
    edges of the triangle stay. *)
Lemma applycost_to_g_edge_count_witness :
  well_formed triangle ∧
  py_int (fmul64 (of_Z (Z.of_nat (3 * (3 - 1) / 2))) (Fin third)) = Ok 1%Z ∧
  (0 ≤ 1 + 1 < Z.of_nat (number_of_edges triangle))%Z ∧
  ∃ G_cost,
    applycost_to_g triangle third = Ok G_cost ∧
    nodes G_cost = nodes triangle ∧
    (1 + 2 ≤ Z.of_nat (number_of_edges G_cost))%Z.
Proof.
  assert (py_int (fmul64 (of_Z (Z.of_nat (3 * (3 - 1) / 2))) (Fin third)) = Ok 1%Z)
    as Hproduct by (vm_compute; reflexivity).
  assert (0 ≤ 1 + 1 < Z.of_nat (number_of_edges triangle))%Z as Hidx
    by (vm_compute; split; [discriminate | reflexivity]).
  split; [exact triangle_well_formed|]. split; [exact Hproduct|]. split; [exact Hidx|].
  destruct (applycost_to_g_edge_count triangle third 1 triangle_well_formed Hproduct Hidx)
    as (G_cost & Hok & Hnodes & Hcount & _).
  exists G_cost. split; [exact Hok|]. split; [exact Hnodes | exact Hcount].
Defined.

Lemma remove_edges_by_weight_subgraph_witness :
  well_formed lopsided_triangle ∧
  ∃ G_removed,
    remove_edges_by_weight lopsided_triangle 3 = Ok G_removed ∧
    well_formed G_removed ∧
    (∀ e, e ∈ edges G_removed → e ∈ edges lopsided_triangle ∧ (3 <= e.2)%Q).
Proof.
  split; [exact lopsided_triangle_well_formed|].
  destruct (remove_edges_by_weight_subgraph lopsided_triangle 3 lopsided_triangle_well_formed)
    as (G_removed & Hok & Hwf & _ & Hedges & _).
  exists G_removed. split; [exact Hok|]. split; [exact Hwf | exact Hedges].
Defined.

(** At the binary64 number nearest to 2/3 the product is 2, the index 3 is
    past the three weights of the triangle, and the call raises. *)
Lemma applycost_to_g_failure_witness :
  well_formed triangle ∧
  fmul64 (of_Z (Z.of_nat (3 * (3 - 1) / 2))) (Fin two_thirds) = Fin 2%Q ∧
  (Z.of_nat (number_of_edges triangle) ≤ int_of_float 2 + 1
   ∨ int_of_float 2 + 1 < - Z.of_nat (number_of_edges triangle))%Z ∧
  applycost_to_g triangle two_thirds = Raise IndexError.
Proof.
  assert (fmul64 (of_Z (Z.of_nat (3 * (3 - 1) / 2))) (Fin two_thirds) = Fin 2%Q) as Hproduct
    by (vm_compute; reflexivity).
  assert (Z.of_nat (number_of_edges triangle) ≤ int_of_float 2 + 1
          ∨ int_of_float 2 + 1 < - Z.of_nat (number_of_edges triangle))%Z as Hout
    by (left; vm_compute; discriminate).
  split; [exact triangle_well_formed|]. split; [exact Hproduct|]. split; [exact Hout|].
  exact (proj1 (proj1 (proj2 (applycost_to_g_failure triangle two_thirds triangle_well_formed))
                  2%Q Hproduct) Hout).
Defined.

End ThresholderCountsExamples.

(** ** Significance filter: what it can change *)

Section SignificanceEdges.
Import NpFloat Influence Significance Examples.
Context {lib : Library}.
Implicit Type C : list (list Z).

Lemma fdiv64_by_zero (a : Z) : is_nan_or_inf (fdiv64 (of_Z a) (of_Z 0)).
Proof. unfold fdiv64, of_Z. cbn [Qeq_bool]. apply fdiv_by_zero. Qed.

Lemma binom_pmf_nan_or_inf k m p : is_nan_or_inf p → binom_pmf k m p = NaN.
Proof. by destruct p. Qed.

Lemma verdict_nan C N alpha n x y :
  shape n n C → x < n → y < n →
  null_likelihood C N x y = NaN ∨ alternative_likelihood C N x y = NaN →
  verdict C N alpha x y = Ok false.
Proof.
  intros HC Hx Hy Hnan. rewrite (verdict_in_bounds C N alpha n HC) by done.
  unfold stat, likelihood_ratio.
  destruct Hnan as [-> | ->]; [done|]. by destruct (null_likelihood C N x y).
Qed.

(** The test of a pair can fail in one way only, the [ValueError] of
    [math.log10]. *)
Lemma verdict_raises C N alpha n x y e :
  shape n n C → x < n → y < n → verdict C N alpha x y = Raise e → e = ValueError.
Proof.
  intros HC Hx Hy. rewrite (verdict_in_bounds C N alpha n HC) by done.
  destruct (stat C N x y) as [s|e'] eqn:Hs; cbn [mbind result_bind]; [done|].
  intros [= <-]. by apply (stat_in_domain C N x y).
Qed.

(** On a square matrix [significant_connection_threshold] either fails with
    the [ValueError] of the logarithm, never with an [IndexError], or
    returns a matrix of the same shape in which every entry is the entry of
    the input or, off the diagonal, a zero. *)
Theorem significant_connection_threshold_only_zeroes n C N alpha :
  shape n n C →
  match significant_connection_threshold C N alpha with
  | Ok M =>
      shape n n M ∧
      ∀ i j, mget M i j = mget C i j ∨ (i ≠ j ∧ mget M i j = Some 0%Z)
  | Raise e => e = ValueError
  end.
Proof.
  intros HC. pose proof (significant_connection_threshold_spec C N alpha n HC) as Hspec.
  destruct (significant_connection_threshold C N alpha) as [M|e].
  - destruct Hspec as (HM & Hdiag & Hcells). split; [done|]. intros i j.
    destruct (decide (i < n ∧ j < n)) as [[Hi Hj]|Hout].
    + destruct (decide (i = j)) as [->|Hne]; [left; apply Hdiag|].
      destruct (Hcells i j Hi Hj Hne) as ([|] & _ & Hcell); [right | left]; done.
    + left. rewrite (mget_outside n n M), (mget_outside n n C) by (done || lia). done.
  - destruct Hspec as (x & y & Hx & Hy & _ & Hv). by apply (verdict_raises C N alpha n x y).
Qed.

(** A pair whose column region has no activation or all of them, or any
    pair when the total number of contrasts is 0, divides by zero: the
    statistic is NaN, which no threshold is below, so the entry is kept. *)
Theorem significant_connection_threshold_degenerate_kept n C N alpha M i j :
  shape n n C →
  significant_connection_threshold C N alpha = Ok M →
  i < n → j < n →
  entry C j j = 0%Z ∨ entry C j j = N ∨ N = 0%Z →
  mget M i j = mget C i j.
Proof.
  intros HC HM Hi Hj Hdeg.
  pose proof (significant_connection_threshold_spec C N alpha n HC) as Hspec.
  rewrite HM in Hspec. destruct Hspec as (_ & Hdiag & Hcells).
  destruct (decide (i = j)) as [->|Hne]; [apply Hdiag|].
  destruct (Hcells i j Hi Hj Hne) as (zero & Hv & Hcell).
  rewrite (verdict_nan C N alpha n i j) in Hv; [by injection Hv as <-|done..|].
  unfold null_likelihood, alternative_likelihood. cbv zeta.
  destruct Hdeg as [Hzero|[Hall| ->]].
  - right. rewrite Hzero.
    by rewrite (binom_pmf_nan_or_inf _ _ (fdiv64 _ (of_Z 0))) by apply fdiv64_by_zero.
  - right. rewrite Hall, Z.sub_diag.
    rewrite (binom_pmf_nan_or_inf _ _ (fdiv64 _ (of_Z 0))) by apply fdiv64_by_zero.
    by destruct (binom_pmf _ _ _).
  - left. by rewrite (binom_pmf_nan_or_inf _ _ (fdiv64 _ (of_Z 0))) by apply fdiv64_by_zero.
Qed.

End SignificanceEdges.

Section SignificanceEdgesExamples.
Import NpFloat Influence Significance Examples Reference.

Lemma nested_coactives_shape : shape 2 2 nested_coactives.
Proof. split; [done | by repeat constructor]. Qed.

Lemma silent_region_shape : shape 2 2 silent_region.
Proof. split; [done | by repeat constructor]. Qed.

Lemma significant_connection_threshold_only_zeroes_witness :
  shape 2 2 nested_coactives ∧
  match significant_connection_threshold (lib := library) nested_coactives 2 0 with
  | Ok M =>
      shape 2 2 M ∧
      ∀ i j, mget M i j = mget nested_coactives i j ∨ (i ≠ j ∧ mget M i j = Some 0%Z)
  | Raise e => e = ValueError
  end.
Proof.
  split; [exact nested_coactives_shape|].
  exact (significant_connection_threshold_only_zeroes (lib := library) 2 nested_coactives 2 0
           nested_coactives_shape).
Defined.

Lemma significant_connection_threshold_degenerate_kept_witness :
  shape 2 2 silent_region ∧ 0 < 2 ∧ 1 < 2 ∧
  (entry silent_region 1 1 = 0%Z ∨ entry silent_region 1 1 = 2%Z ∨ 2%Z = 0%Z) ∧
  ∃ M, significant_connection_threshold (lib := library) silent_region 2 0 = Ok M ∧
       mget M 0 1 = mget silent_region 0 1.
Proof.
  assert (significant_connection_threshold (lib := library) silent_region 2 0
          = Ok silent_region) as Hok by (vm_compute; reflexivity).
  assert (0 < 2) as H0 by lia. assert (1 < 2) as H1 by lia.
  assert (entry silent_region 1 1 = 0%Z ∨ entry silent_region 1 1 = 2%Z ∨ 2%Z = 0%Z) as Hdeg
    by (right; left; reflexivity).
  split; [exact silent_region_shape|]. split; [exact H0|]. split; [exact H1|].
  split; [exact Hdeg|]. exists silent_region. split; [exact Hok|].
  exact (significant_connection_threshold_degenerate_kept (lib := library) 2 silent_region 2 0
           silent_region
           0 1 silent_region_shape Hok H0 H1 Hdeg).
Defined.

End SignificanceEdgesExamples.

(** ** Influence estimator: signs and the digraph *)

Section InfluenceSigns.
Import NpFloat Influence InfluenceGraph NetworkX Examples.
Implicit Type C : list (list Z).

Lemma influence_sign (cij cii cjj : Z) :
  (0 < cii)%Z → (0 < cjj)%Z →
  ((0 < inject_Z cij / inject_Z cii - inject_Z cij / inject_Z cjj)%Q
   ↔ (0 < cij * (cjj - cii))%Z) ∧
  ((inject_Z cij / inject_Z cii - inject_Z cij / inject_Z cjj == 0)%Q
   ↔ (cij * (cjj - cii))%Z = 0%Z).
Proof.
  intros Hii Hjj. destruct cii as [|pi|pi]; [lia| |lia]. destruct cjj as [|pj|pj]; [lia| |lia].
  unfold Qlt, Qeq, Qminus, Qdiv, Qinv, Qmult, Qplus, Qopp, inject_Z. simpl.
  rewrite !Pos.mul_1_l, Z.mul_0_l.
  replace ((cij * 1 * Z.pos pj + - (cij * 1) * Z.pos pi) * 1)%Z
    with (cij * (Z.pos pj - Z.pos pi))%Z by ring.
  done.
Qed.

Lemma influence_opposite (cij cii cjj : Z) :
  (inject_Z cij / inject_Z cjj - inject_Z cij / inject_Z cii
   == - (inject_Z cij / inject_Z cii - inject_Z cij / inject_Z cjj))%Q.
Proof. unfold Qdiv. ring. Qed.

(** For a symmetric co-activation matrix with nonzero diagonal the influence
    matrix is antisymmetric, [I[j][i] = -I[i][j]], and its diagonal is
    zero. *)
Theorem build_influence_matrix_antisymmetric n C i j :
  shape n n C → symmetric C →
  (∀ k ckk, mget C k k = Some ckk → ckk ≠ 0%Z) →
  i < n → j < n →
  ∃ q q', mget (build_influence_matrix C) i j = Some (Fin q) ∧
          mget (build_influence_matrix C) j i = Some (Fin q') ∧
          (q' == - q)%Q ∧ (i = j → (q == 0)%Q).
Proof.
  intros HC Hsym Hdiag Hi Hj.
  destruct (mget_shape n n C i j HC Hi Hj) as [cij Hij].
  destruct (mget_shape n n C i i HC Hi Hi) as [cii Hii].
  destruct (mget_shape n n C j j HC Hj Hj) as [cjj Hjj].
  assert (mget C j i = Some cij) as Hji by by rewrite <- Hsym.
  rewrite (build_influence_matrix_entry n C i j cij cii cjj) by done.
  rewrite (build_influence_matrix_entry n C j i cij cjj cii) by done.
  rewrite !fdiv_of_Z by eauto. simpl. eexists _, _. split; [done|]. split; [done|].
  split; [apply influence_opposite|].
  intros ->. assert (cii = cjj) as -> by congruence. ring.
Qed.

(** With counts that are not negative and a positive diagonal, the entry
    [I[i][j]] is positive exactly when the regions co-activate and region
    [i] has fewer activations than region [j], and zero exactly when they do
    not co-activate or have equally many; the positive influence matrix
    keeps the positive entries and has 0 elsewhere. *)
Theorem build_influence_matrix_entry_sign n C i j cij cii cjj :
  shape n n C →
  mget C i j = Some cij → mget C i i = Some cii → mget C j j = Some cjj →
  (0 ≤ cij)%Z → (0 < cii)%Z → (0 < cjj)%Z →
  ∃ q p, mget (build_influence_matrix C) i j = Some (Fin q) ∧
         mget (build_positive_influence_matrix C) i j = Some (Fin p) ∧
         ((0 < q)%Q ↔ (0 < cij)%Z ∧ (cii < cjj)%Z) ∧
         ((q == 0)%Q ↔ cij = 0%Z ∨ cii = cjj) ∧
         ((0 < q)%Q → (p == q)%Q) ∧ (¬ (0 < q)%Q → (p == 0)%Q).
Proof.
  intros HC Hij Hii Hjj Hnn Hpi Hpj.
  unfold build_positive_influence_matrix. rewrite times_positive_mask_entry.
  rewrite (build_influence_matrix_entry n C i j cij cii cjj) by done.
  rewrite !fdiv_of_Z by lia. simpl.
  set (q := (inject_Z cij / inject_Z cii - inject_Z cij / inject_Z cjj)%Q).
  destruct (influence_sign cij cii cjj Hpi Hpj) as [Hpos Hzero]. fold q in Hpos, Hzero.
  assert (Qle_bool q 0 = false ↔ (0 < q)%Q) as Hcmp.
  { split.
    - intros Hf. apply Qnot_le_lt. intros Hle. apply Qle_bool_iff in Hle. congruence.
    - intros Hlt. destruct (Qle_bool q 0) eqn:Hle; [|done].
      apply Qle_bool_iff in Hle. by apply Qlt_not_le in Hlt. }
  exists q. destruct (Qle_bool q 0) eqn:Hle; simpl; eexists; (split; [done|]); (split; [done|]).
  - split; [rewrite Hpos; nia|]. split; [rewrite Hzero; nia|].
    split; [intros Hq; apply Hcmp in Hq; done | intros _; ring].
  - split; [rewrite Hpos; nia|]. split; [rewrite Hzero; nia|].
    split; [intros _; ring | intros Hq; destruct Hq; by apply Hcmp].
Qed.

Lemma length_diagonal n C : shape n n C → length (diagonal C) = n.
Proof.
  intros HC. apply Nat.le_antisymm.
  - unfold diagonal. destruct HC as [<- _].
    assert (∀ l : list nat, length (omap (fun i => mget C i i) l) ≤ length l) as Hle.
    { induction l as [|k l IH]; [done|].
      destruct (mget C k k) eqn:Hk; cbn [omap list_omap length]; rewrite Hk; simpl; lia. }
    etrans; [apply Hle|]. by rewrite length_seq.
  - destruct n as [|n]; [lia|].
    assert (n < S n) as Hlast by lia.
    pose proof (diagonal_lookup (S n) C n HC Hlast) as Hlook.
    destruct (mget_shape (S n) (S n) C n n HC Hlast Hlast) as [v Hv].
    rewrite Hv in Hlook. apply lookup_lt_Some in Hlook. lia.
Qed.

Lemma digraph_of_matrix_edges (A : matrix (npfloat Q)) u v w :
  (u, v, w) ∈ edges (digraph_of_matrix A) ↔ mget A u v = Some w ∧ nonzero w = true.
Proof.
  unfold digraph_of_matrix, mget. simpl.
  rewrite list_elem_of_In, in_concat. setoid_rewrite <- list_elem_of_In. split.
  - intros (es & Hes & Hin). apply elem_of_lookup_imap in Hes as (u' & row & -> & Hrow).
    apply list_elem_of_omap in Hin as ([v' w'] & Hvw & Hsome).
    apply elem_of_lookup_imap in Hvw as (v'' & w'' & [= -> ->] & Hw).
    simpl in Hsome. destruct (nonzero w'') eqn:Hnz; [|done].
    injection Hsome as -> -> ->. by rewrite Hrow.
  - intros [Hget Hnz]. destruct (A !! u) as [row|] eqn:Hrow; [|done]. simpl in Hget.
    eexists. split; [by apply elem_of_lookup_imap_2|].
    apply list_elem_of_omap. exists (v, w). split.
    + by apply (elem_of_lookup_imap_2 (fun v w => (v, w))).
    + simpl. by rewrite Hnz.
Qed.

Lemma shape_build_influence_matrix n C :
  shape n n C → ∀ i j, i < n → j < n → is_Some (mget (build_influence_matrix C) i j).
Proof.
  intros HC i j Hi Hj.
  destruct (mget_shape n n C i j HC Hi Hj) as [cij Hij].
  destruct (mget_shape n n C i i HC Hi Hi) as [cii Hii].
  destruct (mget_shape n n C j j HC Hj Hj) as [cjj Hjj].
  by rewrite (build_influence_matrix_entry n C i j cij cii cjj).
Qed.

Lemma mget_build_influence_matrix_inv n C i j v :
  shape n n C → mget (build_influence_matrix C) i j = Some v → i < n ∧ j < n.
Proof.
  intros [Hlen Hrows] Hget.
  unfold build_influence_matrix, subtract, divide_by_row, divide_by_column, mget in Hget.
  destruct (zip_with _ _ _ !! i) as [row|] eqn:Hrow; [|done]. simpl in Hget.
  apply lookup_zip_with_Some in Hrow as (ra & rb & -> & Hra & Hrb).
  apply lookup_zip_with_Some in Hget as (a & b & _ & Ha & Hb).
  apply lookup_zip_with_Some in Hra as (r & d & -> & Hr & Hd).
  pose proof (lookup_lt_Some _ _ _ Hr) as Hi.
  rewrite list_lookup_fmap in Ha. destruct (r !! j) as [c|] eqn:Hc; [|done].
  pose proof (lookup_lt_Some _ _ _ Hc) as Hj.
  rewrite Forall_forall in Hrows. rewrite (Hrows r) in Hj by by eapply list_elem_of_lookup_2.
  lia.
Qed.

(** The influence digraph of a co-activation matrix with counts that are not
    negative and a positive diagonal: its nodes are the regions; it has an
    edge from [i] to [j] exactly when the two co-activate and [i] has fewer
    activations than [j]; the weight of an edge is the positive influence
    entry; and it has no self-loop and no pair of opposite edges. *)
Theorem build_influence_digraph_edges n C :
  shape n n C →
  (∀ i j cij, mget C i j = Some cij → (0 ≤ cij)%Z) →
  (∀ k ckk, mget C k k = Some ckk → (0 < ckk)%Z) →
  let G := build_influence_digraph C in
  nodes G = seq 0 n ∧
  (∀ i j cij cii cjj,
     mget C i j = Some cij → mget C i i = Some cii → mget C j j = Some cjj →
     ((∃ w, (i, j, w) ∈ edges G) ↔ (0 < cij)%Z ∧ (cii < cjj)%Z)) ∧
  (∀ i j w, (i, j, w) ∈ edges G →
     i < n ∧ j < n ∧ i ≠ j ∧
     (∃ q q', w = Fin q' ∧ mget (build_influence_matrix C) i j = Some (Fin q) ∧
              (0 < q)%Q ∧ (q' == q)%Q) ∧
     ∀ w', (j, i, w') ∉ edges G).
Proof.
  intros HC Hnn Hdiag G.
  assert (∀ i j cij cii cjj,
     mget C i j = Some cij → mget C i i = Some cii → mget C j j = Some cjj →
     ∀ w, (i, j, w) ∈ edges G ↔
          (0 < cij)%Z ∧ (cii < cjj)%Z ∧
          (0 < inject_Z cij / inject_Z cii - inject_Z cij / inject_Z cjj)%Q ∧
          w = Fin ((inject_Z cij / inject_Z cii - inject_Z cij / inject_Z cjj) * 1)%Q) as Hedge.
  { intros i j cij cii cjj Hij Hii Hjj w. unfold G, build_influence_digraph.
    rewrite digraph_of_matrix_edges, times_positive_mask_entry.
    rewrite (build_influence_matrix_entry n C i j cij cii cjj) by done.
    pose proof (Hdiag _ _ Hii) as Hpi. pose proof (Hdiag _ _ Hjj) as Hpj.
    pose proof (Hnn _ _ _ Hij) as Hnij.
    rewrite !fdiv_of_Z by lia. simpl.
    set (q := (inject_Z cij / inject_Z cii - inject_Z cij / inject_Z cjj)%Q).
    destruct (influence_sign cij cii cjj Hpi Hpj) as [Hpos _]. fold q in Hpos.
    destruct (Qle_bool q 0) eqn:Hle; simpl.
    - split.
      + intros [[= <-] Hnz]. simpl in Hnz. apply negb_true_iff in Hnz.
        assert (q * 0 == 0)%Q as Hz by ring. apply Qeq_bool_iff in Hz. congruence.
      + intros (_ & _ & Hq & _). apply Qle_bool_iff in Hle. by apply Qlt_not_le in Hq.
    - assert (0 < q)%Q as Hq.
      { apply Qnot_le_lt. intros Hle'. apply Qle_bool_iff in Hle'. congruence. }
      split.
      + intros [[= <-] _]. split; [apply Hpos in Hq; nia|]. split; [apply Hpos in Hq; nia|]. done.
      + intros (_ & _ & _ & ->). split; [done|]. simpl. apply negb_true_iff.
        destruct (Qeq_bool (q * 1) 0) eqn:Hz; [|done]. apply Qeq_bool_iff in Hz.
        assert (q == 0)%Q as Hq0 by (rewrite <- Hz; ring). rewrite Hq0 in Hq.
        by apply Qlt_irrefl in Hq. }
  split; [|split].
  - unfold G, build_influence_digraph, digraph_of_matrix. simpl. f_equal.
    unfold times_positive_mask, build_influence_matrix, subtract, divide_by_row, divide_by_column.
    rewrite length_map, !length_zip_with, length_map.
    pose proof (length_diagonal n C HC) as Hd.
    destruct HC as [HlenC _]. lia.
  - intros i j cij cii cjj Hij Hii Hjj. split.
    + intros [w Hw]. apply (Hedge i j cij cii cjj Hij Hii Hjj) in Hw. tauto.
    + intros [Hpos Hlt]. eexists. apply (Hedge i j cij cii cjj Hij Hii Hjj).
      split; [done|]. split; [done|]. split; [|done].
      apply (influence_sign cij cii cjj); [by eapply Hdiag | by eapply Hdiag | nia].
  - intros i j w Hw.
    assert (i < n ∧ j < n) as [Hi Hj].
    { unfold G, build_influence_digraph in Hw.
      apply digraph_of_matrix_edges in Hw as [Hget _].
      rewrite times_positive_mask_entry in Hget.
      destruct (mget (build_influence_matrix C) i j) as [v|] eqn:Hv; [|done].
      by apply (mget_build_influence_matrix_inv n C i j v). }
    destruct (mget_shape n n C i j HC Hi Hj) as [cij Hij].
    destruct (mget_shape n n C j i HC Hj Hi) as [cji Hji].
    destruct (mget_shape n n C i i HC Hi Hi) as [cii Hii].
    destruct (mget_shape n n C j j HC Hj Hj) as [cjj Hjj].
    pose proof (proj1 (Hedge i j cij cii cjj Hij Hii Hjj w) Hw) as (Hpos & Hlt & Hq & ->).
    split; [done|]. split; [done|]. split; [|split].
    + intros ->. assert (cii = cjj) by congruence. lia.
    + eexists _, _. split; [done|].
      rewrite (build_influence_matrix_entry n C i j cij cii cjj) by done.
      rewrite !fdiv_of_Z by (apply Z.neq_sym, Z.lt_neq; by eapply Hdiag).
      split; [done|]. split; [done | apply Qmult_1_r].
    + intros w' Hw'. apply (Hedge j i cji cjj cii Hji Hjj Hii) in Hw'. lia.
Qed.

(** A region without activations makes the influence digraph degenerate:
    it gets an edge to and from every region, itself included, and the
    weight of each is NaN or infinite. *)
Theorem build_influence_digraph_silent_region n C i j :
  shape n n C → mget C i i = Some 0%Z → j < n →
  let G := build_influence_digraph C in
  (∃ w, (i, j, w) ∈ edges G ∧ is_nan_or_inf w) ∧
  (∃ w, (j, i, w) ∈ edges G ∧ is_nan_or_inf w).
Proof.
  intros HC Hii Hj G.
  destruct (mget_shape_inv n n C i i _ HC Hii) as [Hi _].
  destruct (mget_shape n n C i j HC Hi Hj) as [cij Hij].
  destruct (mget_shape n n C j i HC Hj Hi) as [cji Hji].
  destruct (mget_shape n n C j j HC Hj Hj) as [cjj Hjj].
  pose proof (build_influence_matrix_entry n C i j cij 0 cjj HC Hij Hii Hjj) as Hrow.
  pose proof (build_influence_matrix_entry n C j i cji cjj 0 HC Hji Hjj Hii) as Hcol.
  assert (is_nan_or_inf (fsub (fdiv (of_Z cij) (of_Z 0)) (fdiv (of_Z cij) (of_Z cjj))))
    as Hnr by apply fsub_nan_or_inf_l, fdiv_by_zero.
  assert (is_nan_or_inf (fsub (fdiv (of_Z cji) (of_Z cjj)) (fdiv (of_Z cji) (of_Z 0))))
    as Hnc by apply fsub_nan_or_inf_r, fdiv_by_zero.
  assert (∀ w : npfloat Q, is_nan_or_inf w → nonzero w = true) as Hnz by by intros [].
  unfold G, build_influence_digraph.
  split; eexists; rewrite digraph_of_matrix_edges, times_positive_mask_entry.
  - rewrite Hrow. simpl. split; [split; [done|]|]; [apply Hnz|]; by apply positive_mask_nan_or_inf.
  - rewrite Hcol. simpl. split; [split; [done|]|]; [apply Hnz|]; by apply positive_mask_nan_or_inf.
Qed.

End InfluenceSigns.

Section InfluenceSignsExamples.
Import NpFloat Influence InfluenceGraph NetworkX Examples.

Lemma nested_coactives_positive_diagonal k ckk :
  mget nested_coactives k k = Some ckk → (0 < ckk)%Z.
Proof. destruct k as [|[|k]]; intros Hk; vm_compute in Hk; simplify_eq; done. Qed.

Lemma nested_coactives_counts i j cij : mget nested_coactives i j = Some cij → (0 ≤ cij)%Z.
Proof.
  destruct i as [|[|i]], j as [|[|j]]; intros Hij; vm_compute in Hij; simplify_eq; done.
Qed.

Lemma build_influence_matrix_antisymmetric_witness :
  shape 2 2 nested_coactives ∧ symmetric nested_coactives ∧
  (∀ k ckk, mget nested_coactives k k = Some ckk → ckk ≠ 0%Z) ∧ 0 < 2 ∧ 1 < 2 ∧
  ∃ q q', mget (build_influence_matrix nested_coactives) 0 1 = Some (Fin q) ∧
          mget (build_influence_matrix nested_coactives) 1 0 = Some (Fin q') ∧
          (q' == - q)%Q ∧ (0 = 1 → (q == 0)%Q).
Proof.
  assert (∀ k ckk, mget nested_coactives k k = Some ckk → ckk ≠ 0%Z) as Hdiag.
  { intros k ckk Hk. apply nested_coactives_positive_diagonal in Hk. lia. }
  assert (0 < 2) as H0 by lia. assert (1 < 2) as H1 by lia.
  split; [exact nested_coactives_shape|]. split; [exact nested_coactives_symmetric|].
  split; [exact Hdiag|]. split; [exact H0|]. split; [exact H1|].
  exact (build_influence_matrix_antisymmetric 2 nested_coactives 0 1 nested_coactives_shape
           nested_coactives_symmetric Hdiag H0 H1).
Defined.

Lemma build_influence_matrix_entry_sign_witness :
  shape 2 2 nested_coactives ∧ (0 ≤ 1)%Z ∧ (0 < 1)%Z ∧ (0 < 2)%Z ∧
  ∃ q p, mget (build_influence_matrix nested_coactives) 0 1 = Some (Fin q) ∧
         mget (build_positive_influence_matrix nested_coactives) 0 1 = Some (Fin p) ∧
         ((0 < q)%Q ↔ (0 < 1)%Z ∧ (1 < 2)%Z) ∧
         ((q == 0)%Q ↔ 1%Z = 0%Z ∨ 1%Z = 2%Z) ∧
         ((0 < q)%Q → (p == q)%Q) ∧ (¬ (0 < q)%Q → (p == 0)%Q).
Proof.
  assert (0 ≤ 1)%Z as Hnn by lia. assert (0 < 1)%Z as Hpi by lia.
  assert (0 < 2)%Z as Hpj by lia.
  split; [exact nested_coactives_shape|]. split; [exact Hnn|]. split; [exact Hpi|].
  split; [exact Hpj|].
  exact (build_influence_matrix_entry_sign 2 nested_coactives 0 1 1 1 2 nested_coactives_shape
           eq_refl eq_refl eq_refl Hnn Hpi Hpj).
Defined.

Lemma build_influence_digraph_edges_witness :
  shape 2 2 nested_coactives ∧
  (∀ i j cij, mget nested_coactives i j = Some cij → (0 ≤ cij)%Z) ∧
  (∀ k ckk, mget nested_coactives k k = Some ckk → (0 < ckk)%Z) ∧
  nodes (build_influence_digraph nested_coactives) = seq 0 2 ∧
  ((∃ w, (0, 1, w) ∈ edges (build_influence_digraph nested_coactives))
   ↔ (0 < 1)%Z ∧ (1 < 2)%Z).
Proof.
  split; [exact nested_coactives_shape|]. split; [exact nested_coactives_counts|].
  split; [exact nested_coactives_positive_diagonal|].
  destruct (build_influence_digraph_edges 2 nested_coactives nested_coactives_shape
              nested_coactives_counts nested_coactives_positive_diagonal)
    as (Hnodes & Hedges & _).
  split; [exact Hnodes|]. exact (Hedges 0 1 1%Z 1%Z 2%Z eq_refl eq_refl eq_refl).
Defined.

Lemma build_influence_digraph_silent_region_witness :
  shape 2 2 silent_region ∧ mget silent_region 0 0 = Some 0%Z ∧ 1 < 2 ∧
  (∃ w, (0, 1, w) ∈ edges (build_influence_digraph silent_region) ∧ is_nan_or_inf w) ∧
  (∃ w, (1, 0, w) ∈ edges (build_influence_digraph silent_region) ∧ is_nan_or_inf w).
Proof.
  assert (1 < 2) as Hlt by lia.
  split; [exact silent_region_shape|]. split; [reflexivity|]. split; [exact Hlt|].
  exact (build_influence_digraph_silent_region 2 silent_region 0 1 silent_region_shape
           eq_refl Hlt).
Defined.

End InfluenceSignsExamples.
